(** * Loongson IOINTC: parent interrupt line assignment

    A shallow embedding of [validate_parent_mask] and of the part of
    [iointc_of_init] that decides whether it runs
    (drivers/irqchip/irq-loongson-iointc.c), with the properties of the
    resulting line-to-parent assignment. *)

From Stdlib Require Import ZArith Lia Bool List.
From stdpp Require Import base list.

Local Open Scope Z_scope.

(** ** Machine integers and the bit primitives of the kernel *)

Definition u8 (z : Z) : Z := z mod 2 ^ 8.
Definition u32 (z : Z) : Z := z mod 2 ^ 32.
(** [unsigned long] of the 64-bit Loongson kernel. *)
Definition ulong (z : Z) : Z := z mod 2 ^ 64.

(** Modelled from the spec: the macro [BIT] of linux/bits.h, which is not
    among the sources; [BIT(nr)] is [1UL << nr]. *)
Definition BIT (nr : Z) : Z := ulong (Z.shiftl 1 nr).

(** Modelled from the spec: the macro [GENMASK] of linux/bits.h, which is
    not among the sources; bits [l] to [h] of an [unsigned long], both
    included. *)
Definition GENMASK (h l : Z) : Z :=
  Z.land (ulong (Z.shiftl (ulong (Z.lnot 0)) l))
         (Z.shiftr (ulong (Z.lnot 0)) (64 - 1 - h)).

(** Number of trailing zero bits of a positive number. *)
Fixpoint ctz (p : positive) : Z :=
  match p with
  | xO q => 1 + ctz q
  | _ => 0
  end.

(** What can go wrong in the C code: a bit scan of the word 0, whose result
    is undefined, and an array access out of the array. *)
Inductive fault := FfsOfZero | OutOfBounds.

Inductive outcome (A : Type) : Type :=
| Done (a : A)
| Undefined (f : fault)
| OutOfFuel.
Arguments Done {A} a.
Arguments Undefined {A} f.
Arguments OutOfFuel {A}.

(** ** The driver's data *)

Definition IOINTC_CHIP_IRQ : Z := 32.
Definition IOINTC_NUM_PARENT : Z := 4.
Definition IOINTC_SHIFT_INTx : Z := 4.

(** The error numbers of errno-base.h, which is not among the sources. *)
Definition ENOMEM : Z := 12.
Definition ENODEV : Z := 19.

(** [struct iointc_priv]. [handler] holds the [parent_int_map] of each
    [struct iointc_handler_data]; the register base, the generic chip and
    the back pointers of the handlers are addresses and play no part
    here. *)
Record iointc_priv := {
  map_cache : list Z;
  handler : list Z;
  possible_parent_mask : Z;
  have_lpc_irq_bug : bool
}.

(** The messages of the driver. *)
Inductive printk :=
| warn_homeless (bit fallback_parent : Z)
| warn_multiple (bit fallback_parent : Z)
| err_no_parent
| err_no_parent_int_map
| err_no_domain
| err_register_domain.

Inductive loglevel := KERN_ERR | KERN_WARNING.

Definition level (p : printk) : loglevel :=
  match p with
  | warn_homeless _ _ | warn_multiple _ _ => KERN_WARNING
  | _ => KERN_ERR
  end.

Record machine := {
  priv : iointc_priv;
  dmesg : list printk
}.

(** ** A state and fault monad for the C code *)

Definition M (A : Type) : Type := machine -> outcome (A * machine).

Definition ret {A} (a : A) : M A := fun m => Done (a, m).

Definition bind {A B} (c : M A) (k : A -> M B) : M B :=
  fun m =>
    match c m with
    | Done (a, m') => k a m'
    | Undefined f => Undefined f
    | OutOfFuel => OutOfFuel
    end.

Declare Scope cmd_scope.
Delimit Scope cmd_scope with cmd.
Notation "x <- c ;; k" := (bind c (fun x => k))
  (at level 100, c at next level, right associativity) : cmd_scope.
Notation "c ;;; k" := (bind c (fun _ => k))
  (at level 100, right associativity) : cmd_scope.
Local Open Scope cmd_scope.

Definition undefined {A} (f : fault) : M A := fun _ => Undefined f.
Definition out_of_fuel {A} : M A := fun _ => OutOfFuel.

Definition get_priv : M iointc_priv := fun m => Done (priv m, m).
Definition put_priv (p : iointc_priv) : M unit :=
  fun m => Done (tt, {| priv := p; dmesg := dmesg m |}).
Definition pr (e : printk) : M unit :=
  fun m => Done (tt, {| priv := priv m; dmesg := dmesg m ++ [e] |}).

(** Modelled from the spec: the bit scan [__ffs] of the kernel's bitops,
    which is not among the sources; the index of the lowest set bit of the
    unsigned word [word], undefined when [word] is 0. *)
Definition __ffs (word : Z) : M Z :=
  match word with
  | Zpos p => ret (ctz p)
  | _ => undefined FfsOfZero
  end.

(** [a[i]] as an rvalue. *)
Definition array_get (a : list Z) (i : Z) : M Z :=
  if i <? 0 then undefined OutOfBounds
  else match a !! Z.to_nat i with
       | Some v => ret v
       | None => undefined OutOfBounds
       end.

(** [a[i] = v]. *)
Definition array_set (a : list Z) (i : Z) (v : Z) : M (list Z) :=
  if (0 <=? i) && (i <? Z.of_nat (length a))
  then ret (<[Z.to_nat i := v]> a)
  else undefined OutOfBounds.

(** [priv->handler[i].parent_int_map] *)
Definition get_parent_int_map (i : Z) : M Z :=
  p <- get_priv;;
  array_get (handler p) i.

(** [priv->handler[i].parent_int_map = v], a [u32]. *)
Definition set_parent_int_map (i : Z) (v : Z) : M unit :=
  p <- get_priv;;
  h <- array_set (handler p) i (u32 v);;
  put_priv {| map_cache := map_cache p; handler := h;
              possible_parent_mask := possible_parent_mask p;
              have_lpc_irq_bug := have_lpc_irq_bug p |}.

(** [priv->map_cache[irq]] *)
Definition get_map_cache (irq : Z) : M Z :=
  p <- get_priv;;
  array_get (map_cache p) irq.

(** [priv->map_cache[irq] = v], a [u8]. *)
Definition set_map_cache (irq : Z) (v : Z) : M unit :=
  p <- get_priv;;
  c <- array_set (map_cache p) irq (u8 v);;
  put_priv {| map_cache := c; handler := handler p;
              possible_parent_mask := possible_parent_mask p;
              have_lpc_irq_bug := have_lpc_irq_bug p |}.

(** [for (i = lo; i < lo + n; i++) body], carrying the locals [x] that the
    body assigns. *)
Fixpoint for_ {L} (n : nat) (lo : Z) (body : Z -> L -> M L) (x : L) : M L :=
  match n with
  | O => ret x
  | S n' => x' <- body lo x;; for_ n' (lo + 1) body x'
  end.

(** [while (cond) body], carrying the local [x] that the condition tests.
    A loop still running after [fuel] tests of its condition gives
    [OutOfFuel]. *)
Fixpoint while {L} (fuel : nat) (cond : L -> bool) (body : L -> M L) (x : L)
  : M L :=
  match fuel with
  | O => out_of_fuel
  | S fuel' =>
      if cond x then x' <- body x;; while fuel' cond body x' else ret x
  end.

(** ** [validate_parent_mask] *)

(** The body of the loop over the parents: take over the hint of an
    available parent, and note the lines seen before. *)
Definition take_hint (possible : Z) (of_parent_int_map : list Z) (i : Z)
  (masks : Z * Z) : M (Z * Z) :=
  let '(proceed_mask, duplicated_mask) := masks in
  (* Try if the parent is available *)
  if Z.land possible (BIT i) =? 0
  then ret (proceed_mask, duplicated_mask)
  else
    v <- array_get of_parent_int_map i;;
    set_parent_int_map i v;;;
    (* Detect if the IRQ have previously proceed *)
    m <- get_parent_int_map i;;
    let duplicated_mask :=
      u32 (Z.lor duplicated_mask (Z.land m proceed_mask)) in
    m <- get_parent_int_map i;;
    ret (u32 (Z.lor proceed_mask m), duplicated_mask).

(** The body of the loop on the lines with no map bit set. *)
Definition fallback_homeless (fallback_parent proceed_mask : Z) : M Z :=
  bit <- __ffs (u32 (Z.lnot proceed_mask));;
  pr (warn_homeless bit fallback_parent);;;
  m <- get_parent_int_map fallback_parent;;
  set_parent_int_map fallback_parent (Z.lor m (BIT bit));;;
  ret (u32 (Z.lor proceed_mask (BIT bit))).

(** The body of the loop on the lines with multiple map bits set. *)
Definition fallback_duplicated (fallback_parent duplicated_mask : Z) : M Z :=
  bit <- __ffs duplicated_mask;;
  pr (warn_multiple bit fallback_parent);;;
  (* Clear the bit in all parent bits *)
  for_ (Z.to_nat IOINTC_NUM_PARENT) 0
    (fun i _ =>
       m <- get_parent_int_map i;;
       set_parent_int_map i (Z.land m (ulong (Z.lnot (BIT bit)))))
    tt;;;
  m <- get_parent_int_map fallback_parent;;
  set_parent_int_map fallback_parent (Z.lor m (BIT bit));;;
  ret (u32 (Z.land duplicated_mask (ulong (Z.lnot (BIT bit))))).

(** The body of the loop that writes the parent of each line of
    [handler[i]] in the map cache. *)
Definition generate_map_cache (i pending : Z) : M Z :=
  bit <- __ffs pending;;
  set_map_cache bit (ulong (Z.shiftl (BIT i) IOINTC_SHIFT_INTx));;;
  ret (u32 (Z.land pending (ulong (Z.lnot (BIT bit))))).

Definition validate_parent_mask (fuel : nat) (of_parent_int_map : list Z)
  : M unit :=
  p <- get_priv;;
  fallback_parent <- __ffs (possible_parent_mask p);;
  masks <-
    for_ (Z.to_nat IOINTC_NUM_PARENT) 0
      (take_hint (possible_parent_mask p) of_parent_int_map) (0, 0);;
  let '(proceed_mask, duplicated_mask) := masks in
  (* Fallback IRQs with no map bit set *)
  _ <- while fuel (fun proceed_mask => negb (u32 (Z.lnot proceed_mask) =? 0))
         (fallback_homeless fallback_parent) proceed_mask;;
  (* Fallback IRQs with multiple map bit set *)
  _ <- while fuel (fun duplicated_mask => negb (duplicated_mask =? 0))
         (fallback_duplicated fallback_parent) duplicated_mask;;
  (* Generate parent INT part of map cache *)
  for_ (Z.to_nat IOINTC_NUM_PARENT) 0
    (fun i _ =>
       pending <- get_parent_int_map i;;
       _ <- while fuel (fun pending => negb (pending =? 0))
              (generate_map_cache i) pending;;
       ret tt)
    tt.

(** ** [iointc_of_init], as far as it decides whether and on what
    [validate_parent_mask] runs *)

(** What the device tree node and the kernel services answer to
    [iointc_of_init]. *)
Record platform := {
  kzalloc_ok : bool;
  of_iomap_ok : bool;
  compatible_1_0 : bool;
  (** [of_irq_get_byname(node, parent_names[i])] *)
  of_irq_get_byname : Z -> Z;
  (** the result of [of_property_read_variable_u32_array] and the array it
      filled *)
  parent_int_map_sz : Z;
  parent_int_map_val : list Z;
  irq_domain_add_linear_ok : bool;
  irq_alloc_domain_generic_chips : Z;
  boot_cpu_id : Z
}.

(** [kzalloc] gives zeroed memory. *)
Definition kzalloc_priv : iointc_priv :=
  {| map_cache := replicate (Z.to_nat IOINTC_CHIP_IRQ) 0;
     handler := replicate (Z.to_nat IOINTC_NUM_PARENT) 0;
     possible_parent_mask := 0;
     have_lpc_irq_bug := false |}.

Definition boot : machine := {| priv := kzalloc_priv; dmesg := [] |}.

Definition map_cache_set_core (irq core : Z) : M unit :=
  c <- get_map_cache irq;;
  set_map_cache irq (Z.land c (ulong (Z.lnot (GENMASK 3 0))));;;
  c <- get_map_cache irq;;
  set_map_cache irq (Z.lor c (BIT core)).

(** The writes to the controller's registers and the registration with the
    interrupt framework leave [priv] and the return value untouched and are
    left out. *)
Definition iointc_of_init (fuel : nat) (node : platform) : M Z :=
  if negb (kzalloc_ok node) then ret (- ENOMEM) else
  if negb (of_iomap_ok node) then ret (- ENODEV) else
  p <- get_priv;;
  put_priv {| map_cache := map_cache p; handler := handler p;
              possible_parent_mask := possible_parent_mask p;
              have_lpc_irq_bug :=
                if compatible_1_0 node then true else have_lpc_irq_bug p |};;;
  for_ (Z.to_nat IOINTC_NUM_PARENT) 0
    (fun i _ =>
       if 0 <=? of_irq_get_byname node i then
         p <- get_priv;;
         put_priv {| map_cache := map_cache p; handler := handler p;
                     possible_parent_mask :=
                       u8 (Z.lor (possible_parent_mask p) (BIT i));
                     have_lpc_irq_bug := have_lpc_irq_bug p |}
       else ret tt)
    tt;;;
  p <- get_priv;;
  if possible_parent_mask p =? 0 then
    pr err_no_parent;;; ret (- ENOMEM)
  else
  if parent_int_map_sz node <? 4 then
    pr err_no_parent_int_map;;; ret (- ENODEV)
  else
  if negb (irq_domain_add_linear_ok node) then
    pr err_no_domain;;; ret (- ENOMEM)
  else
  if negb (irq_alloc_domain_generic_chips node =? 0) then
    pr err_register_domain;;; ret (- ENOMEM)
  else
  validate_parent_mask fuel (parent_int_map_val node);;;
  for_ (Z.to_nat IOINTC_CHIP_IRQ) 0
    (fun i _ => map_cache_set_core i (boot_cpu_id node))
    tt;;;
  ret 0.

(** The [priv] that [iointc_of_init] hands to [validate_parent_mask]: zeroed
    by [kzalloc] but for the mask of the parents found. *)
Definition probed (mask : Z) : machine :=
  {| priv := {| map_cache := map_cache kzalloc_priv;
                handler := handler kzalloc_priv;
                possible_parent_mask := mask;
                have_lpc_irq_bug := false |};
     dmesg := [] |}.

(** The run of [validate_parent_mask] on that [priv]. *)
Definition resolve (fuel : nat) (hints : list Z) (mask : Z)
  : outcome (unit * machine) :=
  validate_parent_mask fuel hints (probed mask).

(** ** The claim of a channel on a line, and the outcome for a line *)

(** Channel [c] is among the parents found by [iointc_of_init]. *)
Definition available (mask c : Z) : bool := Z.testbit mask c.

(** The hint table gives line [line] to channel [c]. *)
Definition claims (hints : list Z) (c line : Z) : bool :=
  Z.testbit (nth (Z.to_nat c) hints 0) line.

(** The lowest channel of the mask, as [__ffs] finds it. *)
Definition lowest (mask : Z) : Z :=
  match mask with
  | Zpos p => ctz p
  | _ => 0
  end.

(** The byte that [validate_parent_mask] writes in [map_cache] for a line
    given to channel [c]. *)
Definition INTx (c : Z) : Z := u8 (ulong (Z.shiftl (BIT c) IOINTC_SHIFT_INTx)).

(** The set bits of a positive word, lowest first, counted from [k]. *)
Fixpoint bits_from (p : positive) (k : Z) : list Z :=
  match p with
  | xH => [k]
  | xO q => bits_from q (k + 1)
  | xI q => k :: bits_from q (k + 1)
  end.

(** The set bits of the word [w], counted from [k]. *)
Definition bits_at (w k : Z) : list Z :=
  match w with
  | Zpos p => bits_from p k
  | _ => []
  end.

(** The set bits of the word [w], lowest first. *)
Definition bits (w : Z) : list Z := bits_at w 0.

(** A positive word without its lowest set bit. *)
Fixpoint drop_lowest (p : positive) : Z :=
  match p with
  | xH => 0
  | xI q => Zpos (xO q)
  | xO q => 2 * drop_lowest q
  end.

(** ** The state between the loops, and what the claims speak of *)

(** The state with the handler maps [h]. *)
Definition with_handler (h : list Z) (m : machine) : machine :=
  {| priv := {| map_cache := map_cache (priv m); handler := h;
                possible_parent_mask := possible_parent_mask (priv m);
                have_lpc_irq_bug := have_lpc_irq_bug (priv m) |};
     dmesg := dmesg m |}.

(** The state with the map cache [c]. *)
Definition with_map_cache (c : list Z) (m : machine) : machine :=
  {| priv := {| map_cache := c; handler := handler (priv m);
                possible_parent_mask := possible_parent_mask (priv m);
                have_lpc_irq_bug := have_lpc_irq_bug (priv m) |};
     dmesg := dmesg m |}.

(** The state after the messages [e]. *)
Definition logged (e : list printk) (m : machine) : machine :=
  {| priv := priv m; dmesg := dmesg m ++ e |}.

(** The effect [step] of a loop body, for each bit of a list in turn. *)
Definition steps (step : Z -> machine -> machine) (bs : list Z) (m : machine)
  : machine :=
  fold_left (fun m b => step b m) bs m.

(** The word with exactly the bits of a list set. *)
Definition mask_of (bs : list Z) : Z :=
  fold_right (fun b acc => Z.lor (BIT b) acc) 0 bs.

(** The handler maps are four [u32] words. *)
Definition four_words (hs : list Z) : Prop :=
  exists z0 z1 z2 z3, hs = [u32 z0; u32 z1; u32 z2; u32 z3].

(** One turn of the loop on homeless lines. *)
Definition homeless_step (fb bit : Z) (m : machine) : machine :=
  with_handler
    (<[Z.to_nat fb :=
         u32 (Z.lor (nth (Z.to_nat fb) (handler (priv m)) 0) (BIT bit))]>
       (handler (priv m)))
    (logged [warn_homeless bit fb] m).

(** One turn of the loop on duplicated lines. *)
Definition dup_step (fb bit : Z) (m : machine) : machine :=
  let cleared :=
    (fun h => u32 (Z.land h (ulong (Z.lnot (BIT bit))))) <$> handler (priv m) in
  with_handler
    (<[Z.to_nat fb := u32 (Z.lor (nth (Z.to_nat fb) cleared 0) (BIT bit))]>
       cleared)
    (logged [warn_multiple bit fb] m).

(** One turn of the loop that fills the map cache for channel [i]. *)
Definition cache_step (i bit : Z) (m : machine) : machine :=
  with_map_cache (<[Z.to_nat bit := INTx i]> (map_cache (priv m))) m.

(** The map cache [mc] with the byte of channel [i] at the lines [bs]. *)
Definition cache_fill (i : Z) (bs : list Z) (mc : list Z) : list Z :=
  fold_left (fun mc b => <[Z.to_nat b := INTx i]> mc) bs mc.

(** The hint that [validate_parent_mask] takes over for channel [c]: the
    hint of an available channel, nothing for the others. *)
Definition taken (mask : Z) (hints : list Z) (c : Z) : Z :=
  if available mask c then u32 (nth (Z.to_nat c) hints 0) else 0.

(** The lines claimed by an available channel, as the loop over the parents
    collects them in [proceed_mask]. *)
Definition proceed (mask : Z) (hints : list Z) : Z :=
  u32 (Z.lor (taken mask hints 0)
         (Z.lor (taken mask hints 1)
            (Z.lor (taken mask hints 2) (taken mask hints 3)))).

(** The lines claimed by two available channels, as the loop over the
    parents collects them in [duplicated_mask]. *)
Definition duplicated (mask : Z) (hints : list Z) : Z :=
  u32 (Z.lor (Z.land (taken mask hints 1) (taken mask hints 0))
         (Z.lor (Z.land (taken mask hints 2)
                   (Z.lor (taken mask hints 0) (taken mask hints 1)))
            (Z.land (taken mask hints 3)
               (Z.lor (taken mask hints 0)
                  (Z.lor (taken mask hints 1) (taken mask hints 2)))))).

(** The handler maps once the homeless lines have their parent. *)
Definition homed (mask : Z) (hints : list Z) : list Z :=
  let fb := Z.to_nat (lowest mask) in
  let hs0 := [taken mask hints 0; taken mask hints 1;
              taken mask hints 2; taken mask hints 3] in
  <[fb := Z.lor (nth fb hs0 0) (u32 (Z.lnot (proceed mask hints)))]> hs0.

(** The handler maps when [validate_parent_mask] returns. *)
Definition settled (mask : Z) (hints : list Z) : list Z :=
  let fb := Z.to_nat (lowest mask) in
  let hs1 := homed mask hints in
  <[fb := Z.lor (Z.ldiff (nth fb hs1 0) (duplicated mask hints))
                (duplicated mask hints)]>
    ((fun h => Z.ldiff h (duplicated mask hints)) <$> hs1).

(** The map cache written from handler maps [hs]. *)
Definition cached (hs : list Z) : list Z :=
  cache_fill 3 (bits (nth 3 hs 0))
    (cache_fill 2 (bits (nth 2 hs 0))
       (cache_fill 1 (bits (nth 1 hs 0))
          (cache_fill 0 (bits (nth 0 hs 0))
             (replicate (Z.to_nat IOINTC_CHIP_IRQ) 0)))).

(** The messages of [validate_parent_mask], in the order printed. *)
Definition warnings (mask : Z) (hints : list Z) : list printk :=
  ((fun b => warn_homeless b (lowest mask))
     <$> bits (u32 (Z.lnot (proceed mask hints))))
  ++ ((fun b => warn_multiple b (lowest mask))
        <$> bits (duplicated mask hints)).

(** The parent channels int0 to int3. *)
Definition channels : list Z := [0; 1; 2; 3].

(** The available channels that claim a line in the hint table. *)
Definition claimants (mask : Z) (hints : list Z) (line : Z) : list Z :=
  List.filter (fun c => available mask c && claims hints c line) channels.

(** The channel a line ends up with: its only claimant if it has exactly
    one, the lowest available channel otherwise. *)
Definition owner (mask : Z) (hints : list Z) (line : Z) : Z :=
  match claimants mask hints line with
  | [c] => c
  | _ => lowest mask
  end.

(** The state that [resolve] ends in. *)
Definition resolved (mask : Z) (hints : list Z) : machine :=
  {| priv := {| map_cache := cached (settled mask hints);
                handler := settled mask hints;
                possible_parent_mask := mask;
                have_lpc_irq_bug := false |};
     dmesg := warnings mask hints |}.

(** [n] consecutive numbers from [k]. *)
Fixpoint upfrom (k : Z) (n : nat) : list Z :=
  match n with
  | O => []
  | S n' => k :: upfrom (k + 1) n'
  end.

(** The interrupt lines of the controller. *)
Definition lines : list Z := upfrom 0 (Z.to_nat IOINTC_CHIP_IRQ).

(** No available channel claims the line. *)
Definition homeless (mask : Z) (hints : list Z) (line : Z) : bool :=
  match claimants mask hints line with
  | [] => true
  | _ => false
  end.

(** Two or more available channels claim the line. *)
Definition multiple (mask : Z) (hints : list Z) (line : Z) : bool :=
  match claimants mask hints line with
  | _ :: _ :: _ => true
  | _ => false
  end.

(** The state reached when the loops on homeless lines, on duplicated lines
    and on the lines of each handler map take the lines in the given
    orders instead of lowest first. *)
Definition replay (mask : Z) (hints : list Z)
  (homeless_order duplicated_order : list Z) (cache_order : Z -> list Z)
  : machine :=
  let fb := lowest mask in
  let m0 := with_handler [taken mask hints 0; taken mask hints 1;
                          taken mask hints 2; taken mask hints 3]
              (probed mask) in
  let m1 := steps (homeless_step fb) homeless_order m0 in
  let m2 := steps (dup_step fb) duplicated_order m1 in
  steps (cache_step 3) (cache_order 3)
    (steps (cache_step 2) (cache_order 2)
       (steps (cache_step 1) (cache_order 1)
          (steps (cache_step 0) (cache_order 0) m2))).

(** The lines that a map cache gives to channel [c], as a word. *)
Definition lines_of (mc : list Z) (c : Z) : Z :=
  mask_of (List.filter (fun line => nth (Z.to_nat line) mc 0 =? INTx c) lines).

(** The hint table in which each line is claimed by the channel that the
    map cache gives it, and by no other. *)
Definition as_hints (mc : list Z) : list Z := map (lines_of mc) channels.

(** The mask of the parents that [iointc_of_init] finds in the device
    tree. *)
Definition parents (node : platform) : Z :=
  let found i := if 0 <=? of_irq_get_byname node i then BIT i else 0 in
  Z.lor (found 0) (Z.lor (found 1) (Z.lor (found 2) (found 3))).

(** A controller with the parents int0, int1 and int3. *)
Definition three_parents : platform :=
  {| kzalloc_ok := true; of_iomap_ok := true; compatible_1_0 := true;
     of_irq_get_byname := fun i => if i =? 2 then -22 else 16 + i;
     parent_int_map_sz := 4; parent_int_map_val := [32; 96; 0; 0];
     irq_domain_add_linear_ok := true;
     irq_alloc_domain_generic_chips := 0; boot_cpu_id := 0 |}.

(** A controller with no parent. *)
Definition no_parent : platform :=
  {| kzalloc_ok := true; of_iomap_ok := true; compatible_1_0 := false;
     of_irq_get_byname := fun _ => -22;
     parent_int_map_sz := 4; parent_int_map_val := [32; 96; 0; 0];
     irq_domain_add_linear_ok := true;
     irq_alloc_domain_generic_chips := 0; boot_cpu_id := 0 |}.

(** From a state in [P] the command never scans the word 0, and when it
    returns, it returns a value and a state in [Q]. *)
Definition scans_safely {A} (P : machine -> Prop) (c : M A)
  (Q : A -> machine -> Prop) : Prop :=
  forall m, P m ->
    match c m with
    | Done (a, m') => Q a m'
    | Undefined FfsOfZero => False
    | _ => True
    end.

(** The handler maps hold unsigned words. *)
Definition unsigned_maps (m : machine) : Prop :=
  Forall (fun h => 0 <= h) (handler (priv m)).

(** ** The controller's registers and the calls into the interrupt
    framework *)

(** The registers of the controller, as offsets from [priv->base]. *)
Definition IOINTC_REG_INTx_MAP (x : Z) : Z := x * 1.
Definition IOINTC_INTC_CHIP_START : Z := 32.
Definition IOINTC_REG_INTC_STATUS : Z := IOINTC_INTC_CHIP_START + 32.
Definition IOINTC_REG_INTC_EN_STATUS : Z := IOINTC_INTC_CHIP_START + 4.
Definition IOINTC_REG_INTC_ENABLE : Z := IOINTC_INTC_CHIP_START + 8.
Definition IOINTC_REG_INTC_DISABLE : Z := IOINTC_INTC_CHIP_START + 12.
Definition IOINTC_REG_INTC_POL : Z := IOINTC_INTC_CHIP_START + 16.
Definition IOINTC_REG_INTC_EDGE : Z := IOINTC_INTC_CHIP_START + 20.

Definition BUGGY_LPC_IRQ : Z := 10.

(** Modelled from the spec: the error number and the trigger types of
    errno-base.h and linux/irq.h, which are not among the sources. *)
Definition EINVAL : Z := 22.
Definition IRQ_TYPE_EDGE_RISING : Z := 1.
Definition IRQ_TYPE_EDGE_FALLING : Z := 2.
Definition IRQ_TYPE_LEVEL_HIGH : Z := 4.
Definition IRQ_TYPE_LEVEL_LOW : Z := 8.

(** Modelled from the spec: what the driver does to the world around it,
    the writes to the registers and the calls into the interrupt framework,
    none of which is among the sources, as a record of the calls made.
    [handle_irq hwirq] is
    [generic_handle_irq(irq_find_mapping(gc->domain, hwirq))], and
    [set_chained_handler i] is [irq_set_chained_handler_and_data] for
    [parent_irq[i]] with [&priv->handler[i]] as data. *)
Inductive call :=
| bus_writeb (v addr : Z)
| bus_writel (v addr : Z)
| gc_lock
| gc_unlock
| set_trigger_type (mask type : Z)
| chained_enter
| chained_exit
| handle_irq (hwirq : Z)
| spurious
| set_chained_handler (i : Z).

(** The driver and its controller: [priv] and the messages, what the
    registers hold, [gc->mask_cache], and the calls so far. A register reads
    back what was last written to it. *)
Record chip := {
  mach : machine;
  regs : Z -> Z;
  gc_mask_cache : Z;
  calls : list call
}.

(** The commands that act on the controller too. *)
Definition IO (A : Type) : Type := chip -> outcome (A * chip).

Definition io_ret {A} (a : A) : IO A := fun s => Done (a, s).

Definition io_bind {A B} (c : IO A) (k : A -> IO B) : IO B :=
  fun s =>
    match c s with
    | Done (a, s') => k a s'
    | Undefined f => Undefined f
    | OutOfFuel => OutOfFuel
    end.

Declare Scope io_scope.
Delimit Scope io_scope with io.
Notation "x <- c ;; k" := (io_bind c (fun x => k))
  (at level 100, c at next level, right associativity) : io_scope.
Notation "c ;;; k" := (io_bind c (fun _ => k))
  (at level 100, right associativity) : io_scope.
Local Open Scope io_scope.

(** A command on [priv] and the messages alone. *)
Definition lift {A} (c : M A) : IO A :=
  fun s =>
    match c (mach s) with
    | Done (a, m) =>
        Done (a, {| mach := m; regs := regs s;
                    gc_mask_cache := gc_mask_cache s; calls := calls s |})
    | Undefined f => Undefined f
    | OutOfFuel => OutOfFuel
    end.

Definition called (c : call) : IO unit :=
  fun s =>
    Done (tt, {| mach := mach s; regs := regs s;
                 gc_mask_cache := gc_mask_cache s; calls := calls s ++ [c] |}).

(** The registers with [v] at [addr]. *)
Definition stored (addr v : Z) (r : Z -> Z) : Z -> Z :=
  fun a => if a =? addr then v else r a.

(** Modelled from the spec: [readl], [writel] and [writeb] of asm/io.h,
    which are not among the sources, on registers that read back what was
    last written to them. *)
Definition readl (addr : Z) : IO Z := fun s => Done (u32 (regs s addr), s).

Definition writel (v addr : Z) : IO unit :=
  fun s =>
    Done (tt, {| mach := mach s; regs := stored addr (u32 v) (regs s);
                 gc_mask_cache := gc_mask_cache s;
                 calls := calls s ++ [bus_writel (u32 v) addr] |}).

Definition writeb (v addr : Z) : IO unit :=
  fun s =>
    Done (tt, {| mach := mach s; regs := stored addr (u8 v) (regs s);
                 gc_mask_cache := gc_mask_cache s;
                 calls := calls s ++ [bus_writeb (u8 v) addr] |}).

(** [gc->mask_cache], a [u32]. *)
Definition get_mask_cache : IO Z := fun s => Done (gc_mask_cache s, s).

Definition set_mask_cache (v : Z) : IO unit :=
  fun s =>
    Done (tt, {| mach := mach s; regs := regs s;
                 gc_mask_cache := u32 v; calls := calls s |}).

Fixpoint io_for {L} (n : nat) (lo : Z) (body : Z -> L -> IO L) (x : L)
  : IO L :=
  match n with
  | O => io_ret x
  | S n' => x' <- body lo x;; io_for n' (lo + 1) body x'
  end.

Fixpoint io_while {L} (fuel : nat) (cond : L -> bool) (body : L -> IO L)
  (x : L) : IO L :=
  match fuel with
  | O => fun _ => OutOfFuel
  | S fuel' =>
      if cond x then x' <- body x;; io_while fuel' cond body x'
      else io_ret x
  end.

(** ** The rest of the driver *)

(** The body of the loop of [iointc_chained_handle_irq]. *)
Definition handle_pending (pending : Z) : IO Z :=
  bit <- lift (__ffs pending);;
  called (handle_irq bit);;;
  io_ret (u32 (Z.land pending (ulong (Z.lnot (BIT bit))))).

(** [iointc_chained_handle_irq], for the handler data [&priv->handler[i]]. *)
Definition iointc_chained_handle_irq (fuel : nat) (i : Z) : IO unit :=
  called chained_enter;;;
  pending <- readl IOINTC_REG_INTC_STATUS;;
  (if pending =? 0 then
     (* Always blame LPC IRQ if we have that Bug and LPC interrupt enabled *)
     p <- lift get_priv;;
     blame <-
       (if have_lpc_irq_bug p then
          parent_int_map <- lift (get_parent_int_map i);;
          mask_cache <- get_mask_cache;;
          io_ret (negb (Z.land (Z.land parent_int_map (u32 (Z.lnot mask_cache)))
                          (BIT BUGGY_LPC_IRQ) =? 0))
        else io_ret false);;
     if blame then called (handle_irq BUGGY_LPC_IRQ) else called spurious
   else io_ret tt);;;
  _ <- io_while fuel (fun pending => negb (pending =? 0)) handle_pending
         pending;;
  called chained_exit.

Definition write_map_cache (irq : Z) : IO unit :=
  v <- lift (get_map_cache irq);;
  writeb v (IOINTC_REG_INTx_MAP irq).

Definition iointc_set_bit (offset mask : Z) (set : bool) : IO unit :=
  if set then
    v <- readl offset;; writel (Z.lor v mask) offset
  else
    v <- readl offset;; writel (Z.land v (u32 (Z.lnot mask))) offset.

(** [iointc_set_type] for an interrupt whose [data->mask] is [mask]. The
    [default] case returns from inside the locked region. *)
Definition iointc_set_type (mask type : Z) : IO Z :=
  called gc_lock;;;
  let done :=
    called gc_unlock;;;
    called (set_trigger_type mask type);;;
    io_ret 0 in
  if type =? IRQ_TYPE_LEVEL_HIGH then
    iointc_set_bit IOINTC_REG_INTC_EDGE mask false;;;
    iointc_set_bit IOINTC_REG_INTC_POL mask true;;;
    done
  else if type =? IRQ_TYPE_LEVEL_LOW then
    iointc_set_bit IOINTC_REG_INTC_EDGE mask false;;;
    iointc_set_bit IOINTC_REG_INTC_POL mask false;;;
    done
  else if type =? IRQ_TYPE_EDGE_RISING then
    iointc_set_bit IOINTC_REG_INTC_EDGE mask true;;;
    iointc_set_bit IOINTC_REG_INTC_POL mask true;;;
    done
  else if type =? IRQ_TYPE_EDGE_FALLING then
    iointc_set_bit IOINTC_REG_INTC_EDGE mask true;;;
    iointc_set_bit IOINTC_REG_INTC_POL mask false;;;
    done
  else io_ret (- EINVAL).

Definition iointc_resume : IO unit :=
  called gc_lock;;;
  (* Revert map cache *)
  io_for (Z.to_nat IOINTC_CHIP_IRQ) 0 (fun i _ => write_map_cache i) tt;;;
  (* Revert mask cache again *)
  mask_cache <- get_mask_cache;;
  writel mask_cache IOINTC_REG_INTC_DISABLE;;;
  mask_cache <- get_mask_cache;;
  writel (u32 (Z.lnot mask_cache)) IOINTC_REG_INTC_ENABLE;;;
  called gc_unlock.

(** [iointc_of_init] with its writes to the registers, the mask cache of
    the generic chip and the chained handlers: on [priv] and the messages
    it is the [iointc_of_init] above. The allocation of [priv], of the
    domain and of the generic chip are answers of [node]. *)
Definition iointc_of_init_chip (fuel : nat) (node : platform) : IO Z :=
  if negb (kzalloc_ok node) then io_ret (- ENOMEM) else
  if negb (of_iomap_ok node) then io_ret (- ENODEV) else
  p <- lift get_priv;;
  lift (put_priv {| map_cache := map_cache p; handler := handler p;
                    possible_parent_mask := possible_parent_mask p;
                    have_lpc_irq_bug :=
                      if compatible_1_0 node then true
                      else have_lpc_irq_bug p |});;;
  io_for (Z.to_nat IOINTC_NUM_PARENT) 0
    (fun i _ =>
       if 0 <=? of_irq_get_byname node i then
         p <- lift get_priv;;
         lift (put_priv {| map_cache := map_cache p; handler := handler p;
                           possible_parent_mask :=
                             u8 (Z.lor (possible_parent_mask p) (BIT i));
                           have_lpc_irq_bug := have_lpc_irq_bug p |})
       else io_ret tt)
    tt;;;
  p <- lift get_priv;;
  if possible_parent_mask p =? 0 then
    lift (pr err_no_parent);;; io_ret (- ENOMEM)
  else
  if parent_int_map_sz node <? 4 then
    lift (pr err_no_parent_int_map);;; io_ret (- ENODEV)
  else
  if negb (irq_domain_add_linear_ok node) then
    lift (pr err_no_domain);;; io_ret (- ENOMEM)
  else
  if negb (irq_alloc_domain_generic_chips node =? 0) then
    lift (pr err_register_domain);;; io_ret (- ENOMEM)
  else
  (* Disable all IRQs *)
  writel 4294967295 IOINTC_REG_INTC_DISABLE;;;
  (* Set to level triggered *)
  writel 0 IOINTC_REG_INTC_EDGE;;;
  lift (validate_parent_mask fuel (parent_int_map_val node));;;
  io_for (Z.to_nat IOINTC_CHIP_IRQ) 0
    (fun i _ =>
       lift (map_cache_set_core i (boot_cpu_id node));;;
       write_map_cache i)
    tt;;;
  set_mask_cache 4294967295;;;
  io_for (Z.to_nat IOINTC_NUM_PARENT) 0
    (fun i _ =>
       if of_irq_get_byname node i <? 0 then io_ret tt
       else called (set_chained_handler i))
    tt;;;
  io_ret 0.

(** The controller before [iointc_of_init]: a zeroed [priv], nothing printed
    and nothing called; [r] is what its registers hold. *)
Definition cold (r : Z -> Z) : chip :=
  {| mach := boot; regs := r; gc_mask_cache := 0; calls := [] |}.

(** The controller with [priv] and the messages of [m], with the registers
    [r], and after the calls [cs]. *)
Definition with_mach (m : machine) (s : chip) : chip :=
  {| mach := m; regs := regs s; gc_mask_cache := gc_mask_cache s;
     calls := calls s |}.

Definition with_regs (r : Z -> Z) (s : chip) : chip :=
  {| mach := mach s; regs := r; gc_mask_cache := gc_mask_cache s;
     calls := calls s |}.

Definition with_calls (cs : list call) (s : chip) : chip :=
  {| mach := mach s; regs := regs s; gc_mask_cache := gc_mask_cache s;
     calls := calls s ++ cs |}.

(** The effect [step] of a loop body on the controller, for each bit of a
    list in turn. *)
Definition io_steps (step : Z -> chip -> chip) (bs : list Z) (s : chip)
  : chip :=
  fold_left (fun s b => step b s) bs s.

(** The trigger types that [iointc_set_type] knows, which of them are edge
    triggered and which are active high or rising. *)
Definition trigger_types : list Z :=
  [IRQ_TYPE_LEVEL_HIGH; IRQ_TYPE_LEVEL_LOW;
   IRQ_TYPE_EDGE_RISING; IRQ_TYPE_EDGE_FALLING].

Definition edge_triggered (type : Z) : bool :=
  (type =? IRQ_TYPE_EDGE_RISING) || (type =? IRQ_TYPE_EDGE_FALLING).

Definition active_high (type : Z) : bool :=
  (type =? IRQ_TYPE_LEVEL_HIGH) || (type =? IRQ_TYPE_EDGE_RISING).

(** The word that [iointc_set_bit] writes where it read [v]. *)
Definition set_bits (mask : Z) (set : bool) (v : Z) : Z :=
  u32 (if set then Z.lor (u32 v) mask
       else Z.land (u32 v) (u32 (Z.lnot mask))).

(** The controller after [iointc_set_type] with one of the trigger types
    it knows. *)
Definition typed (mask type : Z) (s : chip) : chip :=
  let e := set_bits mask (edge_triggered type)
             (regs s IOINTC_REG_INTC_EDGE) in
  let p := set_bits mask (active_high type) (regs s IOINTC_REG_INTC_POL) in
  {| mach := mach s;
     regs := stored IOINTC_REG_INTC_POL p
               (stored IOINTC_REG_INTC_EDGE e (regs s));
     gc_mask_cache := gc_mask_cache s;
     calls := calls s ++
              [gc_lock; bus_writel e IOINTC_REG_INTC_EDGE;
               bus_writel p IOINTC_REG_INTC_POL; gc_unlock;
               set_trigger_type mask type] |}.

(** The byte that [map_cache_set_core] leaves in place of [c]. *)
Definition with_core (core c : Z) : Z :=
  u8 (Z.lor (u8 (Z.land c (ulong (Z.lnot (GENMASK 3 0))))) (BIT core)).

Local Close Scope io_scope.

(** ** Bits of machine words *)

Section BitFacts.

Lemma u32_range z : 0 <= u32 z < 2 ^ 32.
Proof. unfold u32. apply Z.mod_pos_bound. lia. Qed.

Lemma u32_small z : 0 <= z < 2 ^ 32 -> u32 z = z.
Proof. intros H. unfold u32. apply Z.mod_small. exact H. Qed.

Lemma testbit_u32 z n : Z.testbit (u32 z) n = (n <? 32) && Z.testbit z n.
Proof. unfold u32. apply Z.testbit_mod_pow2. lia. Qed.

Lemma testbit_u8 z n : Z.testbit (u8 z) n = (n <? 8) && Z.testbit z n.
Proof. unfold u8. apply Z.testbit_mod_pow2. lia. Qed.

Lemma testbit_ulong z n : Z.testbit (ulong z) n = (n <? 64) && Z.testbit z n.
Proof. unfold ulong. apply Z.testbit_mod_pow2. lia. Qed.

Lemma testbit_BIT b n :
  0 <= b -> Z.testbit (BIT b) n = (n <? 64) && (n =? b).
Proof.
  intros Hb. unfold BIT. rewrite testbit_ulong, Z.shiftl_1_l.
  rewrite Z.pow2_bits_eqb by lia. now rewrite (Z.eqb_sym b n).
Qed.

Lemma testbit_high z n : 0 <= z < 2 ^ 32 -> 32 <= n -> Z.testbit z n = false.
Proof.
  intros Hz Hn. rewrite <- (u32_small z Hz), testbit_u32.
  destruct (Z.ltb_spec n 32); [lia | reflexivity].
Qed.

Lemma ctz_nonneg p : 0 <= ctz p.
Proof. induction p; simpl; lia. Qed.

Lemma ctz_lt p n : 0 <= n -> Zpos p < 2 ^ n -> ctz p < n.
Proof.
  revert n. induction p as [q IH | q IH | ]; intros n Hn Hlt; simpl.
  - destruct (Z.eq_dec n 0) as [-> | ]; [simpl in Hlt |]; lia.
  - destruct (Z.eq_dec n 0) as [-> | Hn0]; [simpl in Hlt; lia |].
    assert (Hq : Zpos q < 2 ^ (n - 1)).
    { replace n with (Z.succ (n - 1)) in Hlt by lia.
      rewrite Z.pow_succ_r in Hlt by lia. lia. }
    specialize (IH (n - 1) ltac:(lia) Hq). lia.
  - destruct (Z.eq_dec n 0) as [-> | ]; [simpl in Hlt |]; lia.
Qed.

Lemma drop_lowest_nonneg p : 0 <= drop_lowest p.
Proof. induction p; simpl; lia. Qed.

Lemma drop_lowest_le p : drop_lowest p < Zpos p.
Proof. induction p; simpl; lia. Qed.

Lemma testbit_drop_lowest p n :
  Z.testbit (drop_lowest p) n = Z.testbit (Zpos p) n && negb (n =? ctz p).
Proof.
  revert n. induction p as [q IH | q IH | ]; intros n.
  - cbn [drop_lowest ctz].
    destruct (Z.eqb_spec n 0) as [-> | Hn]; [reflexivity |].
    destruct (Z.ltb_spec n 0) as [Hneg | Hpos].
    + now rewrite !Z.testbit_neg_r by lia.
    + replace n with (Z.succ (n - 1)) by lia.
      change (Zpos q~1) with (2 * Zpos q + 1).
      change (Zpos q~0) with (2 * Zpos q).
      rewrite Z.testbit_even_succ, Z.testbit_odd_succ by lia.
      now rewrite andb_true_r.
  - cbn [drop_lowest ctz].
    destruct (Z.ltb_spec n 0) as [Hneg | Hpos].
    + now rewrite !Z.testbit_neg_r by lia.
    + destruct (Z.eqb_spec n 0) as [-> | Hn].
      * change (Zpos q~0) with (2 * Zpos q). now rewrite !Z.testbit_even_0.
      * replace n with (Z.succ (n - 1)) by lia.
        change (Zpos q~0) with (2 * Zpos q).
        rewrite !Z.testbit_even_succ by lia. rewrite IH.
        f_equal. f_equal.
        destruct (Z.eqb_spec (n - 1) (ctz q)),
          (Z.eqb_spec (Z.succ (n - 1)) (1 + ctz q)); lia || reflexivity.
  - cbn [drop_lowest ctz]. rewrite Z.testbit_0_l.
    destruct (Z.eqb_spec n 0) as [-> | Hn]; [reflexivity |].
    destruct (Z.ltb_spec n 0) as [Hneg | Hpos].
    + now rewrite !Z.testbit_neg_r by lia.
    + change 1 with (2 ^ 0). rewrite Z.pow2_bits_eqb by lia.
      destruct (Z.eqb_spec 0 n); [lia | reflexivity].
Qed.

Lemma testbit_ctz p : Z.testbit (Zpos p) (ctz p) = true.
Proof.
  induction p as [q IH | q IH | ]; cbn [ctz]; try reflexivity.
  replace (1 + ctz q) with (Z.succ (ctz q)) by lia.
  change (Zpos q~0) with (2 * Zpos q).
  rewrite Z.testbit_even_succ by apply ctz_nonneg. exact IH.
Qed.

Lemma testbit_below_ctz p n : n < ctz p -> Z.testbit (Zpos p) n = false.
Proof.
  revert n. induction p as [q IH | q IH | ]; cbn [ctz]; intros n Hn.
  - now rewrite Z.testbit_neg_r by lia.
  - destruct (Z.ltb_spec n 0) as [Hneg | Hpos].
    + now rewrite Z.testbit_neg_r by lia.
    + change (Zpos q~0) with (2 * Zpos q).
      destruct (Z.eq_dec n 0) as [-> | Hn0]; [apply Z.testbit_even_0 |].
      replace n with (Z.succ (n - 1)) by lia.
      rewrite Z.testbit_even_succ by lia. apply IH. lia.
  - now rewrite Z.testbit_neg_r by lia.
Qed.

End BitFacts.

(** ** The set bits of a word as a list *)

Section BitLists.

Lemma bits_from_drop p k :
  bits_from p k = (k + ctz p) :: bits_at (drop_lowest p) k.
Proof.
  revert k. induction p as [q IH | q IH | ]; intros k; cbn [bits_from ctz drop_lowest].
  - now rewrite Z.add_0_r.
  - rewrite IH. f_equal; [lia |].
    destruct (drop_lowest q); reflexivity.
  - now rewrite Z.add_0_r.
Qed.

Lemma bits_step p : bits (Zpos p) = ctz p :: bits (drop_lowest p).
Proof. unfold bits. cbn [bits_at]. now rewrite bits_from_drop. Qed.

Lemma elem_of_bits_from p k n :
  n ∈ bits_from p k <-> k <= n /\ Z.testbit (Zpos p) (n - k) = true.
Proof.
  revert k. induction p as [q IH | q IH | ]; intros k; cbn [bits_from].
  - rewrite elem_of_cons, IH. split.
    + intros [-> | [Hk Hb]].
      * split; [lia |]. now rewrite Z.sub_diag.
      * split; [lia |]. replace (n - k) with (Z.succ (n - (k + 1))) by lia.
        change (Zpos q~1) with (2 * Zpos q + 1).
        now rewrite Z.testbit_odd_succ by lia.
    + intros [Hk Hb]. destruct (Z.eq_dec n k) as [-> | Hne]; [now left | right].
      split; [lia |]. replace (n - k) with (Z.succ (n - (k + 1))) in Hb by lia.
      change (Zpos q~1) with (2 * Zpos q + 1) in Hb.
      now rewrite Z.testbit_odd_succ in Hb by lia.
  - rewrite IH. change (Zpos q~0) with (2 * Zpos q). split.
    + intros [Hk Hb]. split; [lia |].
      replace (n - k) with (Z.succ (n - (k + 1))) by lia.
      now rewrite Z.testbit_even_succ by lia.
    + intros [Hk Hb]. destruct (Z.eq_dec n k) as [-> | Hne].
      * now rewrite Z.sub_diag, Z.testbit_even_0 in Hb.
      * split; [lia |].
        replace (n - k) with (Z.succ (n - (k + 1))) in Hb by lia.
        now rewrite Z.testbit_even_succ in Hb by lia.
  - rewrite list_elem_of_singleton. split.
    + intros ->. split; [lia |]. now rewrite Z.sub_diag.
    + intros [Hk Hb]. destruct (Z.eq_dec n k) as [-> | Hne]; [reflexivity |].
      change 1 with (2 ^ 0) in Hb. rewrite Z.pow2_bits_eqb in Hb by lia.
      apply Z.eqb_eq in Hb. lia.
Qed.

Lemma elem_of_bits w n :
  0 <= w -> n ∈ bits w <-> 0 <= n /\ Z.testbit w n = true.
Proof.
  intros Hw. unfold bits. destruct w as [ | p | p]; cbn [bits_at]; [| | lia].
  - rewrite elem_of_nil, Z.testbit_0_l. intuition discriminate.
  - rewrite elem_of_bits_from. now rewrite Z.sub_0_r.
Qed.

Lemma NoDup_bits_from p k : NoDup (bits_from p k).
Proof.
  revert k. induction p as [q IH | q IH | ]; intros k; cbn [bits_from].
  - apply NoDup_cons. split; [| apply IH].
    rewrite elem_of_bits_from. lia.
  - apply IH.
  - apply NoDup_singleton.
Qed.

Lemma NoDup_bits w : NoDup (bits w).
Proof.
  unfold bits. destruct w; cbn [bits_at];
    [apply NoDup_nil_2 | apply NoDup_bits_from | apply NoDup_nil_2].
Qed.

Lemma length_bits_from p k (n : nat) :
  Zpos p < 2 ^ Z.of_nat n -> (length (bits_from p k) <= n)%nat.
Proof.
  revert k n. induction p as [q IH | q IH | ]; intros k n Hlt;
    (destruct n as [ | n]; [simpl in Hlt; lia |]);
    cbn [bits_from length].
  - apply le_n_S, IH.
    rewrite Nat2Z.inj_succ, Z.pow_succ_r in Hlt by lia. lia.
  - apply Nat.le_le_succ_r, IH.
    rewrite Nat2Z.inj_succ, Z.pow_succ_r in Hlt by lia. lia.
  - lia.
Qed.

Lemma length_bits w : 0 <= w < 2 ^ 32 -> (length (bits w) <= 32)%nat.
Proof.
  intros Hw. unfold bits. destruct w as [ | p | p]; cbn [bits_at length]; try lia.
  apply length_bits_from. change (Z.of_nat 32) with 32. lia.
Qed.

End BitLists.

(** ** Running the primitives *)

Section Primitives.

Lemma bind_Done {A B} (c : M A) (k : A -> M B) m a m' :
  c m = Done (a, m') -> bind c k m = k a m'.
Proof. intros H. unfold bind. now rewrite H. Qed.

Lemma array_get_ok (a : list Z) i m :
  0 <= i < Z.of_nat (length a) ->
  array_get a i m = Done (nth (Z.to_nat i) a 0, m).
Proof.
  intros Hi. unfold array_get.
  destruct (Z.ltb_spec i 0) as [Hneg | _]; [lia |].
  destruct (a !! Z.to_nat i) as [v | ] eqn:E.
  - now rewrite (nth_lookup_Some _ _ 0 _ E).
  - apply lookup_ge_None in E. lia.
Qed.

Lemma array_set_ok (a : list Z) i v m :
  0 <= i < Z.of_nat (length a) ->
  array_set a i v m = Done (<[Z.to_nat i := v]> a, m).
Proof.
  intros Hi. unfold array_set.
  destruct (Z.leb_spec 0 i); [| lia].
  destruct (Z.ltb_spec i (Z.of_nat (length a))); [| lia].
  reflexivity.
Qed.

Lemma get_parent_int_map_ok i m :
  0 <= i < Z.of_nat (length (handler (priv m))) ->
  get_parent_int_map i m = Done (nth (Z.to_nat i) (handler (priv m)) 0, m).
Proof.
  intros Hi. unfold get_parent_int_map, get_priv, bind.
  now rewrite array_get_ok.
Qed.

Lemma set_parent_int_map_ok i v m :
  0 <= i < Z.of_nat (length (handler (priv m))) ->
  set_parent_int_map i v m =
  Done (tt, with_handler (<[Z.to_nat i := u32 v]> (handler (priv m))) m).
Proof.
  intros Hi. unfold set_parent_int_map, get_priv, bind.
  now rewrite array_set_ok.
Qed.

Lemma set_map_cache_ok i v m :
  0 <= i < Z.of_nat (length (map_cache (priv m))) ->
  set_map_cache i v m =
  Done (tt, with_map_cache (<[Z.to_nat i := u8 v]> (map_cache (priv m))) m).
Proof.
  intros Hi. unfold set_map_cache, get_priv, bind.
  now rewrite array_set_ok.
Qed.

Lemma ffs_pos p m : __ffs (Zpos p) m = Done (ctz p, m).
Proof. reflexivity. Qed.

End Primitives.

(** ** Loops that scan a word with [__ffs]

    The three [while] loops of [validate_parent_mask] have one shape: the
    condition tests a word, the body takes the lowest set bit of that word,
    acts on the state, and clears that bit. Such a loop runs its body once
    for each set bit, lowest first. *)

Section ScanLoop.

Context {L : Type}.
Variable word : L -> Z.
Variable cond : L -> bool.
Variable body : L -> M L.
Variable step : Z -> machine -> machine.
Variable Inv : machine -> Prop.

Hypothesis cond_word : forall x, cond x = negb (word x =? 0).
Hypothesis body_step :
  forall x m p, word x = Zpos p -> Zpos p < 2 ^ 32 -> Inv m ->
    exists x', body x m = Done (x', step (ctz p) m)
               /\ word x' = drop_lowest p /\ Inv (step (ctz p) m).

Lemma while_scan fuel : forall x m,
  0 <= word x < 2 ^ 32 -> Inv m ->
  (length (bits (word x)) < fuel)%nat ->
  exists x', while fuel cond body x m = Done (x', steps step (bits (word x)) m)
             /\ word x' = 0 /\ Inv (steps step (bits (word x)) m).
Proof.
  induction fuel as [ | fuel IH]; intros x m Hw HI Hfuel; [lia |].
  cbn [while]. rewrite cond_word.
  destruct (word x) as [ | p | p] eqn:Ew; [| | lia].
  - exists x. cbn. now rewrite Ew.
  - cbn [Z.eqb negb].
    destruct (body_step x m p Ew ltac:(lia) HI) as (x' & Hb & Hx' & HI').
    rewrite (bind_Done _ _ _ _ _ Hb).
    rewrite bits_step in Hfuel |- *. cbn [length] in Hfuel.
    pose proof (drop_lowest_nonneg p). pose proof (drop_lowest_le p).
    destruct (IH x' (step (ctz p) m)) as (x'' & Hw'' & Hz & HI'');
      rewrite ?Hx'; try lia; try assumption.
    exists x''. rewrite Hx' in Hw'', HI''. cbn. auto.
Qed.

Lemma while_starved fuel : forall x m,
  0 <= word x < 2 ^ 32 -> Inv m ->
  (fuel <= length (bits (word x)))%nat ->
  while fuel cond body x m = OutOfFuel.
Proof.
  induction fuel as [ | fuel IH]; intros x m Hw HI Hfuel; [reflexivity |].
  cbn [while]. rewrite cond_word.
  destruct (word x) as [ | p | p] eqn:Ew; [cbn in Hfuel; lia | | lia].
  cbn [Z.eqb negb].
  destruct (body_step x m p Ew ltac:(lia) HI) as (x' & Hb & Hx' & HI').
  rewrite (bind_Done _ _ _ _ _ Hb).
  rewrite bits_step in Hfuel. cbn [length] in Hfuel.
  pose proof (drop_lowest_nonneg p). pose proof (drop_lowest_le p).
  apply IH; rewrite ?Hx'; try lia; assumption.
Qed.

End ScanLoop.

(** ** Equalities of words, bit by bit *)

Ltac bits_rewrite :=
  repeat first
    [ rewrite testbit_u32 | rewrite testbit_u8 | rewrite testbit_ulong
    | rewrite Z.lor_spec | rewrite Z.land_spec | rewrite Z.ldiff_spec
    | rewrite Z.lnot_spec by lia | rewrite testbit_BIT by lia
    | rewrite testbit_drop_lowest | rewrite Z.testbit_0_l ].

Ltac bool_cases :=
  repeat match goal with
    | |- context [Z.ltb ?a ?b] => destruct (Z.ltb_spec a b)
    | |- context [Z.eqb ?a ?b] => destruct (Z.eqb_spec a b)
    end;
  try lia;
  repeat match goal with
    | |- context [Z.testbit ?a ?b] => destruct (Z.testbit a b)
    end;
  cbn; try reflexivity; try lia; try discriminate.

Ltac bitblast :=
  apply Z.bits_inj'; intros ?n ?Hn; bits_rewrite; bool_cases.

Section MaskOf.

Lemma testbit_mask_of bs n :
  Forall (fun b => 0 <= b) bs ->
  Z.testbit (mask_of bs) n = true <-> n < 64 /\ n ∈ bs.
Proof.
  induction 1 as [ | b bs Hb Hbs IH]; cbn [mask_of fold_right].
  - rewrite Z.testbit_0_l, elem_of_nil. intuition discriminate.
  - fold (mask_of bs). rewrite Z.lor_spec, orb_true_iff, IH, elem_of_cons.
    rewrite testbit_BIT by lia.
    destruct (Z.ltb_spec n 64), (Z.eqb_spec n b); cbn; intuition (discriminate || lia).
Qed.

Lemma mask_of_bits w : 0 <= w < 2 ^ 32 -> mask_of (bits w) = w.
Proof.
  intros Hw. apply Z.bits_inj'. intros n Hn. apply eq_iff_eq_true.
  rewrite testbit_mask_of; [rewrite elem_of_bits by lia |].
  - split; [tauto |]. intros Hb. split; [| tauto].
    destruct (Z.ltb_spec n 32); [lia |].
    rewrite testbit_high in Hb by lia. discriminate.
  - apply Forall_forall. intros b Hin. apply elem_of_bits in Hin; [| lia].
    tauto.
Qed.

Lemma bits_in_range w :
  0 <= w < 2 ^ 32 -> Forall (fun b => 0 <= b < 32) (bits w).
Proof.
  intros Hw. apply Forall_forall. intros b Hin.
  apply elem_of_bits in Hin; [| lia]. destruct Hin as [Hb Ht].
  split; [assumption |]. destruct (Z.ltb_spec b 32); [assumption |].
  rewrite testbit_high in Ht by lia. discriminate.
Qed.

End MaskOf.

Arguments u8 : simpl never.
Arguments u32 : simpl never.
Arguments ulong : simpl never.
Arguments BIT : simpl never.
Arguments INTx : simpl never.

(** ** The loops of [validate_parent_mask], one by one *)

Ltac channel_cases c :=
  let H := fresh in
  assert (H : c = 0 \/ c = 1 \/ c = 2 \/ c = 3) by lia;
  destruct H as [-> | [-> | [-> | ->]]];
  [ change (Z.to_nat 0) with 0%nat in *
  | change (Z.to_nat 1) with 1%nat in *
  | change (Z.to_nat 2) with 2%nat in *
  | change (Z.to_nat 3) with 3%nat in * ].

Section Loops.

Variable fb : Z.
Hypothesis fb_range : 0 <= fb < 4.

Lemma homeless_body proceed_mask m p :
  u32 (Z.lnot proceed_mask) = Zpos p -> Zpos p < 2 ^ 32 ->
  four_words (handler (priv m)) ->
  exists x',
    fallback_homeless fb proceed_mask m
    = Done (x', homeless_step fb (ctz p) m)
    /\ u32 (Z.lnot x') = drop_lowest p
    /\ four_words (handler (priv (homeless_step fb (ctz p) m))).
Proof.
  intros Ew Hlt (z0 & z1 & z2 & z3 & Hh).
  pose proof (ctz_nonneg p) as Hc.
  exists (u32 (Z.lor proceed_mask (BIT (ctz p)))). split; [| split].
  - unfold fallback_homeless.
    rewrite Ew. unfold bind at 1. rewrite ffs_pos.
    unfold bind at 1. unfold pr at 1.
    unfold bind at 1. rewrite get_parent_int_map_ok by (cbn; rewrite Hh; cbn; lia).
    unfold bind at 1. rewrite set_parent_int_map_ok by (cbn; rewrite Hh; cbn; lia).
    reflexivity.
  - apply Z.bits_inj'. intros n Hn. rewrite testbit_drop_lowest, <- Ew.
    bits_rewrite. bool_cases.
  - unfold homeless_step. cbn. rewrite Hh.
    channel_cases fb; cbn; unfold four_words; eauto 10.
Qed.

Lemma homeless_loop fuel proceed_mask m :
  four_words (handler (priv m)) -> (32 < fuel)%nat ->
  exists x',
    while fuel (fun proceed_mask => negb (u32 (Z.lnot proceed_mask) =? 0))
      (fallback_homeless fb) proceed_mask m
    = Done (x', steps (homeless_step fb) (bits (u32 (Z.lnot proceed_mask))) m).
Proof.
  intros Hh Hfuel.
  pose proof (u32_range (Z.lnot proceed_mask)) as Hr.
  pose proof (length_bits _ Hr) as Hlen.
  destruct (while_scan (fun x => u32 (Z.lnot x)) _ _ (homeless_step fb)
              (fun m => four_words (handler (priv m)))
              (fun x => eq_refl) (homeless_body) fuel proceed_mask m Hr Hh
              ltac:(lia)) as (x' & Hrun & _).
  exists x'. exact Hrun.
Qed.

Lemma clear_in_all bit m :
  four_words (handler (priv m)) ->
  for_ (Z.to_nat IOINTC_NUM_PARENT) 0
    (fun i _ =>
       m <- get_parent_int_map i;;
       set_parent_int_map i (Z.land m (ulong (Z.lnot (BIT bit)))))
    tt m
  = Done (tt, with_handler
                ((fun h => u32 (Z.land h (ulong (Z.lnot (BIT bit)))))
                   <$> handler (priv m)) m).
Proof.
  intros (z0 & z1 & z2 & z3 & Hh).
  destruct m as [[mc hs mask bug] log]. cbn in Hh. subst hs. reflexivity.
Qed.

Lemma dup_body duplicated_mask m p :
  duplicated_mask = Zpos p -> Zpos p < 2 ^ 32 ->
  four_words (handler (priv m)) ->
  exists x',
    fallback_duplicated fb duplicated_mask m
    = Done (x', dup_step fb (ctz p) m)
    /\ x' = drop_lowest p
    /\ four_words (handler (priv (dup_step fb (ctz p) m))).
Proof.
  intros Ew Hlt (z0 & z1 & z2 & z3 & Hh).
  pose proof (ctz_nonneg p) as Hc.
  exists (u32 (Z.land duplicated_mask (ulong (Z.lnot (BIT (ctz p)))))).
  split; [| split].
  - unfold fallback_duplicated.
    rewrite Ew. unfold bind at 1. rewrite ffs_pos.
    unfold bind at 1. unfold pr at 1.
    unfold bind at 1.
    rewrite clear_in_all by (cbn; rewrite Hh; unfold four_words; eauto 10).
    unfold bind at 1. rewrite get_parent_int_map_ok by (cbn; rewrite Hh; cbn; lia).
    unfold bind at 1. rewrite set_parent_int_map_ok by (cbn; rewrite Hh; cbn; lia).
    reflexivity.
  - subst duplicated_mask. apply Z.bits_inj'. intros n Hn.
    bits_rewrite. destruct (Z.ltb_spec n 32) as [Hn32 | Hn32].
    + bool_cases.
    + rewrite (testbit_high (Zpos p)) by lia. reflexivity.
  - unfold dup_step. cbn. rewrite Hh.
    channel_cases fb; cbn; unfold four_words; eauto 10.
Qed.

Lemma dup_loop fuel duplicated_mask m :
  0 <= duplicated_mask < 2 ^ 32 ->
  four_words (handler (priv m)) -> (32 < fuel)%nat ->
  exists x',
    while fuel (fun duplicated_mask => negb (duplicated_mask =? 0))
      (fallback_duplicated fb) duplicated_mask m
    = Done (x', steps (dup_step fb) (bits duplicated_mask) m).
Proof.
  intros Hr Hh Hfuel.
  pose proof (length_bits _ Hr) as Hlen.
  destruct (while_scan (fun x => x) _ _ (dup_step fb)
              (fun m => four_words (handler (priv m)))
              (fun x => eq_refl) dup_body fuel duplicated_mask m Hr Hh
              ltac:(lia)) as (x' & Hrun & _).
  exists x'. exact Hrun.
Qed.

End Loops.

Section CacheLoop.

Variable i : Z.

Lemma cache_body pending m p :
  pending = Zpos p -> Zpos p < 2 ^ 32 ->
  length (map_cache (priv m)) = 32%nat ->
  exists x',
    generate_map_cache i pending m
    = Done (x', cache_step i (ctz p) m)
    /\ x' = drop_lowest p
    /\ length (map_cache (priv (cache_step i (ctz p) m))) = 32%nat.
Proof.
  intros Ew Hlt Hlen.
  pose proof (ctz_nonneg p) as Hc.
  pose proof (ctz_lt p 32 ltac:(lia) Hlt) as Hc32.
  exists (u32 (Z.land pending (ulong (Z.lnot (BIT (ctz p)))))).
  split; [| split].
  - unfold generate_map_cache.
    rewrite Ew. unfold bind at 1. rewrite ffs_pos.
    unfold bind at 1. rewrite set_map_cache_ok by (rewrite Hlen; lia).
    reflexivity.
  - subst pending. apply Z.bits_inj'. intros n Hn.
    bits_rewrite. destruct (Z.ltb_spec n 32) as [Hn32 | Hn32].
    + bool_cases.
    + rewrite (testbit_high (Zpos p)) by lia. reflexivity.
  - unfold cache_step. cbn. now rewrite length_insert.
Qed.

Lemma cache_loop fuel pending m :
  0 <= pending < 2 ^ 32 ->
  length (map_cache (priv m)) = 32%nat -> (32 < fuel)%nat ->
  exists x',
    while fuel (fun pending => negb (pending =? 0))
      (generate_map_cache i) pending m
    = Done (x', steps (cache_step i) (bits pending) m).
Proof.
  intros Hr Hh Hfuel.
  pose proof (length_bits _ Hr) as Hlen.
  destruct (while_scan (fun x => x) _ _ (cache_step i)
              (fun m => length (map_cache (priv m)) = 32%nat)
              (fun x => eq_refl) cache_body fuel pending m Hr Hh
              ltac:(lia)) as (x' & Hrun & _).
  exists x'. exact Hrun.
Qed.

End CacheLoop.

(** ** What the loops leave behind *)

Section LoopResults.

Lemma four_eq (a0 a1 a2 a3 b0 b1 b2 b3 : Z) :
  a0 = b0 -> a1 = b1 -> a2 = b2 -> a3 = b3 ->
  [a0; a1; a2; a3] = [b0; b1; b2; b3].
Proof. congruence. Qed.

Variable fb : Z.
Hypothesis fb_range : 0 <= fb < 4.

Lemma homeless_steps bs :
  Forall (fun b => 0 <= b < 32) bs ->
  forall m, four_words (handler (priv m)) ->
  steps (homeless_step fb) bs m =
  with_handler
    (<[Z.to_nat fb :=
         Z.lor (nth (Z.to_nat fb) (handler (priv m)) 0) (mask_of bs)]>
       (handler (priv m)))
    (logged ((fun b => warn_homeless b fb) <$> bs) m).
Proof.
  induction 1 as [ | b bs Hb Hbs IH]; intros m Hh.
  - destruct Hh as (z0 & z1 & z2 & z3 & Hh).
    destruct m as [[mc hs mask bug] log]. cbn in Hh. subst hs.
    unfold with_handler, logged. cbn. rewrite app_nil_r.
    channel_cases fb; cbn; rewrite Z.lor_0_r; reflexivity.
  - change (steps (homeless_step fb) (b :: bs) m)
      with (steps (homeless_step fb) bs (homeless_step fb b m)).
    destruct Hh as (z0 & z1 & z2 & z3 & Hh).
    destruct m as [[mc hs mask bug] log]. cbn in Hh. subst hs.
    rewrite IH.
    + unfold with_handler, logged, homeless_step. cbn.
      rewrite <- app_assoc. cbn.
      fold (mask_of bs).
      channel_cases fb; cbn; fold (mask_of bs); do 2 f_equal;
        apply four_eq; try reflexivity; bitblast.
    + unfold homeless_step. cbn.
      channel_cases fb; cbn; unfold four_words; eauto 10.
Qed.

Lemma dup_steps bs :
  Forall (fun b => 0 <= b < 32) bs ->
  forall m, four_words (handler (priv m)) ->
  steps (dup_step fb) bs m =
  with_handler
    (<[Z.to_nat fb :=
         Z.lor (Z.ldiff (nth (Z.to_nat fb) (handler (priv m)) 0) (mask_of bs))
               (mask_of bs)]>
       ((fun h => Z.ldiff h (mask_of bs)) <$> handler (priv m)))
    (logged ((fun b => warn_multiple b fb) <$> bs) m).
Proof.
  induction 1 as [ | b bs Hb Hbs IH]; intros m Hh.
  - destruct Hh as (z0 & z1 & z2 & z3 & Hh).
    destruct m as [[mc hs mask bug] log]. cbn in Hh. subst hs.
    unfold with_handler, logged. cbn. rewrite app_nil_r.
    rewrite !Z.ldiff_0_r.
    channel_cases fb; cbn; rewrite Z.lor_0_r; reflexivity.
  - change (steps (dup_step fb) (b :: bs) m)
      with (steps (dup_step fb) bs (dup_step fb b m)).
    destruct Hh as (z0 & z1 & z2 & z3 & Hh).
    destruct m as [[mc hs mask bug] log]. cbn in Hh. subst hs.
    rewrite IH.
    + unfold with_handler, logged, dup_step. cbn.
      rewrite <- app_assoc. cbn.
      fold (mask_of bs).
      channel_cases fb; cbn; fold (mask_of bs); do 2 f_equal;
        apply four_eq; try reflexivity; bitblast.
    + unfold dup_step. cbn.
      channel_cases fb; cbn; unfold four_words; eauto 10.
Qed.

End LoopResults.

Section CacheResults.

Variable i : Z.

Lemma cache_steps bs m :
  steps (cache_step i) bs m =
  with_map_cache (cache_fill i bs (map_cache (priv m))) m.
Proof.
  revert m. induction bs as [ | b bs IH]; intros m.
  - destruct m as [[mc hs mask bug] log]. reflexivity.
  - change (steps (cache_step i) (b :: bs) m)
      with (steps (cache_step i) bs (cache_step i b m)).
    rewrite IH. reflexivity.
Qed.

Lemma length_cache_fill bs mc : length (cache_fill i bs mc) = length mc.
Proof.
  revert mc. induction bs as [ | b bs IH]; intros mc; [reflexivity |].
  change (cache_fill i (b :: bs) mc)
    with (cache_fill i bs (<[Z.to_nat b := INTx i]> mc)).
  now rewrite IH, length_insert.
Qed.

Lemma lookup_cache_fill bs :
  Forall (fun b => 0 <= b) bs ->
  forall (mc : list Z) (l : nat), (l < length mc)%nat ->
  cache_fill i bs mc !! l =
  if decide (Z.of_nat l ∈ bs) then Some (INTx i) else mc !! l.
Proof.
  induction 1 as [ | b bs Hb Hbs IH]; intros mc l Hl.
  - cbn. case_decide as Hin; [| reflexivity]. now apply elem_of_nil in Hin.
  - change (cache_fill i (b :: bs) mc)
      with (cache_fill i bs (<[Z.to_nat b := INTx i]> mc)).
    rewrite IH by now rewrite length_insert.
    destruct (decide (Z.of_nat l ∈ bs)) as [Hin | Hin].
    + rewrite decide_True; [reflexivity | rewrite elem_of_cons; now right].
    + destruct (decide (Z.to_nat b = l)) as [<- | Hne].
      * rewrite list_lookup_insert_eq by assumption.
        rewrite decide_True; [reflexivity |].
        rewrite Z2Nat.id by lia. rewrite elem_of_cons. now left.
      * rewrite list_lookup_insert_ne by assumption.
        rewrite decide_False; [reflexivity |].
        rewrite elem_of_cons. intros [Heq | ?]; [| contradiction].
        apply Hne. subst b. apply Nat2Z.id.
Qed.

Lemma cache_fill_bits h (mc : list Z) line :
  0 <= h < 2 ^ 32 -> 0 <= line < Z.of_nat (length mc) ->
  nth (Z.to_nat line) (cache_fill i (bits h) mc) 0 =
  if Z.testbit h line then INTx i else nth (Z.to_nat line) mc 0.
Proof.
  intros Hh Hline. rewrite !nth_lookup.
  rewrite lookup_cache_fill; [| | lia].
  - rewrite Z2Nat.id by lia.
    destruct (Z.testbit h line) eqn:Eb.
    + rewrite decide_True; [reflexivity |]. apply elem_of_bits; [lia |].
      split; [lia | assumption].
    + rewrite decide_False; [reflexivity |]. intros Hin.
      apply elem_of_bits in Hin; [| lia]. destruct Hin as [_ Hin]. congruence.
  - eapply Forall_impl; [apply bits_in_range; exact Hh |]. cbn. lia.
Qed.

End CacheResults.

(** ** The loop over the parents *)

Section TakeHints.

Lemma land_BIT mask i :
  0 <= i < 64 -> (Z.land mask (BIT i) =? 0) = negb (available mask i).
Proof.
  intros Hi. unfold available. destruct (Z.testbit mask i) eqn:Eb; cbn.
  - apply Z.eqb_neq. intros Hz.
    assert (Ht : Z.testbit (Z.land mask (BIT i)) i = true).
    { rewrite Z.land_spec, Eb, testbit_BIT by lia.
      destruct (Z.ltb_spec i 64), (Z.eqb_spec i i); cbn; lia || reflexivity. }
    rewrite Hz, Z.testbit_0_l in Ht. discriminate.
  - apply Z.eqb_eq. apply Z.bits_inj'. intros n Hn.
    rewrite Z.land_spec, testbit_BIT, Z.testbit_0_l by lia.
    destruct (Z.eqb_spec n i) as [-> | ].
    + rewrite Eb. reflexivity.
    + now rewrite andb_false_r, andb_false_r.
Qed.

Lemma take_hint_ok mask hints i proceed_mask duplicated_mask m :
  0 <= i < 4 -> length hints = 4%nat ->
  length (handler (priv m)) = 4%nat ->
  take_hint mask hints i (proceed_mask, duplicated_mask) m =
  if available mask i
  then
    let v := u32 (nth (Z.to_nat i) hints 0) in
    Done ((u32 (Z.lor proceed_mask v),
           u32 (Z.lor duplicated_mask (Z.land v proceed_mask))),
          with_handler (<[Z.to_nat i := v]> (handler (priv m))) m)
  else Done ((proceed_mask, duplicated_mask), m).
Proof.
  intros Hi Hlen Hh. unfold take_hint. rewrite land_BIT by lia.
  destruct (available mask i); cbn [negb]; [| reflexivity].
  unfold bind at 1. rewrite array_get_ok by lia.
  unfold bind at 1. rewrite set_parent_int_map_ok by lia.
  unfold bind at 1.
  rewrite get_parent_int_map_ok by (cbn; rewrite length_insert; lia).
  unfold bind at 1.
  rewrite get_parent_int_map_ok by (cbn; rewrite length_insert; lia).
  cbn [with_handler handler priv].
  rewrite nth_lookup, list_lookup_insert_eq by lia. reflexivity.
Qed.

Lemma take_hints mask hints m :
  length hints = 4%nat ->
  handler (priv m) = [0; 0; 0; 0] ->
  for_ (Z.to_nat IOINTC_NUM_PARENT) 0 (take_hint mask hints) (0, 0) m =
  Done ((proceed mask hints, duplicated mask hints),
        with_handler [taken mask hints 0; taken mask hints 1;
                      taken mask hints 2; taken mask hints 3] m).
Proof.
  intros Hlen Hh.
  destruct m as [[mc hs pm bug] log]. cbn in Hh. subst hs.
  unfold proceed, duplicated, taken.
  change (Z.to_nat IOINTC_NUM_PARENT) with 4%nat.
  cbn [for_]. change (0 + 1) with 1. change (1 + 1) with 2.
  change (2 + 1) with 3.
  unfold bind at 1. rewrite take_hint_ok by (cbn; rewrite ?length_insert; cbn; lia).
  destruct (available mask 0); cbn zeta;
    (unfold bind at 1; rewrite take_hint_ok by (cbn; rewrite ?length_insert; cbn; lia));
    destruct (available mask 1); cbn zeta;
    (unfold bind at 1; rewrite take_hint_ok by (cbn; rewrite ?length_insert; cbn; lia));
    destruct (available mask 2); cbn zeta;
    (unfold bind at 1; rewrite take_hint_ok by (cbn; rewrite ?length_insert; cbn; lia));
    destruct (available mask 3); cbn zeta;
    unfold bind, ret, with_handler; cbn;
    do 2 f_equal; f_equal; bitblast.
Qed.

End TakeHints.

(** ** [validate_parent_mask] in closed form *)

Section ClosedForm.

Lemma four_words_intro a0 a1 a2 a3 :
  0 <= a0 < 2 ^ 32 -> 0 <= a1 < 2 ^ 32 ->
  0 <= a2 < 2 ^ 32 -> 0 <= a3 < 2 ^ 32 ->
  four_words [a0; a1; a2; a3].
Proof.
  intros H0 H1 H2 H3. exists a0, a1, a2, a3.
  now rewrite !u32_small by assumption.
Qed.

Lemma four_words_nth hs i : four_words hs -> 0 <= nth i hs 0 < 2 ^ 32.
Proof.
  intros (z0 & z1 & z2 & z3 & ->).
  destruct i as [ | [ | [ | [ | [ | i]]]]]; cbn;
    try apply u32_range; lia.
Qed.

Lemma four_words_length hs : four_words hs -> length hs = 4%nat.
Proof. now intros (z0 & z1 & z2 & z3 & ->). Qed.

Lemma lor_range a b :
  0 <= a < 2 ^ 32 -> 0 <= b < 2 ^ 32 -> 0 <= Z.lor a b < 2 ^ 32.
Proof.
  intros Ha Hb. rewrite <- (u32_small a Ha), <- (u32_small b Hb).
  replace (Z.lor (u32 a) (u32 b)) with (u32 (Z.lor a b)) by bitblast.
  apply u32_range.
Qed.

Lemma ldiff_range a b : 0 <= a < 2 ^ 32 -> 0 <= Z.ldiff a b < 2 ^ 32.
Proof.
  intros Ha. rewrite <- (u32_small a Ha).
  replace (Z.ldiff (u32 a) b) with (u32 (Z.ldiff a b)) by bitblast.
  apply u32_range.
Qed.

Lemma taken_range mask hints c : 0 <= taken mask hints c < 2 ^ 32.
Proof. unfold taken. destruct (available mask c); [apply u32_range | lia]. Qed.

Lemma lowest_range mask : 0 < mask < 16 -> 0 <= lowest mask < 4.
Proof.
  intros Hm. destruct mask as [ | p | p]; try lia. cbn.
  split; [apply ctz_nonneg | apply ctz_lt; lia].
Qed.

Lemma taken_words mask hints :
  four_words [taken mask hints 0; taken mask hints 1;
              taken mask hints 2; taken mask hints 3].
Proof. apply four_words_intro; apply taken_range. Qed.

Lemma homed_words mask hints :
  0 < mask < 16 -> four_words (homed mask hints).
Proof.
  intros Hm. pose proof (lowest_range mask Hm) as Hfb. unfold homed.
  pose proof (taken_range mask hints 0). pose proof (taken_range mask hints 1).
  pose proof (taken_range mask hints 2). pose proof (taken_range mask hints 3).
  pose proof (u32_range (Z.lnot (proceed mask hints))).
  channel_cases (lowest mask); cbn;
    apply four_words_intro;
    repeat first [apply lor_range | apply ldiff_range]; assumption.
Qed.

Lemma settled_words mask hints :
  0 < mask < 16 -> four_words (settled mask hints).
Proof.
  intros Hm. pose proof (lowest_range mask Hm) as Hfb. unfold settled, homed.
  pose proof (taken_range mask hints 0). pose proof (taken_range mask hints 1).
  pose proof (taken_range mask hints 2). pose proof (taken_range mask hints 3).
  pose proof (u32_range (Z.lnot (proceed mask hints))).
  pose proof (u32_range (Z.lor (Z.land (taken mask hints 1) (taken mask hints 0))
         (Z.lor (Z.land (taken mask hints 2)
                   (Z.lor (taken mask hints 0) (taken mask hints 1)))
            (Z.land (taken mask hints 3)
               (Z.lor (taken mask hints 0)
                  (Z.lor (taken mask hints 1) (taken mask hints 2))))))) as Hd.
  fold (duplicated mask hints) in Hd.
  channel_cases (lowest mask); cbn;
    apply four_words_intro;
    repeat first [apply lor_range | apply ldiff_range]; assumption.
Qed.

End ClosedForm.
Section MachineAlgebra.

Lemma with_handler_twice h h' m :
  with_handler h (with_handler h' m) = with_handler h m.
Proof. reflexivity. Qed.

Lemma logged_with_handler l h m :
  logged l (with_handler h m) = with_handler h (logged l m).
Proof. reflexivity. Qed.

Lemma logged_twice l1 l2 m : logged l2 (logged l1 m) = logged (l1 ++ l2) m.
Proof. unfold logged. cbn. now rewrite app_assoc. Qed.

Lemma with_map_cache_twice c c' m :
  with_map_cache c (with_map_cache c' m) = with_map_cache c m.
Proof. reflexivity. Qed.

End MachineAlgebra.

Lemma generate_turn fuel i m :
  0 <= i < 4 -> four_words (handler (priv m)) ->
  length (map_cache (priv m)) = 32%nat -> (32 < fuel)%nat ->
  (pending <- get_parent_int_map i;;
   while fuel (fun pending => negb (pending =? 0))
     (generate_map_cache i) pending;;;
   ret tt) m =
  Done (tt, with_map_cache
              (cache_fill i (bits (nth (Z.to_nat i) (handler (priv m)) 0))
                 (map_cache (priv m))) m).
Proof.
  intros Hi Hw Hc Hfuel.
  unfold bind at 1.
  rewrite get_parent_int_map_ok by (rewrite (four_words_length _ Hw); lia).
  destruct (cache_loop i fuel (nth (Z.to_nat i) (handler (priv m)) 0) m)
    as [x Hrun]; [now apply four_words_nth | assumption | assumption |].
  unfold bind at 1. rewrite Hrun. now rewrite cache_steps.
Qed.

Lemma generate_all fuel m :
  four_words (handler (priv m)) ->
  map_cache (priv m) = replicate (Z.to_nat IOINTC_CHIP_IRQ) 0 ->
  (32 < fuel)%nat ->
  for_ (Z.to_nat IOINTC_NUM_PARENT) 0
    (fun i _ =>
       pending <- get_parent_int_map i;;
       while fuel (fun pending => negb (pending =? 0))
         (generate_map_cache i) pending;;;
       ret tt)
    tt m =
  Done (tt, with_map_cache (cached (handler (priv m))) m).
Proof.
  intros Hw Hc Hfuel.
  change (Z.to_nat IOINTC_NUM_PARENT) with 4%nat.
  cbn [for_]. change (0 + 1) with 1. change (1 + 1) with 2.
  change (2 + 1) with 3.
  unfold bind at 1. rewrite generate_turn; [| lia | assumption | | assumption].
  2: { rewrite Hc. reflexivity. }
  unfold bind at 1. rewrite generate_turn; [| lia | assumption | | assumption].
  2: { cbn. rewrite length_cache_fill, Hc. reflexivity. }
  unfold bind at 1. rewrite generate_turn; [| lia | assumption | | assumption].
  2: { cbn. rewrite !length_cache_fill, Hc. reflexivity. }
  unfold bind at 1. rewrite generate_turn; [| lia | assumption | | assumption].
  2: { cbn. rewrite !length_cache_fill, Hc. reflexivity. }
  unfold ret, cached. cbn [handler priv with_map_cache map_cache].
  rewrite Hc. reflexivity.
Qed.

Lemma validate_closed fuel hints m :
  0 < possible_parent_mask (priv m) < 16 ->
  length hints = 4%nat ->
  handler (priv m) = [0; 0; 0; 0] ->
  map_cache (priv m) = replicate (Z.to_nat IOINTC_CHIP_IRQ) 0 ->
  (32 < fuel)%nat ->
  validate_parent_mask fuel hints m =
  Done (tt,
        with_map_cache (cached (settled (possible_parent_mask (priv m)) hints))
          (with_handler (settled (possible_parent_mask (priv m)) hints)
             (logged (warnings (possible_parent_mask (priv m)) hints) m))).
Proof.
  intros Hm Hlen Hh Hc Hfuel.
  pose proof (lowest_range _ Hm) as Hfb.
  pose proof (settled_words _ hints Hm) as Hsw.
  pose proof (homed_words _ hints Hm) as Hhw.
  unfold validate_parent_mask.
  unfold bind at 1. unfold get_priv at 1.
  destruct (possible_parent_mask (priv m)) as [ | p | p] eqn:Ep; try lia.
  unfold bind at 1. rewrite ffs_pos.
  unfold bind at 1. rewrite take_hints by assumption.
  change (ctz p) with (lowest (Zpos p)) in *.
  generalize dependent (Zpos p). clear p. intros mask Ep Hm Hfb Hsw Hhw.
  (* homeless lines *)
  destruct (homeless_loop (lowest mask) Hfb fuel (proceed mask hints)
              (with_handler [taken mask hints 0; taken mask hints 1;
                             taken mask hints 2; taken mask hints 3] m))
    as [x1 Hrun1]; [apply taken_words | assumption |].
  unfold bind at 1. rewrite Hrun1. clear Hrun1 x1.
  rewrite homeless_steps;
    [| assumption | apply bits_in_range, u32_range | apply taken_words].
  rewrite mask_of_bits by apply u32_range.
  cbn [handler priv with_handler logged dmesg map_cache possible_parent_mask
       have_lpc_irq_bug].
  fold (homed mask hints).
  (* duplicated lines *)
  match goal with
  | |- bind _ _ ?m1 = _ =>
      destruct (dup_loop (lowest mask) Hfb fuel (duplicated mask hints) m1)
        as [x2 Hrun2];
      [apply u32_range | exact Hhw | assumption |]
  end.
  unfold bind at 1. rewrite Hrun2. clear Hrun2 x2.
  rewrite dup_steps;
    [| assumption | apply bits_in_range, u32_range | exact Hhw].
  rewrite mask_of_bits by apply u32_range.
  cbn [handler priv with_handler logged dmesg map_cache possible_parent_mask
       have_lpc_irq_bug].
  fold (settled mask hints).
  rewrite !logged_with_handler, !with_handler_twice, logged_twice.
  fold (warnings mask hints).
  rewrite generate_all; [reflexivity | exact Hsw | exact Hc | assumption].
Qed.

(** ** The fate of one line *)

Section LineFate.

Variable mask : Z.
Variable hints : list Z.
Hypothesis mask_range : 0 < mask < 16.

Lemma testbit_taken c line :
  0 <= line < 32 ->
  Z.testbit (taken mask hints c) line = available mask c && claims hints c line.
Proof.
  intros Hl. unfold taken, claims. destruct (available mask c); cbn.
  - rewrite testbit_u32. destruct (Z.ltb_spec line 32); [reflexivity | lia].
  - apply Z.testbit_0_l.
Qed.

Lemma lowest_available : available mask (lowest mask) = true.
Proof.
  unfold available. destruct mask as [ | p | p]; try lia. apply testbit_ctz.
Qed.

Lemma below_lowest c : c < lowest mask -> available mask c = false.
Proof.
  unfold available. destruct mask as [ | p | p]; try lia.
  apply testbit_below_ctz.
Qed.

Lemma owner_range line : 0 <= owner mask hints line < 4.
Proof.
  pose proof (lowest_range mask mask_range). unfold owner, claimants, channels.
  cbn [List.filter].
  destruct (available mask 0 && claims hints 0 line),
    (available mask 1 && claims hints 1 line),
    (available mask 2 && claims hints 2 line),
    (available mask 3 && claims hints 3 line); lia.
Qed.

Lemma owner_available line : available mask (owner mask hints line) = true.
Proof.
  pose proof lowest_available. unfold owner, claimants, channels.
  cbn [List.filter].
  destruct (available mask 0 && claims hints 0 line) eqn:E0,
    (available mask 1 && claims hints 1 line) eqn:E1,
    (available mask 2 && claims hints 2 line) eqn:E2,
    (available mask 3 && claims hints 3 line) eqn:E3;
    try assumption;
    match goal with
    | H : _ && _ = true |- _ => apply andb_true_iff in H; tauto
    end.
Qed.

Lemma testbit_settled c line :
  0 <= c < 4 -> 0 <= line < 32 ->
  Z.testbit (nth (Z.to_nat c) (settled mask hints) 0) line =
  (c =? owner mask hints line).
Proof.
  intros Hc Hl. pose proof (lowest_range mask mask_range) as Hfb.
  unfold owner, claimants, channels. cbn [List.filter].
  unfold settled, homed.
  channel_cases (lowest mask); channel_cases c;
    cbn [nth list_fmap fmap insert list_insert];
    unfold duplicated, proceed; bits_rewrite;
    rewrite !testbit_taken by lia;
    destruct (Z.ltb_spec line 32); try lia;
    destruct (available mask 0 && claims hints 0 line),
      (available mask 1 && claims hints 1 line),
      (available mask 2 && claims hints 2 line),
      (available mask 3 && claims hints 3 line); reflexivity.
Qed.

End LineFate.

(** ** The map cache of the settled handler maps *)

Section MapCache.

Lemma INTx_inj c c' : 0 <= c < 4 -> 0 <= c' < 4 -> INTx c = INTx c' -> c = c'.
Proof.
  intros Hc Hc'. channel_cases c; channel_cases c'; vm_compute; congruence.
Qed.

Lemma length_cached hs : length (cached hs) = 32%nat.
Proof. unfold cached. now rewrite !length_cache_fill. Qed.

Lemma nth_cached hs line :
  four_words hs -> 0 <= line < 32 ->
  nth (Z.to_nat line) (cached hs) 0 =
  if Z.testbit (nth 3 hs 0) line then INTx 3
  else if Z.testbit (nth 2 hs 0) line then INTx 2
  else if Z.testbit (nth 1 hs 0) line then INTx 1
  else if Z.testbit (nth 0 hs 0) line then INTx 0
  else 0.
Proof.
  intros Hw Hl. unfold cached.
  rewrite !cache_fill_bits;
    rewrite ?length_cache_fill, ?length_replicate;
    try (apply four_words_nth; assumption);
    try (change (Z.to_nat IOINTC_CHIP_IRQ) with 32%nat; lia).
  repeat match goal with
         | |- context [if ?b then _ else _] => destruct b; try reflexivity
         end.
  rewrite nth_lookup, lookup_replicate_2; [reflexivity |].
  change (Z.to_nat IOINTC_CHIP_IRQ) with 32%nat. lia.
Qed.

Lemma nth_cached_settled mask hints line :
  0 < mask < 16 -> 0 <= line < 32 ->
  nth (Z.to_nat line) (cached (settled mask hints)) 0 =
  INTx (owner mask hints line).
Proof.
  intros Hm Hl. rewrite nth_cached by (try apply settled_words; assumption).
  change 3%nat with (Z.to_nat 3). change 2%nat with (Z.to_nat 2).
  change 1%nat with (Z.to_nat 1). change 0%nat with (Z.to_nat 0).
  rewrite !testbit_settled by lia.
  pose proof (owner_range mask hints Hm line) as Ho.
  channel_cases (owner mask hints line); reflexivity.
Qed.

Lemma lookup_cached_settled mask hints line :
  0 < mask < 16 -> 0 <= line < 32 ->
  cached (settled mask hints) !! Z.to_nat line =
  Some (INTx (owner mask hints line)).
Proof.
  intros Hm Hl. rewrite <- nth_cached_settled by assumption.
  destruct (nth_lookup_or_length (cached (settled mask hints))
              (Z.to_nat line) 0) as [E | E]; [exact E |].
  rewrite length_cached in E. lia.
Qed.

End MapCache.

(** ** [validate_parent_mask] as [iointc_of_init] calls it *)

Lemma resolve_resolved fuel hints mask :
  0 < mask < 16 -> length hints = 4%nat -> (32 < fuel)%nat ->
  resolve fuel hints mask = Done (tt, resolved mask hints).
Proof.
  intros Hm Hlen Hfuel. unfold resolve.
  rewrite validate_closed; try assumption; reflexivity.
Qed.

(** ** The messages, line by line *)

Section Messages.

Lemma in_upfrom x n : forall k, In x (upfrom k n) <-> k <= x < k + Z.of_nat n.
Proof.
  induction n as [ | n IH]; intros k; cbn [upfrom In].
  - lia.
  - rewrite IH. lia.
Qed.

Lemma in_lines x : In x lines <-> 0 <= x < 32.
Proof.
  unfold lines. rewrite in_upfrom.
  change (Z.of_nat (Z.to_nat IOINTC_CHIP_IRQ)) with 32. lia.
Qed.

Lemma NoDup_upfrom n : forall k, NoDup (upfrom k n).
Proof.
  induction n as [ | n IH]; intros k; cbn [upfrom].
  - apply NoDup_nil_2.
  - apply NoDup_cons_2; [| apply IH].
    rewrite list_elem_of_In, in_upfrom. lia.
Qed.

Lemma filter_none (f : Z -> bool) l :
  (forall x, In x l -> f x = false) -> List.filter f l = [].
Proof.
  induction l as [ | a l IH]; intros Hf; [reflexivity |].
  cbn [List.filter]. rewrite Hf by now left.
  apply IH. intros x Hx. apply Hf. now right.
Qed.

Lemma bits_from_filter p : forall k n,
  Zpos p < 2 ^ Z.of_nat n ->
  bits_from p k =
  List.filter (fun x => Z.testbit (Zpos p) (x - k)) (upfrom k n).
Proof.
  induction p as [q IH | q IH | ]; intros k n Hlt;
    (destruct n as [ | n]; [cbn in Hlt; lia |]);
    rewrite Nat2Z.inj_succ, Z.pow_succ_r in Hlt by lia;
    cbn [bits_from upfrom List.filter]; rewrite Z.sub_diag.
  - change (Z.testbit (Zpos q~1) 0) with true. cbn iota. f_equal.
    rewrite (IH (k + 1) n) by lia. apply filter_ext_in.
    intros x Hx. apply in_upfrom in Hx.
    replace (x - k) with (Z.succ (x - (k + 1))) by lia.
    change (Zpos q~1) with (2 * Zpos q + 1).
    now rewrite Z.testbit_odd_succ by lia.
  - change (Z.testbit (Zpos q~0) 0) with false. cbn iota.
    rewrite (IH (k + 1) n) by lia. apply filter_ext_in.
    intros x Hx. apply in_upfrom in Hx.
    replace (x - k) with (Z.succ (x - (k + 1))) by lia.
    change (Zpos q~0) with (2 * Zpos q).
    now rewrite Z.testbit_even_succ by lia.
  - change (Z.testbit 1 0) with true. cbn iota. f_equal. symmetry.
    apply filter_none. intros x Hx. apply in_upfrom in Hx.
    change 1 with (2 ^ 0). rewrite Z.pow2_bits_eqb by lia.
    apply Z.eqb_neq. lia.
Qed.

Lemma bits_filter w :
  0 <= w < 2 ^ 32 -> bits w = List.filter (Z.testbit w) lines.
Proof.
  intros Hw. unfold bits, lines. destruct w as [ | p | p]; [| | lia].
  - symmetry. apply filter_none. intros x _. apply Z.testbit_0_l.
  - cbn [bits_at]. rewrite (bits_from_filter p 0 32) by (cbn; lia).
    apply filter_ext. intros x. now rewrite Z.sub_0_r.
Qed.

Variable mask : Z.
Variable hints : list Z.

Lemma testbit_homeless line :
  0 <= line < 32 ->
  Z.testbit (u32 (Z.lnot (proceed mask hints))) line = homeless mask hints line.
Proof.
  intros Hl. unfold homeless, claimants, channels, proceed.
  cbn [List.filter]. bits_rewrite. rewrite !testbit_taken by lia.
  destruct (Z.ltb_spec line 32); try lia.
  destruct (available mask 0 && claims hints 0 line),
    (available mask 1 && claims hints 1 line),
    (available mask 2 && claims hints 2 line),
    (available mask 3 && claims hints 3 line); reflexivity.
Qed.

Lemma testbit_multiple line :
  0 <= line < 32 ->
  Z.testbit (duplicated mask hints) line = multiple mask hints line.
Proof.
  intros Hl. unfold multiple, claimants, channels, duplicated.
  cbn [List.filter]. bits_rewrite. rewrite !testbit_taken by lia.
  destruct (Z.ltb_spec line 32); try lia.
  destruct (available mask 0 && claims hints 0 line),
    (available mask 1 && claims hints 1 line),
    (available mask 2 && claims hints 2 line),
    (available mask 3 && claims hints 3 line); reflexivity.
Qed.

Lemma warnings_by_line :
  warnings mask hints =
  map (fun line => warn_homeless line (lowest mask))
    (List.filter (homeless mask hints) lines)
  ++ map (fun line => warn_multiple line (lowest mask))
       (List.filter (multiple mask hints) lines).
Proof.
  unfold warnings. rewrite !bits_filter by apply u32_range.
  f_equal; (f_equal; apply filter_ext_in; intros x Hx; apply in_lines in Hx);
    [now apply testbit_homeless | now apply testbit_multiple].
Qed.

End Messages.

(** ** Properties of the assignment *)

Section Claimants.

Variable mask : Z.
Variable hints : list Z.
Hypothesis mask_range : 0 < mask < 16.

Lemma owner_unclaimed line :
  (forall c, 0 <= c < 4 -> available mask c = true ->
             claims hints c line = false) ->
  owner mask hints line = lowest mask.
Proof.
  intros Hun. unfold owner, claimants, channels. cbn [List.filter].
  destruct (available mask 0) eqn:A0, (available mask 1) eqn:A1,
    (available mask 2) eqn:A2, (available mask 3) eqn:A3;
    rewrite ?(Hun 0), ?(Hun 1), ?(Hun 2), ?(Hun 3) by (lia || assumption);
    reflexivity.
Qed.

Lemma owner_contested c1 c2 line :
  0 <= c1 < 4 -> 0 <= c2 < 4 -> c1 <> c2 ->
  available mask c1 && claims hints c1 line = true ->
  available mask c2 && claims hints c2 line = true ->
  owner mask hints line = lowest mask.
Proof.
  intros H1 H2 Hne E1 E2. unfold owner, claimants, channels.
  cbn [List.filter].
  channel_cases c1; channel_cases c2; try lia; rewrite E1, E2;
    repeat match goal with
           | |- context [if ?b then _ else _] =>
               match type of b with bool => destruct b end
           end; reflexivity.
Qed.

Lemma owner_sole c line :
  0 <= c < 4 ->
  available mask c && claims hints c line = true ->
  (forall c', 0 <= c' < 4 -> c' <> c ->
              available mask c' && claims hints c' line = false) ->
  owner mask hints line = c.
Proof.
  intros Hc E Hothers. unfold owner, claimants, channels. cbn [List.filter].
  channel_cases c; rewrite E;
    rewrite ?(Hothers 0), ?(Hothers 1), ?(Hothers 2), ?(Hothers 3) by lia;
    reflexivity.
Qed.

End Claimants.

(** C1. For every hint table and every non-empty set of available parent
    channels, [validate_parent_mask] returns, and then every line in
    [0, 32) is mapped to exactly one parent channel, which is available:
    the map cache has one entry for each of the 32 lines, the entry of a
    line is the byte of one channel [c], that channel is available, and
    [c] is the one channel whose handler map holds the line. *)
Theorem validate_parent_mask_total_assignment fuel hints mask :
  0 < mask < 16 -> length hints = 4%nat -> (32 < fuel)%nat ->
  exists m,
    resolve fuel hints mask = Done (tt, m)
    /\ length (map_cache (priv m)) = 32%nat
    /\ forall line, 0 <= line < 32 ->
         exists c,
           0 <= c < 4
           /\ available mask c = true
           /\ map_cache (priv m) !! Z.to_nat line = Some (INTx c)
           /\ (forall c', 0 <= c' < 4 ->
                 map_cache (priv m) !! Z.to_nat line = Some (INTx c') ->
                 c' = c)
           /\ (forall c', 0 <= c' < 4 ->
                 Z.testbit (nth (Z.to_nat c') (handler (priv m)) 0) line = true
                 <-> c' = c).
Proof.
  intros Hm Hlen Hfuel. exists (resolved mask hints).
  split; [now apply resolve_resolved |].
  split; [apply length_cached |].
  intros line Hl. exists (owner mask hints line).
  pose proof (owner_range mask hints Hm line) as Ho.
  cbn [resolved priv map_cache handler].
  rewrite lookup_cached_settled by assumption.
  repeat split; try lia.
  - now apply owner_available.
  - intros c' Hc' E. injection E as E. symmetry. now apply INTx_inj.
  - rewrite testbit_settled by assumption. apply Z.eqb_eq.
  - intros ->. rewrite testbit_settled by assumption. apply Z.eqb_refl.
Qed.

Lemma validate_parent_mask_total_assignment_witness :
  exists m,
    resolve 33 [32; 96; 0; 0] 15 = Done (tt, m)
    /\ length (map_cache (priv m)) = 32%nat
    /\ forall line, 0 <= line < 32 ->
         exists c,
           0 <= c < 4
           /\ available 15 c = true
           /\ map_cache (priv m) !! Z.to_nat line = Some (INTx c)
           /\ (forall c', 0 <= c' < 4 ->
                 map_cache (priv m) !! Z.to_nat line = Some (INTx c') ->
                 c' = c)
           /\ (forall c', 0 <= c' < 4 ->
                 Z.testbit (nth (Z.to_nat c') (handler (priv m)) 0) line = true
                 <-> c' = c).
Proof.
  apply (validate_parent_mask_total_assignment 33 [32; 96; 0; 0] 15);
    [lia | reflexivity | lia].
Defined.

(** C3. For every non-empty available set, a line that no channel of the
    hint table claims is resolved to the lowest available channel. It is
    enough that no available channel claims the line; the lowest available
    channel is the one [__ffs] finds in the mask. *)
Theorem unclaimed_line_to_fallback fuel hints mask line :
  0 < mask < 16 -> length hints = 4%nat -> (32 < fuel)%nat ->
  0 <= line < 32 ->
  (forall c, 0 <= c < 4 -> available mask c = true ->
             claims hints c line = false) ->
  exists m,
    resolve fuel hints mask = Done (tt, m)
    /\ map_cache (priv m) !! Z.to_nat line = Some (INTx (lowest mask))
    /\ Z.testbit (nth (Z.to_nat (lowest mask)) (handler (priv m)) 0) line
       = true
    /\ available mask (lowest mask) = true
    /\ (forall c, c < lowest mask -> available mask c = false).
Proof.
  intros Hm Hlen Hfuel Hl Hun. exists (resolved mask hints).
  pose proof (lowest_range mask Hm) as Hfb.
  split; [now apply resolve_resolved |].
  cbn [resolved priv map_cache handler].
  rewrite lookup_cached_settled, testbit_settled by assumption.
  rewrite (owner_unclaimed mask hints line Hun).
  repeat split.
  - apply Z.eqb_refl.
  - now apply lowest_available.
  - now apply below_lowest.
Qed.

Lemma unclaimed_line_to_fallback_witness :
  exists m,
    resolve 33 [32; 96; 0; 0] 14 = Done (tt, m)
    /\ map_cache (priv m) !! Z.to_nat 7 = Some (INTx (lowest 14))
    /\ Z.testbit (nth (Z.to_nat (lowest 14)) (handler (priv m)) 0) 7 = true
    /\ available 14 (lowest 14) = true
    /\ (forall c, c < lowest 14 -> available 14 c = false).
Proof.
  apply (unclaimed_line_to_fallback 33 [32; 96; 0; 0] 14 7);
    [lia | reflexivity | lia | lia |].
  intros c Hc _. channel_cases c; reflexivity.
Defined.

(** The claim of C4 read word for word fails: in the hint table
    [0; 32; 32; 0] line 5 is claimed by channels 1 and 2, and of these only
    channel 1 is available under the mask 3. The line stays with channel 1,
    while the lowest available channel is 0. *)
Lemma claim_of_unavailable_channel_counterexample :
  claims [0; 32; 32; 0] 1 5 = true
  /\ claims [0; 32; 32; 0] 2 5 = true
  /\ lowest 3 = 0
  /\ (exists m,
        resolve 33 [0; 32; 32; 0] 3 = Done (tt, m)
        /\ map_cache (priv m) !! Z.to_nat 5 = Some (INTx 1)
        /\ Z.testbit (nth (Z.to_nat 1) (handler (priv m)) 0) 5 = true)
  /\ ~ (exists m,
          resolve 33 [0; 32; 32; 0] 3 = Done (tt, m)
          /\ map_cache (priv m) !! Z.to_nat 5 = Some (INTx (lowest 3))).
Proof.
  assert (E : resolve 33 [0; 32; 32; 0] 3 =
              Done (tt, resolved 3 [0; 32; 32; 0])).
  { apply resolve_resolved; [lia | reflexivity | lia]. }
  repeat split; try reflexivity.
  - exists (resolved 3 [0; 32; 32; 0]). split; [exact E |].
    split; vm_compute; reflexivity.
  - intros (m & Hm & Hc). rewrite E in Hm. injection Hm as <-.
    vm_compute in Hc. discriminate.
Qed.

(** C4, amended. For every non-empty available set, a line that two or
    more available channels claim in the hint table is resolved to the
    lowest available channel, and no other channel keeps it in its map. *)
Theorem contested_line_to_fallback fuel hints mask line c1 c2 :
  0 < mask < 16 -> length hints = 4%nat -> (32 < fuel)%nat ->
  0 <= line < 32 ->
  0 <= c1 < 4 -> 0 <= c2 < 4 -> c1 <> c2 ->
  available mask c1 = true -> claims hints c1 line = true ->
  available mask c2 = true -> claims hints c2 line = true ->
  exists m,
    resolve fuel hints mask = Done (tt, m)
    /\ map_cache (priv m) !! Z.to_nat line = Some (INTx (lowest mask))
    /\ Z.testbit (nth (Z.to_nat (lowest mask)) (handler (priv m)) 0) line
       = true
    /\ (forall c, 0 <= c < 4 -> c <> lowest mask ->
          Z.testbit (nth (Z.to_nat c) (handler (priv m)) 0) line = false)
    /\ available mask (lowest mask) = true
    /\ (forall c, c < lowest mask -> available mask c = false).
Proof.
  intros Hm Hlen Hfuel Hl H1 H2 Hne A1 C1 A2 C2.
  exists (resolved mask hints).
  pose proof (lowest_range mask Hm) as Hfb.
  split; [now apply resolve_resolved |].
  cbn [resolved priv map_cache handler].
  rewrite lookup_cached_settled, testbit_settled by assumption.
  assert (Ho : owner mask hints line = lowest mask).
  { apply (owner_contested mask hints c1 c2); try assumption.
    - now rewrite A1, C1.
    - now rewrite A2, C2. }
  rewrite Ho. repeat split.
  - apply Z.eqb_refl.
  - intros c Hc Hcne. rewrite testbit_settled, Ho by assumption.
    now apply Z.eqb_neq.
  - now apply lowest_available.
  - now apply below_lowest.
Qed.

Lemma contested_line_to_fallback_witness :
  exists m,
    resolve 33 [32; 96; 0; 0] 15 = Done (tt, m)
    /\ map_cache (priv m) !! Z.to_nat 5 = Some (INTx (lowest 15))
    /\ Z.testbit (nth (Z.to_nat (lowest 15)) (handler (priv m)) 0) 5 = true
    /\ (forall c, 0 <= c < 4 -> c <> lowest 15 ->
          Z.testbit (nth (Z.to_nat c) (handler (priv m)) 0) 5 = false)
    /\ available 15 (lowest 15) = true
    /\ (forall c, c < lowest 15 -> available 15 c = false).
Proof.
  apply (contested_line_to_fallback 33 [32; 96; 0; 0] 15 5 0 1);
    solve [lia | reflexivity].
Defined.

(** C5. For every non-empty available set, a line claimed by exactly one
    channel, that channel being available, is resolved to that channel, as
    the hint says. It is enough that no other available channel claims the
    line. *)
Theorem sole_claimant_keeps_line fuel hints mask line c :
  0 < mask < 16 -> length hints = 4%nat -> (32 < fuel)%nat ->
  0 <= line < 32 -> 0 <= c < 4 ->
  available mask c = true -> claims hints c line = true ->
  (forall c', 0 <= c' < 4 -> c' <> c -> available mask c' = true ->
              claims hints c' line = false) ->
  exists m,
    resolve fuel hints mask = Done (tt, m)
    /\ map_cache (priv m) !! Z.to_nat line = Some (INTx c)
    /\ (forall c', 0 <= c' < 4 ->
          Z.testbit (nth (Z.to_nat c') (handler (priv m)) 0) line =
          claims hints c' line && available mask c').
Proof.
  intros Hm Hlen Hfuel Hl Hc A C Hothers.
  exists (resolved mask hints).
  split; [now apply resolve_resolved |].
  cbn [resolved priv map_cache handler].
  rewrite lookup_cached_settled by assumption.
  assert (Ho : owner mask hints line = c).
  { apply owner_sole; try assumption.
    - now rewrite A, C.
    - intros c' Hc' Hne. destruct (available mask c') eqn:A'; [| reflexivity].
      now rewrite (Hothers c' Hc' Hne A'). }
  rewrite Ho. split; [reflexivity |].
  intros c' Hc'. rewrite testbit_settled, Ho by assumption.
  destruct (Z.eqb_spec c' c) as [-> | Hne].
  - now rewrite A, C.
  - destruct (available mask c') eqn:A'.
    + now rewrite (Hothers c' Hc' Hne A').
    + now rewrite andb_false_r.
Qed.

Lemma sole_claimant_keeps_line_witness :
  exists m,
    resolve 33 [32; 96; 0; 0] 15 = Done (tt, m)
    /\ map_cache (priv m) !! Z.to_nat 6 = Some (INTx 1)
    /\ (forall c', 0 <= c' < 4 ->
          Z.testbit (nth (Z.to_nat c') (handler (priv m)) 0) 6 =
          claims [32; 96; 0; 0] c' 6 && available 15 c').
Proof.
  apply (sole_claimant_keeps_line 33 [32; 96; 0; 0] 15 6 1);
    try solve [lia | reflexivity].
  intros c' Hc' Hne _. channel_cases c'; solve [lia | reflexivity].
Defined.

(** ** Visiting the lines in another order *)

Section Orders.

Lemma mask_of_Permutation bs bs' : bs ≡ₚ bs' -> mask_of bs = mask_of bs'.
Proof.
  induction 1 as [ | b bs bs' _ IH | a b bs | bs1 bs2 bs3 _ IH1 _ IH2];
    cbn [mask_of fold_right].
  - reflexivity.
  - fold (mask_of bs) (mask_of bs'). now rewrite IH.
  - fold (mask_of bs). rewrite !Z.lor_assoc. f_equal. apply Z.lor_comm.
  - congruence.
Qed.

Lemma cache_fill_Permutation i bs bs' mc :
  Forall (fun b => 0 <= b) bs -> bs ≡ₚ bs' ->
  cache_fill i bs mc = cache_fill i bs' mc.
Proof.
  intros Hbs HP. assert (Hbs' : Forall (fun b => 0 <= b) bs') by now rewrite <- HP.
  apply list_eq. intros l.
  destruct (Nat.lt_ge_cases l (length mc)) as [Hl | Hl].
  - rewrite !lookup_cache_fill by assumption.
    destruct (decide (Z.of_nat l ∈ bs)) as [Hin | Hin].
    + rewrite decide_True; [reflexivity | now rewrite <- HP].
    + rewrite decide_False; [reflexivity | now rewrite <- HP].
  - rewrite !(proj2 (lookup_ge_None _ _)); [reflexivity | |];
      now rewrite length_cache_fill.
Qed.

Lemma replay_any_order mask hints homeless_order duplicated_order cache_order :
  0 < mask < 16 ->
  homeless_order ≡ₚ bits (u32 (Z.lnot (proceed mask hints))) ->
  duplicated_order ≡ₚ bits (duplicated mask hints) ->
  (forall c, 0 <= c < 4 ->
     cache_order c ≡ₚ bits (nth (Z.to_nat c) (settled mask hints) 0)) ->
  priv (replay mask hints homeless_order duplicated_order cache_order) =
  priv (resolved mask hints).
Proof.
  intros Hm H3 H4 H5. unfold replay.
  pose proof (lowest_range _ Hm) as Hfb.
  pose proof (settled_words _ hints Hm) as Hsw.
  pose proof (homed_words _ hints Hm) as Hhw.
  rewrite homeless_steps;
    [| assumption
     | rewrite H3; apply bits_in_range, u32_range
     | apply taken_words].
  rewrite (mask_of_Permutation _ _ H3), mask_of_bits by apply u32_range.
  cbn [handler priv with_handler logged dmesg map_cache possible_parent_mask
       have_lpc_irq_bug probed].
  fold (homed mask hints).
  rewrite dup_steps;
    [| assumption
     | rewrite H4; apply bits_in_range, u32_range
     | exact Hhw].
  rewrite (mask_of_Permutation _ _ H4), mask_of_bits by apply u32_range.
  cbn [handler priv with_handler logged dmesg map_cache possible_parent_mask
       have_lpc_irq_bug].
  fold (settled mask hints).
  rewrite !cache_steps.
  cbn [handler priv with_handler with_map_cache logged dmesg map_cache
       possible_parent_mask have_lpc_irq_bug kzalloc_priv resolved].
  f_equal. unfold cached.
  assert (Hpos : forall c, 0 <= c < 4 ->
            Forall (fun b => 0 <= b) (cache_order c)).
  { intros c Hc. rewrite (H5 c Hc).
    eapply Forall_impl;
      [apply bits_in_range, four_words_nth, Hsw | cbn; lia]. }
  rewrite (cache_fill_Permutation 3 _ _ _ (Hpos 3 ltac:(lia)) (H5 3 ltac:(lia))).
  rewrite (cache_fill_Permutation 2 _ _ _ (Hpos 2 ltac:(lia)) (H5 2 ltac:(lia))).
  rewrite (cache_fill_Permutation 1 _ _ _ (Hpos 1 ltac:(lia)) (H5 1 ltac:(lia))).
  rewrite (cache_fill_Permutation 0 _ _ _ (Hpos 0 ltac:(lia)) (H5 0 ltac:(lia))).
  reflexivity.
Qed.

Lemma claimants_agree mask hints1 hints2 line :
  (forall c, 0 <= c < 4 -> available mask c = true ->
             claims hints1 c line = claims hints2 c line) ->
  claimants mask hints1 line = claimants mask hints2 line.
Proof.
  intros Hag. unfold claimants, channels. cbn [List.filter].
  destruct (available mask 0) eqn:A0, (available mask 1) eqn:A1,
    (available mask 2) eqn:A2, (available mask 3) eqn:A3;
    rewrite ?(Hag 0), ?(Hag 1), ?(Hag 2), ?(Hag 3) by (lia || assumption);
    reflexivity.
Qed.

End Orders.

(** C7. The channel of a line depends on the claims on that line only: two
    hint tables that agree, for each available channel, on whether the
    channel claims line [line] give that line the same channel, with the
    same non-empty available set. And the order in which a loop takes its
    lines is of no effect on the handler maps and the map cache. *)
Theorem line_fate_depends_on_own_claims fuel hints1 hints2 mask line :
  0 < mask < 16 -> length hints1 = 4%nat -> length hints2 = 4%nat ->
  (32 < fuel)%nat -> 0 <= line < 32 ->
  (forall c, 0 <= c < 4 -> available mask c = true ->
             claims hints1 c line = claims hints2 c line) ->
  exists m1 m2,
    resolve fuel hints1 mask = Done (tt, m1)
    /\ resolve fuel hints2 mask = Done (tt, m2)
    /\ map_cache (priv m1) !! Z.to_nat line
       = map_cache (priv m2) !! Z.to_nat line
    /\ (forall c, 0 <= c < 4 ->
          Z.testbit (nth (Z.to_nat c) (handler (priv m1)) 0) line =
          Z.testbit (nth (Z.to_nat c) (handler (priv m2)) 0) line)
    /\ (forall homeless_order duplicated_order cache_order,
          homeless_order ≡ₚ bits (u32 (Z.lnot (proceed mask hints1))) ->
          duplicated_order ≡ₚ bits (duplicated mask hints1) ->
          (forall c, 0 <= c < 4 ->
             cache_order c ≡ₚ bits (nth (Z.to_nat c) (handler (priv m1)) 0)) ->
          priv (replay mask hints1 homeless_order duplicated_order
                  cache_order) = priv m1).
Proof.
  intros Hm Hlen1 Hlen2 Hfuel Hl Hag.
  exists (resolved mask hints1), (resolved mask hints2).
  split; [now apply resolve_resolved |].
  split; [now apply resolve_resolved |].
  assert (Ho : owner mask hints1 line = owner mask hints2 line).
  { unfold owner. now rewrite (claimants_agree mask hints1 hints2 line Hag). }
  cbn [resolved priv map_cache handler].
  split; [| split].
  - rewrite !lookup_cached_settled by assumption. now rewrite Ho.
  - intros c Hc. rewrite !testbit_settled by assumption. now rewrite Ho.
  - intros o3 o4 o5 H3 H4 H5. now apply replay_any_order.
Qed.

Lemma line_fate_depends_on_own_claims_witness :
  exists m1 m2,
    resolve 33 [32; 96; 0; 0] 3 = Done (tt, m1)
    /\ resolve 33 [33; 97; 5; 7] 3 = Done (tt, m2)
    /\ map_cache (priv m1) !! Z.to_nat 6
       = map_cache (priv m2) !! Z.to_nat 6
    /\ (forall c, 0 <= c < 4 ->
          Z.testbit (nth (Z.to_nat c) (handler (priv m1)) 0) 6 =
          Z.testbit (nth (Z.to_nat c) (handler (priv m2)) 0) 6)
    /\ (forall homeless_order duplicated_order cache_order,
          homeless_order ≡ₚ bits (u32 (Z.lnot (proceed 3 [32; 96; 0; 0]))) ->
          duplicated_order ≡ₚ bits (duplicated 3 [32; 96; 0; 0]) ->
          (forall c, 0 <= c < 4 ->
             cache_order c ≡ₚ bits (nth (Z.to_nat c) (handler (priv m1)) 0)) ->
          priv (replay 3 [32; 96; 0; 0] homeless_order duplicated_order
                  cache_order) = priv m1).
Proof.
  apply (line_fate_depends_on_own_claims 33 [32; 96; 0; 0] [33; 97; 5; 7] 3 6);
    try solve [lia | reflexivity].
  intros c Hc Ha. channel_cases c; solve [reflexivity | discriminate Ha].
Defined.

(** ** The messages of a run *)

Section Diagnostics.

Variable mask : Z.
Variable hints : list Z.

Lemma homeless_iff line :
  homeless mask hints line = true <->
  (forall c, 0 <= c < 4 -> available mask c && claims hints c line = false).
Proof.
  unfold homeless, claimants, channels. cbn [List.filter]. split.
  - intros H c Hc.
    channel_cases c;
      destruct (available mask 0 && claims hints 0 line),
        (available mask 1 && claims hints 1 line),
        (available mask 2 && claims hints 2 line),
        (available mask 3 && claims hints 3 line);
      (discriminate || reflexivity).
  - intros H. rewrite (H 0), (H 1), (H 2), (H 3) by lia. reflexivity.
Qed.

Lemma multiple_iff line :
  multiple mask hints line = true <->
  (exists c1 c2, 0 <= c1 < c2 /\ c2 < 4
     /\ available mask c1 && claims hints c1 line = true
     /\ available mask c2 && claims hints c2 line = true).
Proof.
  unfold multiple, claimants, channels. cbn [List.filter]. split.
  - destruct (available mask 0 && claims hints 0 line) eqn:E0,
      (available mask 1 && claims hints 1 line) eqn:E1,
      (available mask 2 && claims hints 2 line) eqn:E2,
      (available mask 3 && claims hints 3 line) eqn:E3;
      intros H; try discriminate H;
      first [ exists 0, 1; split; [lia |]; split; [lia |]; now split
            | exists 0, 2; split; [lia |]; split; [lia |]; now split
            | exists 0, 3; split; [lia |]; split; [lia |]; now split
            | exists 1, 2; split; [lia |]; split; [lia |]; now split
            | exists 1, 3; split; [lia |]; split; [lia |]; now split
            | exists 2, 3; split; [lia |]; split; [lia |]; now split ].
  - intros (c1 & c2 & H1 & H2 & E1 & E2).
    assert (Hc1 : 0 <= c1 < 4) by lia. assert (Hc2 : 0 <= c2 < 4) by lia.
    channel_cases c1; channel_cases c2; try lia; rewrite E1, E2;
      repeat match goal with
             | |- context [if ?b then _ else _] =>
                 match type of b with bool => destruct b end
             end; reflexivity.
Qed.

Lemma NoDup_lines : NoDup lines.
Proof. apply NoDup_upfrom. Qed.

Lemma NoDup_map_inj {A B} (f : A -> B) l :
  (forall x y, f x = f y -> x = y) -> NoDup l -> NoDup (map f l).
Proof.
  intros Hinj. induction 1 as [ | x l Hx Hl IH]; cbn [map].
  - apply NoDup_nil_2.
  - apply NoDup_cons_2; [| exact IH].
    rewrite list_elem_of_In, in_map_iff. intros (y & E & Hy).
    apply Hinj in E. subst y. apply Hx. now apply list_elem_of_In.
Qed.

Lemma NoDup_warnings : NoDup (warnings mask hints).
Proof.
  rewrite warnings_by_line. apply NoDup_ListNoDup, List.NoDup_app.
  - apply NoDup_ListNoDup, NoDup_map_inj; [congruence |].
    apply NoDup_ListNoDup, List.NoDup_filter, NoDup_ListNoDup, NoDup_lines.
  - apply NoDup_ListNoDup, NoDup_map_inj; [congruence |].
    apply NoDup_ListNoDup, List.NoDup_filter, NoDup_ListNoDup, NoDup_lines.
  - intros e H1 H2. apply in_map_iff in H1, H2.
    destruct H1 as (l1 & <- & _), H2 as (l2 & E & _). discriminate.
Qed.

Lemma in_warnings e :
  In e (warnings mask hints) <->
  exists line, 0 <= line < 32
    /\ (homeless mask hints line = true
          /\ e = warn_homeless line (lowest mask)
        \/ multiple mask hints line = true
          /\ e = warn_multiple line (lowest mask)).
Proof.
  rewrite warnings_by_line, in_app_iff, !in_map_iff. split.
  - intros [(l & <- & Hin) | (l & <- & Hin)];
      apply filter_In in Hin; destruct Hin as [Hin Hp];
      apply in_lines in Hin; exists l; tauto.
  - intros (l & Hl & [[Hp ->] | [Hp ->]]); [left | right];
      exists l; (split; [reflexivity |]);
      apply filter_In; (split; [now apply in_lines | assumption]).
Qed.

Lemma level_warnings :
  Forall (fun e => level e = KERN_WARNING) (warnings mask hints).
Proof.
  apply List.Forall_forall. intros e He. apply in_warnings in He.
  destruct He as (l & _ & [[_ ->] | [_ ->]]); reflexivity.
Qed.

End Diagnostics.

(** C8. With the messages collected as a list, [validate_parent_mask]
    prints one warning for each homeless line and one for each duplicated
    line, naming the line and the fallback channel, and nothing else: the
    homeless lines come first and then the duplicated lines, each group in
    the order of the lines, no message comes twice, and all are
    warnings. *)
Theorem one_warning_per_corrected_line fuel hints mask :
  0 < mask < 16 -> length hints = 4%nat -> (32 < fuel)%nat ->
  exists m,
    resolve fuel hints mask = Done (tt, m)
    /\ dmesg m =
       map (fun line => warn_homeless line (lowest mask))
         (List.filter (homeless mask hints) lines)
       ++ map (fun line => warn_multiple line (lowest mask))
            (List.filter (multiple mask hints) lines)
    /\ NoDup (dmesg m)
    /\ Forall (fun e => level e = KERN_WARNING) (dmesg m)
    /\ (forall e, In e (dmesg m) <->
          exists line, 0 <= line < 32
            /\ (homeless mask hints line = true
                  /\ e = warn_homeless line (lowest mask)
                \/ multiple mask hints line = true
                  /\ e = warn_multiple line (lowest mask))).
Proof.
  intros Hm Hlen Hfuel. exists (resolved mask hints).
  split; [now apply resolve_resolved |].
  cbn [resolved dmesg].
  split; [apply warnings_by_line |].
  split; [apply NoDup_warnings |].
  split; [apply level_warnings |].
  apply in_warnings.
Qed.

Lemma one_warning_per_corrected_line_witness :
  exists m,
    resolve 33 [32; 96; 0; 0] 15 = Done (tt, m)
    /\ dmesg m =
       map (fun line => warn_homeless line (lowest 15))
         (List.filter (homeless 15 [32; 96; 0; 0]) lines)
       ++ map (fun line => warn_multiple line (lowest 15))
            (List.filter (multiple 15 [32; 96; 0; 0]) lines)
    /\ NoDup (dmesg m)
    /\ Forall (fun e => level e = KERN_WARNING) (dmesg m)
    /\ (forall e, In e (dmesg m) <->
          exists line, 0 <= line < 32
            /\ (homeless 15 [32; 96; 0; 0] line = true
                  /\ e = warn_homeless line (lowest 15)
                \/ multiple 15 [32; 96; 0; 0] line = true
                  /\ e = warn_multiple line (lowest 15))).
Proof.
  apply (one_warning_per_corrected_line 33 [32; 96; 0; 0] 15);
    solve [lia | reflexivity].
Defined.

(** ** The assignment read back as a hint table *)

Section ReadBack.

Lemma testbit_lines_of mc c line :
  0 <= line < 32 ->
  Z.testbit (lines_of mc c) line = (nth (Z.to_nat line) mc 0 =? INTx c).
Proof.
  intros Hl. unfold lines_of. apply eq_iff_eq_true.
  rewrite testbit_mask_of.
  - rewrite list_elem_of_In, filter_In, in_lines. intuition lia.
  - apply List.Forall_forall. intros b Hb. apply filter_In in Hb.
    destruct Hb as [Hb _]. apply in_lines in Hb. lia.
Qed.

Lemma claims_as_hints mc c line :
  0 <= c < 4 -> 0 <= line < 32 ->
  claims (as_hints mc) c line = (nth (Z.to_nat line) mc 0 =? INTx c).
Proof.
  intros Hc Hl. unfold claims, as_hints, channels.
  channel_cases c; cbn [map nth]; now apply testbit_lines_of.
Qed.

Variable mask : Z.
Variable hints : list Z.
Hypothesis mask_range : 0 < mask < 16.

Lemma owner_as_hints line :
  0 <= line < 32 ->
  owner mask (as_hints (cached (settled mask hints))) line =
  owner mask hints line.
Proof.
  intros Hl.
  pose proof (owner_range mask hints mask_range line) as Ho.
  pose proof (owner_available mask hints mask_range line) as Ha.
  apply owner_sole; try assumption.
  - rewrite Ha, claims_as_hints, nth_cached_settled by assumption.
    now rewrite Z.eqb_refl.
  - intros c Hc Hne. rewrite claims_as_hints, nth_cached_settled by assumption.
    destruct (Z.eqb_spec (INTx (owner mask hints line)) (INTx c)) as [E | _].
    + apply INTx_inj in E; [congruence | assumption | assumption].
    + apply andb_false_r.
Qed.

Lemma four_words_eq hs hs' :
  four_words hs -> four_words hs' ->
  (forall c line, 0 <= c < 4 -> 0 <= line < 32 ->
     Z.testbit (nth (Z.to_nat c) hs 0) line =
     Z.testbit (nth (Z.to_nat c) hs' 0) line) ->
  hs = hs'.
Proof.
  intros (a0 & a1 & a2 & a3 & ->) (b0 & b1 & b2 & b3 & ->) Hbits.
  pose proof (fun line => Hbits 0 line ltac:(lia)) as H0.
  pose proof (fun line => Hbits 1 line ltac:(lia)) as H1.
  pose proof (fun line => Hbits 2 line ltac:(lia)) as H2.
  pose proof (fun line => Hbits 3 line ltac:(lia)) as H3.
  cbn in H0, H1, H2, H3.
  apply four_eq; apply Z.bits_inj'; intros n Hn;
    (destruct (Z.ltb_spec n 32);
     [ auto with zarith
     | rewrite !testbit_u32; destruct (Z.ltb_spec n 32); [lia | reflexivity] ]).
Qed.

Lemma mask_of_range bs :
  Forall (fun b => 0 <= b < 32) bs -> 0 <= mask_of bs < 2 ^ 32.
Proof.
  induction 1 as [ | b bs Hb _ IH]; cbn [mask_of fold_right]; [lia |].
  fold (mask_of bs). apply lor_range; [| exact IH].
  replace (BIT b) with (u32 (BIT b)) by bitblast. apply u32_range.
Qed.

Lemma lines_of_range mc c : 0 <= lines_of mc c < 2 ^ 32.
Proof.
  unfold lines_of. apply mask_of_range, List.Forall_forall.
  intros b Hb. apply filter_In in Hb. destruct Hb as [Hb _].
  now apply in_lines in Hb.
Qed.

Lemma settled_as_hints :
  settled mask (as_hints (cached (settled mask hints))) = settled mask hints.
Proof.
  apply four_words_eq; try now apply settled_words.
  intros c line Hc Hl. rewrite !testbit_settled by assumption.
  now rewrite owner_as_hints.
Qed.

Lemma as_hints_settled :
  as_hints (cached (settled mask hints)) = settled mask hints.
Proof.
  pose proof (settled_words mask hints mask_range) as Hw.
  apply four_words_eq; [| exact Hw |].
  - unfold as_hints, channels. cbn [map].
    apply four_words_intro; apply lines_of_range.
  - intros c line Hc Hl.
    change (Z.testbit
              (nth (Z.to_nat c) (as_hints (cached (settled mask hints))) 0)
              line)
      with (claims (as_hints (cached (settled mask hints))) c line).
    rewrite claims_as_hints, nth_cached_settled, testbit_settled by assumption.
    pose proof (owner_range mask hints mask_range line) as Ho.
    destruct (Z.eqb_spec (INTx (owner mask hints line)) (INTx c)) as [E | E];
      destruct (Z.eqb_spec c (owner mask hints line)) as [E' | E'];
      try reflexivity.
    + apply INTx_inj in E; [congruence | assumption | assumption].
    + subst c. congruence.
Qed.

End ReadBack.

(** C6. [validate_parent_mask] is idempotent: run again on the hint table
    read back from the map cache it produced, in which each line is
    claimed by exactly the channel it was given, and with the same
    non-empty available set, it produces the same map cache and the same
    handler maps. *)
Theorem resolve_idempotent fuel hints mask :
  0 < mask < 16 -> length hints = 4%nat -> (32 < fuel)%nat ->
  exists m m',
    resolve fuel hints mask = Done (tt, m)
    /\ resolve fuel (as_hints (map_cache (priv m))) mask = Done (tt, m')
    /\ map_cache (priv m') = map_cache (priv m)
    /\ handler (priv m') = handler (priv m)
    /\ (forall c line, 0 <= c < 4 -> 0 <= line < 32 ->
          claims (as_hints (map_cache (priv m))) c line = true
          <-> map_cache (priv m) !! Z.to_nat line = Some (INTx c)).
Proof.
  intros Hm Hlen Hfuel.
  exists (resolved mask hints),
    (resolved mask (as_hints (cached (settled mask hints)))).
  split; [now apply resolve_resolved |].
  split; [now apply resolve_resolved |].
  cbn [resolved priv map_cache handler].
  rewrite settled_as_hints by assumption.
  repeat split.
  - rewrite claims_as_hints, lookup_cached_settled by assumption.
    rewrite nth_cached_settled by assumption.
    intros E. apply Z.eqb_eq in E. now rewrite E.
  - rewrite claims_as_hints, lookup_cached_settled by assumption.
    rewrite nth_cached_settled by assumption.
    intros E. injection E as E. now apply Z.eqb_eq.
Qed.

Lemma resolve_idempotent_witness :
  exists m m',
    resolve 33 [32; 96; 0; 0] 15 = Done (tt, m)
    /\ resolve 33 (as_hints (map_cache (priv m))) 15 = Done (tt, m')
    /\ map_cache (priv m') = map_cache (priv m)
    /\ handler (priv m') = handler (priv m)
    /\ (forall c line, 0 <= c < 4 -> 0 <= line < 32 ->
          claims (as_hints (map_cache (priv m))) c line = true
          <-> map_cache (priv m) !! Z.to_nat line = Some (INTx c)).
Proof.
  apply (resolve_idempotent 33 [32; 96; 0; 0] 15); solve [lia | reflexivity].
Defined.

(** ** Termination *)

(** All four parents available, line 5 hinted to int0 and int1, line 6 to
    int1: line 5 and the unhinted lines go to int0, line 6 stays with
    int1, with 30 warnings for homeless lines and one for line 5. *)
Example resolve_two_hints :
  exists m,
    resolve 33 [Z.shiftl 1 5; Z.lor (Z.shiftl 1 5) (Z.shiftl 1 6); 0; 0] 15
    = Done (tt, m)
    /\ map_cache (priv m) =
       [16; 16; 16; 16; 16; 16; 32; 16; 16; 16; 16; 16; 16; 16; 16; 16;
        16; 16; 16; 16; 16; 16; 16; 16; 16; 16; 16; 16; 16; 16; 16; 16]
    /\ handler (priv m) = [4294967231; 64; 0; 0]
    /\ length (dmesg m) = 31%nat
    /\ last (dmesg m) = Some (warn_multiple 5 0).
Proof. eexists. split; [vm_compute; reflexivity |]. repeat split. Qed.

(** With no hint at all every line is homeless, and the loop on homeless
    lines tests its condition 33 times. *)
Example resolve_no_hint_needs_33_tests :
  resolve 32 [0; 0; 0; 0] 1 = OutOfFuel
  /\ exists m, resolve 33 [0; 0; 0; 0] 1 = Done (tt, m)
               /\ handler (priv m) = [4294967295; 0; 0; 0].
Proof.
  split; [vm_compute; reflexivity |].
  eexists. split; [vm_compute; reflexivity | reflexivity].
Qed.

(** C9. For every input with a non-empty available set
    [validate_parent_mask] terminates: 33 tests of the condition are
    enough for each of its loops, whatever the hints, and more fuel gives
    the same result. Each turn of a loop takes the lowest set bit out of
    the word that the loop scans (the complement of the proceed mask, the
    duplicated mask, the pending lines of a handler) and leaves the other
    bits, and a 32-bit word has at most 32 set bits. *)
Theorem validate_parent_mask_terminates fuel hints mask :
  0 < mask < 16 -> length hints = 4%nat -> (32 < fuel)%nat ->
  (exists m,
     resolve fuel hints mask = Done (tt, m)
     /\ resolve 33 hints mask = Done (tt, m))
  /\ (forall proceed_mask m,
        four_words (handler (priv m)) ->
        u32 (Z.lnot proceed_mask) <> 0 ->
        exists x' m' b,
          fallback_homeless (lowest mask) proceed_mask m = Done (x', m')
          /\ four_words (handler (priv m'))
          /\ bits (u32 (Z.lnot proceed_mask)) = b :: bits (u32 (Z.lnot x')))
  /\ (forall duplicated_mask m,
        four_words (handler (priv m)) ->
        0 < duplicated_mask < 2 ^ 32 ->
        exists x' m' b,
          fallback_duplicated (lowest mask) duplicated_mask m = Done (x', m')
          /\ four_words (handler (priv m'))
          /\ 0 <= x' < 2 ^ 32
          /\ bits duplicated_mask = b :: bits x')
  /\ (forall i pending m,
        length (map_cache (priv m)) = 32%nat ->
        0 < pending < 2 ^ 32 ->
        exists x' m' b,
          generate_map_cache i pending m = Done (x', m')
          /\ length (map_cache (priv m')) = 32%nat
          /\ 0 <= x' < 2 ^ 32
          /\ bits pending = b :: bits x')
  /\ (forall w, 0 <= w < 2 ^ 32 -> (length (bits w) <= 32)%nat).
Proof.
  intros Hm Hlen Hfuel. pose proof (lowest_range mask Hm) as Hfb.
  split; [| split; [| split; [| split]]].
  - exists (resolved mask hints).
    split; apply resolve_resolved; (assumption || lia).
  - intros proceed_mask m Hw Hnz.
    pose proof (u32_range (Z.lnot proceed_mask)) as Hr.
    destruct (u32 (Z.lnot proceed_mask)) as [ | p | p] eqn:Ew; try lia.
    destruct (homeless_body (lowest mask) Hfb proceed_mask m p Ew
                ltac:(lia) Hw) as (x' & Hrun & Hx' & Hw').
    exists x', (homeless_step (lowest mask) (ctz p) m), (ctz p).
    rewrite Hx', <- bits_step. auto.
  - intros duplicated_mask m Hw Hr.
    destruct duplicated_mask as [ | p | p] eqn:Ew; try lia.
    destruct (dup_body (lowest mask) Hfb (Zpos p) m p eq_refl
                ltac:(lia) Hw) as (x' & Hrun & Hx' & Hw').
    exists x', (dup_step (lowest mask) (ctz p) m), (ctz p).
    pose proof (drop_lowest_nonneg p). pose proof (drop_lowest_le p).
    subst x'. rewrite <- bits_step. repeat split; (assumption || lia).
  - intros i pending m Hc Hr.
    destruct pending as [ | p | p] eqn:Ew; try lia.
    destruct (cache_body i (Zpos p) m p eq_refl ltac:(lia) Hc)
      as (x' & Hrun & Hx' & Hc').
    exists x', (cache_step i (ctz p) m), (ctz p).
    pose proof (drop_lowest_nonneg p). pose proof (drop_lowest_le p).
    subst x'. rewrite <- bits_step. repeat split; (assumption || lia).
  - apply length_bits.
Qed.

Lemma validate_parent_mask_terminates_witness :
  (exists m,
     resolve 40 [32; 96; 0; 0] 15 = Done (tt, m)
     /\ resolve 33 [32; 96; 0; 0] 15 = Done (tt, m))
  /\ (forall proceed_mask m,
        four_words (handler (priv m)) ->
        u32 (Z.lnot proceed_mask) <> 0 ->
        exists x' m' b,
          fallback_homeless (lowest 15) proceed_mask m = Done (x', m')
          /\ four_words (handler (priv m'))
          /\ bits (u32 (Z.lnot proceed_mask)) = b :: bits (u32 (Z.lnot x')))
  /\ (forall duplicated_mask m,
        four_words (handler (priv m)) ->
        0 < duplicated_mask < 2 ^ 32 ->
        exists x' m' b,
          fallback_duplicated (lowest 15) duplicated_mask m = Done (x', m')
          /\ four_words (handler (priv m'))
          /\ 0 <= x' < 2 ^ 32
          /\ bits duplicated_mask = b :: bits x')
  /\ (forall i pending m,
        length (map_cache (priv m)) = 32%nat ->
        0 < pending < 2 ^ 32 ->
        exists x' m' b,
          generate_map_cache i pending m = Done (x', m')
          /\ length (map_cache (priv m')) = 32%nat
          /\ 0 <= x' < 2 ^ 32
          /\ bits pending = b :: bits x')
  /\ (forall w, 0 <= w < 2 ^ 32 -> (length (bits w) <= 32)%nat).
Proof.
  apply (validate_parent_mask_terminates 40 [32; 96; 0; 0] 15);
    solve [lia | reflexivity].
Defined.

(** ** [iointc_of_init] *)

Section Init.

Variable node : platform.

Lemma parents_range : 0 <= parents node < 16.
Proof.
  unfold parents.
  destruct (0 <=? of_irq_get_byname node 0), (0 <=? of_irq_get_byname node 1),
    (0 <=? of_irq_get_byname node 2), (0 <=? of_irq_get_byname node 3);
    vm_compute; split; congruence.
Qed.

Lemma available_parents c :
  0 <= c < 4 -> available (parents node) c = (0 <=? of_irq_get_byname node c).
Proof.
  intros Hc. unfold parents, available.
  channel_cases c;
    destruct (0 <=? of_irq_get_byname node 0),
      (0 <=? of_irq_get_byname node 1),
      (0 <=? of_irq_get_byname node 2),
      (0 <=? of_irq_get_byname node 3); reflexivity.
Qed.

Lemma find_parents m :
  possible_parent_mask (priv m) = 0 ->
  for_ (Z.to_nat IOINTC_NUM_PARENT) 0
    (fun i _ =>
       if 0 <=? of_irq_get_byname node i then
         p <- get_priv;;
         put_priv {| map_cache := map_cache p; handler := handler p;
                     possible_parent_mask :=
                       u8 (Z.lor (possible_parent_mask p) (BIT i));
                     have_lpc_irq_bug := have_lpc_irq_bug p |}
       else ret tt)
    tt m =
  Done (tt, {| priv := {| map_cache := map_cache (priv m);
                          handler := handler (priv m);
                          possible_parent_mask := parents node;
                          have_lpc_irq_bug := have_lpc_irq_bug (priv m) |};
               dmesg := dmesg m |}).
Proof.
  intros Hz. destruct m as [[mc hs pm bug] log]. cbn in Hz. subst pm.
  unfold parents.
  change (Z.to_nat IOINTC_NUM_PARENT) with 4%nat.
  cbn [for_]. change (0 + 1) with 1. change (1 + 1) with 2.
  change (2 + 1) with 3.
  destruct (0 <=? of_irq_get_byname node 0), (0 <=? of_irq_get_byname node 1),
    (0 <=? of_irq_get_byname node 2), (0 <=? of_irq_get_byname node 3);
    cbn; do 3 f_equal.
Qed.

Lemma for_invariant {L} (Inv : machine -> Prop) n :
  forall lo (body : Z -> L -> M L) x m,
    (forall i x m, lo <= i < lo + Z.of_nat n -> Inv m ->
       exists x' m', body i x m = Done (x', m') /\ Inv m') ->
    Inv m ->
    exists x' m', for_ n lo body x m = Done (x', m') /\ Inv m'.
Proof.
  induction n as [ | n IH]; intros lo body x m Hbody HI.
  - exists x, m. split; [reflexivity | assumption].
  - cbn [for_].
    destruct (Hbody lo x m ltac:(lia) HI) as (x1 & m1 & Hrun & HI1).
    unfold bind at 1. rewrite Hrun.
    apply IH; [| assumption].
    intros i x2 m2 Hi. apply Hbody. lia.
Qed.

Lemma map_cache_set_core_ok irq core m :
  0 <= irq < Z.of_nat (length (map_cache (priv m))) ->
  exists c,
    map_cache_set_core irq core m =
    Done (tt, with_map_cache (<[Z.to_nat irq := c]> (map_cache (priv m))) m).
Proof.
  intros Hi. unfold map_cache_set_core, get_map_cache.
  unfold bind at 1. unfold bind at 1. unfold get_priv at 1.
  rewrite array_get_ok by assumption.
  unfold bind at 1. rewrite set_map_cache_ok by assumption.
  unfold bind at 1. unfold bind at 1. unfold get_priv at 1.
  rewrite array_get_ok by (cbn; rewrite length_insert; assumption).
  rewrite set_map_cache_ok by (cbn; rewrite length_insert; assumption).
  cbn [with_map_cache priv map_cache handler possible_parent_mask
       have_lpc_irq_bug dmesg].
  rewrite list_insert_insert_eq. eexists. reflexivity.
Qed.

Lemma set_cores core m :
  length (map_cache (priv m)) = 32%nat ->
  exists m',
    for_ (Z.to_nat IOINTC_CHIP_IRQ) 0
      (fun i _ => map_cache_set_core i core) tt m = Done (tt, m')
    /\ handler (priv m') = handler (priv m)
    /\ possible_parent_mask (priv m') = possible_parent_mask (priv m)
    /\ dmesg m' = dmesg m.
Proof.
  intros Hlen.
  destruct (for_invariant
              (fun m' => length (map_cache (priv m')) = 32%nat
                         /\ handler (priv m') = handler (priv m)
                         /\ possible_parent_mask (priv m')
                            = possible_parent_mask (priv m)
                         /\ dmesg m' = dmesg m)
              (Z.to_nat IOINTC_CHIP_IRQ) 0
              (fun i _ => map_cache_set_core i core) tt m)
    as ([] & m' & Hrun & _ & Hh & Hp & Hd).
  - intros i [] m1 Hi (Hl1 & Hh1 & Hp1 & Hd1).
    change (Z.of_nat (Z.to_nat IOINTC_CHIP_IRQ)) with 32 in Hi.
    destruct (map_cache_set_core_ok i core m1 ltac:(lia)) as [c Hc].
    eexists tt, _. split; [exact Hc |].
    cbn. now rewrite length_insert.
  - auto.
  - exists m'. auto.
Qed.

End Init.

(** C2. Given a hint table and the answers of the kernel services that
    [iointc_of_init] depends on, the initialisation fails exactly when no
    parent channel is available, with the error of the "No parent" branch
    and nothing else printed; with a non-empty available set it returns 0
    on the state that [validate_parent_mask] produces, and prints
    warnings only. *)
Theorem no_parent_is_the_only_failure fuel node :
  kzalloc_ok node = true -> of_iomap_ok node = true ->
  4 <= parent_int_map_sz node -> length (parent_int_map_val node) = 4%nat ->
  irq_domain_add_linear_ok node = true ->
  irq_alloc_domain_generic_chips node = 0 ->
  (32 < fuel)%nat ->
  exists ret m,
    iointc_of_init fuel node boot = Done (ret, m)
    /\ (ret <> 0 <-> parents node = 0)
    /\ (ret <> 0 -> ret = - ENOMEM /\ dmesg m = [err_no_parent])
    /\ (ret = 0 ->
          Forall (fun e => level e = KERN_WARNING) (dmesg m)
          /\ exists m0,
               resolve fuel (parent_int_map_val node) (parents node)
               = Done (tt, m0)
               /\ handler (priv m) = handler (priv m0)
               /\ dmesg m = dmesg m0)
    /\ (forall c, 0 <= c < 4 ->
          available (parents node) c = (0 <=? of_irq_get_byname node c)).
Proof.
  intros Hk Hio Hsz Hlen Hdom Hchips Hfuel.
  pose proof (parents_range node) as Hr.
  unfold iointc_of_init. rewrite Hk, Hio. cbn [negb].
  unfold bind at 1. unfold get_priv at 1.
  unfold bind at 1. unfold put_priv at 1.
  unfold bind at 1. rewrite find_parents by reflexivity.
  unfold bind at 1. unfold get_priv at 1.
  cbn [priv possible_parent_mask map_cache handler have_lpc_irq_bug dmesg boot].
  destruct (Z.eqb_spec (parents node) 0) as [Hz | Hnz].
  - exists (- ENOMEM). eexists. split; [reflexivity |].
    cbn [dmesg app]. split; [| split; [| split]].
    + split; [intros _; exact Hz | intros _; discriminate].
    + intros _. split; reflexivity.
    + discriminate.
    + intros c Hc. now apply available_parents.
  - destruct (Z.ltb_spec (parent_int_map_sz node) 4) as [Hlt | _]; [lia |].
    rewrite Hdom, Hchips. cbn [negb Z.eqb].
    unfold bind at 1. rewrite validate_closed;
      [| cbn; lia | assumption | reflexivity | reflexivity | assumption].
    cbn [priv possible_parent_mask].
    match goal with
    | |- context [bind (for_ _ _ _ _) _ ?m1] =>
        destruct (set_cores (boot_cpu_id node) m1) as (m' & Hrun & Hh & Hp & Hd);
        [apply length_cached |]
    end.
    unfold bind at 1. rewrite Hrun.
    exists 0, m'. split; [reflexivity |].
    cbn in Hh, Hd. split; [| split; [| split]].
    + split; [intros H; now contradiction H | intros H; contradiction].
    + intros H. now contradiction H.
    + intros _. rewrite Hd. split; [apply level_warnings |].
      exists (resolved (parents node) (parent_int_map_val node)).
      split; [apply resolve_resolved; (assumption || lia) |].
      split; [exact Hh | reflexivity].
    + intros c Hc. now apply available_parents.
Qed.

Lemma no_parent_is_the_only_failure_witness :
  exists ret m,
    iointc_of_init 33 three_parents boot = Done (ret, m)
    /\ (ret <> 0 <-> parents three_parents = 0)
    /\ (ret <> 0 -> ret = - ENOMEM /\ dmesg m = [err_no_parent])
    /\ (ret = 0 ->
          Forall (fun e => level e = KERN_WARNING) (dmesg m)
          /\ exists m0,
               resolve 33 (parent_int_map_val three_parents)
                 (parents three_parents)
               = Done (tt, m0)
               /\ handler (priv m) = handler (priv m0)
               /\ dmesg m = dmesg m0)
    /\ (forall c, 0 <= c < 4 ->
          available (parents three_parents) c
          = (0 <=? of_irq_get_byname three_parents c)).
Proof.
  apply (no_parent_is_the_only_failure 33 three_parents);
    solve [reflexivity | cbn; lia].
Defined.

Example iointc_of_init_no_parent :
  iointc_of_init 33 no_parent boot =
  Done (- ENOMEM, {| priv := kzalloc_priv; dmesg := [err_no_parent] |}).
Proof. vm_compute. reflexivity. Qed.

Example iointc_of_init_three_parents :
  exists m,
    iointc_of_init 33 three_parents boot = Done (0, m)
    /\ possible_parent_mask (priv m) = 11
    /\ handler (priv m) = [4294967231; 64; 0; 0]
    /\ nth 5 (map_cache (priv m)) 0 = 17
    /\ nth 6 (map_cache (priv m)) 0 = 33.
Proof. eexists. split; [vm_compute; reflexivity |]. repeat split. Qed.

(** ** No bit scan of the word 0 *)

Section ScanSafety.

Lemma safe_ret {A} (P : machine -> Prop) (a : A) (Q : A -> machine -> Prop) :
  (forall m, P m -> Q a m) -> scans_safely P (ret a) Q.
Proof. intros H m HP. cbn. auto. Qed.

Lemma safe_pure {A} (fact : Prop) (P : machine -> Prop) (c : M A) Q :
  (fact -> scans_safely P c Q) ->
  scans_safely (fun m => fact /\ P m) c Q.
Proof. intros H m [Hf HP]. now apply H. Qed.

Lemma safe_bind {A B} P (c : M A) R (k : A -> M B) Q :
  scans_safely P c R ->
  (forall a, scans_safely (R a) (k a) Q) ->
  scans_safely P (bind c k) Q.
Proof.
  intros Hc Hk m HP. unfold bind. specialize (Hc m HP).
  destruct (c m) as [[a m'] | [ | ] | ]; try exact I; try contradiction.
  exact (Hk a m' Hc).
Qed.

Lemma safe_weaken {A} (P P' : machine -> Prop) (c : M A)
  (Q Q' : A -> machine -> Prop) :
  scans_safely P c Q ->
  (forall m, P' m -> P m) -> (forall a m, Q a m -> Q' a m) ->
  scans_safely P' c Q'.
Proof.
  intros Hc HP HQ m HP'. specialize (Hc m (HP m HP')).
  destruct (c m) as [[a m'] | [ | ] | ]; auto.
Qed.

Lemma safe_ffs P w : 0 < w -> scans_safely P (__ffs w) (fun _ m => P m).
Proof. intros Hw m HP. destruct w; try lia. exact HP. Qed.

Lemma safe_array_get P a i :
  scans_safely P (array_get a i)
    (fun v m => a !! Z.to_nat i = Some v /\ P m).
Proof.
  intros m HP. unfold array_get.
  destruct (i <? 0); [exact I |].
  destruct (a !! Z.to_nat i); cbn; auto.
Qed.

Lemma safe_array_set P a i v :
  scans_safely P (array_set a i v)
    (fun a' m => a' = <[Z.to_nat i := v]> a /\ P m).
Proof.
  intros m HP. unfold array_set.
  destruct ((0 <=? i) && (i <? Z.of_nat (length a))); cbn; auto.
Qed.

Lemma safe_pr e : scans_safely unsigned_maps (pr e) (fun _ m => unsigned_maps m).
Proof. intros m HP. exact HP. Qed.

Lemma safe_get_parent_int_map i :
  scans_safely unsigned_maps (get_parent_int_map i)
    (fun v m => 0 <= v /\ unsigned_maps m).
Proof.
  intros m HP. unfold get_parent_int_map, bind, get_priv.
  pose proof (safe_array_get unsigned_maps (handler (priv m)) i m HP) as H.
  destruct (array_get (handler (priv m)) i m) as [[v m'] | [ | ] | ]; auto.
  destruct H as [Hv HP']. split; [| exact HP'].
  exact (proj1 (Forall_lookup _ _) HP _ _ Hv).
Qed.

Lemma safe_set_parent_int_map i v :
  scans_safely unsigned_maps (set_parent_int_map i v)
    (fun _ m => unsigned_maps m).
Proof.
  intros m HP. unfold set_parent_int_map, bind, get_priv.
  pose proof (safe_array_set unsigned_maps (handler (priv m)) i (u32 v) m HP)
    as H.
  destruct (array_set (handler (priv m)) i (u32 v) m) as [[h m'] | [ | ] | ];
    auto.
  destruct H as [-> HP']. unfold put_priv, unsigned_maps. cbn.
  apply Forall_insert; [exact HP |]. apply u32_range.
Qed.

Lemma safe_set_map_cache i v :
  scans_safely unsigned_maps (set_map_cache i v) (fun _ m => unsigned_maps m).
Proof.
  intros m HP. unfold set_map_cache, bind, get_priv.
  pose proof (safe_array_set unsigned_maps (map_cache (priv m)) i (u8 v) m HP)
    as H.
  destruct (array_set (map_cache (priv m)) i (u8 v) m) as [[h m'] | [ | ] | ];
    try exact I; try contradiction.
  destruct H as [-> HP']. exact HP.
Qed.

Lemma safe_get_map_cache i :
  scans_safely unsigned_maps (get_map_cache i) (fun _ m => unsigned_maps m).
Proof.
  intros m HP. unfold get_map_cache, bind, get_priv.
  pose proof (safe_array_get unsigned_maps (map_cache (priv m)) i m HP) as H.
  destruct (array_get (map_cache (priv m)) i m) as [[v m'] | [ | ] | ]; tauto.
Qed.

Lemma safe_for {L} (Inv : machine -> Prop) (K : L -> Prop) n :
  forall lo (body : Z -> L -> M L) x,
    (forall i x, K x ->
       scans_safely Inv (body i x) (fun x' m => K x' /\ Inv m)) ->
    K x ->
    scans_safely Inv (for_ n lo body x) (fun x' m => K x' /\ Inv m).
Proof.
  induction n as [ | n IH]; intros lo body x Hbody HK.
  - intros m HI. cbn. auto.
  - cbn [for_]. eapply safe_bind; [apply Hbody, HK |].
    intros x' m [HK' HI]. now apply IH.
Qed.

Lemma safe_while {L} (Inv : machine -> Prop) (K : L -> Prop) fuel :
  forall (cond : L -> bool) (body : L -> M L) x,
    (forall x, K x -> cond x = true ->
       scans_safely Inv (body x) (fun x' m => K x' /\ Inv m)) ->
    K x ->
    scans_safely Inv (while fuel cond body x) (fun x' m => K x' /\ Inv m).
Proof.
  induction fuel as [ | fuel IH]; intros cond body x Hbody HK.
  - intros m HI. exact I.
  - cbn [while]. destruct (cond x) eqn:Ec.
    + eapply safe_bind; [now apply Hbody |].
      intros x' m [HK' HI]. now apply IH.
    + intros m HI. cbn. auto.
Qed.

Lemma safe_take_hint mask hints i x :
  0 <= snd x ->
  scans_safely unsigned_maps (take_hint mask hints i x)
    (fun x' m => 0 <= snd x' /\ unsigned_maps m).
Proof.
  intros Hx. destruct x as [p d]. unfold take_hint.
  destruct (Z.land mask (BIT i) =? 0).
  - apply safe_ret. auto.
  - eapply safe_bind; [apply safe_array_get | intros v].
    eapply safe_bind; [apply safe_pure; intros _; apply safe_set_parent_int_map
                      | intros ?].
    eapply safe_bind; [apply safe_get_parent_int_map | intros w].
    eapply safe_bind;
      [apply safe_pure; intros _; apply safe_get_parent_int_map | intros w'].
    apply safe_ret. intros m [_ Hm]. split; [apply u32_range | exact Hm].
Qed.

Lemma safe_fallback_homeless fb proceed_mask :
  negb (u32 (Z.lnot proceed_mask) =? 0) = true ->
  scans_safely unsigned_maps (fallback_homeless fb proceed_mask)
    (fun x' m => True /\ unsigned_maps m).
Proof.
  intros Hc. apply negb_true_iff, Z.eqb_neq in Hc.
  pose proof (u32_range (Z.lnot proceed_mask)) as Hr.
  unfold fallback_homeless.
  eapply safe_bind; [apply safe_ffs; lia | intros bit].
  eapply safe_bind; [apply safe_pr | intros ?].
  eapply safe_bind; [apply safe_get_parent_int_map | intros w].
  eapply safe_bind;
    [apply safe_pure; intros _; apply safe_set_parent_int_map | intros ?].
  apply safe_ret. auto.
Qed.

Lemma safe_fallback_duplicated fb duplicated_mask :
  0 <= duplicated_mask -> negb (duplicated_mask =? 0) = true ->
  scans_safely unsigned_maps (fallback_duplicated fb duplicated_mask)
    (fun x' m => 0 <= x' /\ unsigned_maps m).
Proof.
  intros Hd Hc. apply negb_true_iff, Z.eqb_neq in Hc.
  unfold fallback_duplicated.
  eapply safe_bind; [apply safe_ffs; lia | intros bit].
  eapply safe_bind; [apply safe_pr | intros ?].
  eapply safe_bind.
  { eapply safe_weaken with (P := unsigned_maps)
      (Q := fun (_ : unit) m => True /\ unsigned_maps m).
    - apply (safe_for unsigned_maps (fun _ : unit => True)); [| exact I].
      intros i [] _.
      eapply safe_bind; [apply safe_get_parent_int_map | intros w].
      apply safe_pure. intros _.
      eapply safe_weaken; [apply safe_set_parent_int_map | auto | cbn; auto].
    - auto.
    - intros u m H. exact (proj2 H). }
  intros ?.
  eapply safe_bind; [apply safe_get_parent_int_map | intros w].
  eapply safe_bind;
    [apply safe_pure; intros _; apply safe_set_parent_int_map | intros ?].
  apply safe_ret. intros m Hm. split; [apply u32_range | exact Hm].
Qed.

Lemma safe_generate_map_cache i pending :
  0 <= pending -> negb (pending =? 0) = true ->
  scans_safely unsigned_maps (generate_map_cache i pending)
    (fun x' m => 0 <= x' /\ unsigned_maps m).
Proof.
  intros Hd Hc. apply negb_true_iff, Z.eqb_neq in Hc.
  unfold generate_map_cache.
  eapply safe_bind; [apply safe_ffs; lia | intros bit].
  eapply safe_bind; [apply safe_set_map_cache | intros ?].
  apply safe_ret. intros m Hm. split; [apply u32_range | exact Hm].
Qed.

Lemma safe_validate_parent_mask fuel hints :
  scans_safely
    (fun m => 0 < possible_parent_mask (priv m) /\ unsigned_maps m)
    (validate_parent_mask fuel hints)
    (fun _ m => unsigned_maps m).
Proof.
  intros m [Hmask Hm]. unfold validate_parent_mask.
  unfold bind at 1. unfold get_priv at 1. cbv beta iota.
  match goal with
  | |- match ?c m with _ => _ end =>
      enough (H : scans_safely unsigned_maps c (fun _ m => unsigned_maps m))
        by exact (H m Hm)
  end.
  eapply safe_bind; [apply safe_ffs; exact Hmask | intros fallback_parent].
  eapply safe_bind.
  { apply (safe_for unsigned_maps (fun x : Z * Z => 0 <= snd x));
      [| cbn; lia].
    intros i x Hx. now apply safe_take_hint. }
  intros [proceed_mask duplicated_mask]. apply safe_pure. cbn [snd]. intros Hd.
  eapply safe_bind.
  { apply (safe_while unsigned_maps (fun _ : Z => True)); [| exact I].
    intros x _ Hc. now apply safe_fallback_homeless. }
  intros x1. apply safe_pure. intros _.
  eapply safe_bind.
  { apply (safe_while unsigned_maps (fun d : Z => 0 <= d)); [| exact Hd].
    intros d Hd' Hc. now apply safe_fallback_duplicated. }
  intros x2. apply safe_pure. intros _.
  eapply safe_weaken with (P := unsigned_maps)
    (Q := fun (_ : unit) m => True /\ unsigned_maps m);
    [| auto | intros u m' H; exact (proj2 H)].
  apply (safe_for unsigned_maps (fun _ : unit => True)); [| exact I].
  intros i [] _.
  eapply safe_bind; [apply safe_get_parent_int_map | intros pending].
  apply safe_pure. intros Hp.
  eapply safe_bind.
  { apply (safe_while unsigned_maps (fun d : Z => 0 <= d)); [| exact Hp].
    intros d Hd' Hc. now apply safe_generate_map_cache. }
  intros x3. apply safe_pure. intros _. apply safe_ret. auto.
Qed.

Lemma safe_map_cache_set_core irq core :
  scans_safely unsigned_maps (map_cache_set_core irq core)
    (fun _ m => unsigned_maps m).
Proof.
  unfold map_cache_set_core.
  eapply safe_bind; [apply safe_get_map_cache | intros c].
  eapply safe_bind; [apply safe_set_map_cache | intros ?].
  eapply safe_bind; [apply safe_get_map_cache | intros c'].
  apply safe_set_map_cache.
Qed.

Lemma safe_iointc_of_init fuel node :
  scans_safely
    (fun m => 0 <= possible_parent_mask (priv m) /\ unsigned_maps m)
    (iointc_of_init fuel node)
    (fun _ m => unsigned_maps m).
Proof.
  unfold iointc_of_init.
  destruct (negb (kzalloc_ok node)); [apply safe_ret; tauto |].
  destruct (negb (of_iomap_ok node)); [apply safe_ret; tauto |].
  intros m0 H0.
  unfold bind at 1. unfold get_priv at 1. cbv beta iota.
  unfold bind at 1. unfold put_priv at 1. cbv beta iota.
  match goal with
  | |- match ?c ?m1 with _ => _ end =>
      enough (H : scans_safely
                    (fun m => 0 <= possible_parent_mask (priv m)
                              /\ unsigned_maps m)
                    c (fun _ m => unsigned_maps m))
        by (apply H; exact H0)
  end.
  clear m0 H0.
  eapply safe_bind with
    (R := fun _ m => True /\ 0 <= possible_parent_mask (priv m)
                     /\ unsigned_maps m).
  { apply (safe_for
             (fun m => 0 <= possible_parent_mask (priv m) /\ unsigned_maps m)
             (fun _ : unit => True)); [| exact I].
    intros i [] _. destruct (0 <=? of_irq_get_byname node i).
    - intros m [Hp Hm]. cbn. split; [exact I |]. split; [| exact Hm].
      apply Z.mod_pos_bound. lia.
    - apply safe_ret. auto. }
  intros ?. apply safe_pure. intros _.
  intros m [Hp Hm]. unfold bind at 1. unfold get_priv at 1. cbv beta iota.
  destruct (Z.eqb_spec (possible_parent_mask (priv m)) 0) as [Hz | Hnz];
    [exact Hm |].
  destruct (parent_int_map_sz node <? 4); [exact Hm |].
  destruct (negb (irq_domain_add_linear_ok node)); [exact Hm |].
  destruct (negb (irq_alloc_domain_generic_chips node =? 0)); [exact Hm |].
  match goal with
  | |- match ?c m with _ => _ end =>
      enough (H : scans_safely
                    (fun m => 0 < possible_parent_mask (priv m)
                              /\ unsigned_maps m)
                    c (fun _ m => unsigned_maps m))
        by (apply H; split; [lia | exact Hm])
  end.
  eapply safe_bind; [apply safe_validate_parent_mask | intros ?].
  eapply safe_bind.
  { apply (safe_for unsigned_maps (fun _ : unit => True)); [| exact I].
    intros i [] _.
    eapply safe_weaken; [apply safe_map_cache_set_core | auto | cbn; auto]. }
  intros ?. apply safe_pure. intros _. apply safe_ret. auto.
Qed.

End ScanSafety.

(** C10. When the mask of available parents is not zero, which
    [iointc_of_init] makes sure of before it calls, no [__ffs] in
    [validate_parent_mask] is given the word 0: the run does not end in the
    undefined scan, whatever the fuel, the hint table and the unsigned
    words in the handler maps; from a zeroed [priv] the whole of
    [iointc_of_init] never reaches it; and with the mask 0 the first scan
    of [validate_parent_mask] would be the undefined one. *)
Theorem ffs_of_zero_unreachable fuel hints m :
  0 < possible_parent_mask (priv m) ->
  Forall (fun h => 0 <= h) (handler (priv m)) ->
  validate_parent_mask fuel hints m <> Undefined FfsOfZero
  /\ (forall node, iointc_of_init fuel node boot <> Undefined FfsOfZero)
  /\ (forall m0, possible_parent_mask (priv m0) = 0 ->
         validate_parent_mask fuel hints m0 = Undefined FfsOfZero).
Proof.
  intros Hmask Hm. split; [| split].
  - pose proof (safe_validate_parent_mask fuel hints m (conj Hmask Hm)) as H.
    intros E. rewrite E in H. exact H.
  - intros node.
    assert (Hboot : 0 <= possible_parent_mask (priv boot)
                    /\ unsigned_maps boot).
    { split; [cbn; lia |]. unfold unsigned_maps. cbn.
      repeat constructor; lia. }
    pose proof (safe_iointc_of_init fuel node boot Hboot) as H.
    intros E. rewrite E in H. exact H.
  - intros m0 Hz. unfold validate_parent_mask.
    unfold bind at 1. unfold get_priv at 1. cbv beta iota.
    unfold bind at 1. now rewrite Hz.
Qed.

Lemma ffs_of_zero_unreachable_witness :
  validate_parent_mask 33 [32; 96; 0; 0] (probed 15) <> Undefined FfsOfZero
  /\ (forall node, iointc_of_init 33 node boot <> Undefined FfsOfZero)
  /\ (forall m0, possible_parent_mask (priv m0) = 0 ->
         validate_parent_mask 33 [32; 96; 0; 0] m0 = Undefined FfsOfZero).
Proof.
  apply (ffs_of_zero_unreachable 33 [32; 96; 0; 0] (probed 15)).
  - cbn. lia.
  - cbn. repeat constructor; lia.
Defined.

(** ** Running the commands on the controller *)

Local Open Scope io_scope.

Section ChipPrimitives.

Lemma io_bind_Done {A B} (c : IO A) (k : A -> IO B) s a s' :
  c s = Done (a, s') -> io_bind c k s = k a s'.
Proof. intros H. unfold io_bind. now rewrite H. Qed.

Lemma lift_Done {A} (c : M A) s a m :
  c (mach s) = Done (a, m) -> lift c s = Done (a, with_mach m s).
Proof. intros H. unfold lift. now rewrite H. Qed.

Lemma with_mach_same s : with_mach (mach s) s = s.
Proof. now destruct s. Qed.

End ChipPrimitives.

(** A loop on the controller that scans a word with [__ffs] runs its body
    once for each set bit, lowest first. *)
Section ChipScanLoop.

Context {L : Type}.
Variable word : L -> Z.
Variable cond : L -> bool.
Variable body : L -> IO L.
Variable step : Z -> chip -> chip.

Hypothesis cond_word : forall x, cond x = negb (word x =? 0).
Hypothesis body_step :
  forall x s p, word x = Zpos p -> Zpos p < 2 ^ 32 ->
    exists x', body x s = Done (x', step (ctz p) s)
               /\ word x' = drop_lowest p.

Lemma io_while_scan fuel : forall x s,
  0 <= word x < 2 ^ 32 ->
  (length (bits (word x)) < fuel)%nat ->
  exists x', io_while fuel cond body x s
             = Done (x', io_steps step (bits (word x)) s)
             /\ word x' = 0.
Proof.
  induction fuel as [ | fuel IH]; intros x s Hw Hfuel; [lia |].
  cbn [io_while]. rewrite cond_word.
  destruct (word x) as [ | p | p] eqn:Ew; [| | lia].
  - exists x. cbn. now rewrite Ew.
  - cbn [Z.eqb negb].
    destruct (body_step x s p Ew ltac:(lia)) as (x' & Hb & Hx').
    rewrite (io_bind_Done _ _ _ _ _ Hb).
    rewrite bits_step in Hfuel |- *. cbn [length] in Hfuel.
    pose proof (drop_lowest_nonneg p). pose proof (drop_lowest_le p).
    destruct (IH x' (step (ctz p) s)) as (x'' & Hrun & Hz);
      rewrite ?Hx'; try lia.
    exists x''. rewrite Hx' in Hrun. cbn. auto.
Qed.

End ChipScanLoop.

(** ** [iointc_chained_handle_irq] *)

Section ChainedHandler.

Lemma handle_pending_step pending s p :
  pending = Zpos p -> Zpos p < 2 ^ 32 ->
  exists x',
    handle_pending pending s
    = Done (x', with_calls [handle_irq (ctz p)] s)
    /\ x' = drop_lowest p.
Proof.
  intros -> Hlt. pose proof (ctz_nonneg p) as Hc.
  exists (u32 (Z.land (Zpos p) (ulong (Z.lnot (BIT (ctz p)))))). split.
  - unfold handle_pending, io_bind, lift, called, io_ret. cbn.
    now destruct s.
  - apply Z.bits_inj'. intros n Hn.
    bits_rewrite. destruct (Z.ltb_spec n 32) as [Hn32 | Hn32].
    + bool_cases.
    + rewrite (testbit_high (Zpos p)) by lia. reflexivity.
Qed.

Lemma handle_steps bs : forall s,
  io_steps (fun b => with_calls [handle_irq b]) bs s
  = with_calls (map handle_irq bs) s.
Proof.
  induction bs as [ | b bs IH]; intros s.
  - destruct s. unfold with_calls. cbn. now rewrite app_nil_r.
  - change (io_steps (fun b => with_calls [handle_irq b]) (b :: bs) s)
      with (io_steps (fun b => with_calls [handle_irq b]) bs
              (with_calls [handle_irq b] s)).
    rewrite IH. unfold with_calls. cbn. now rewrite <- app_assoc.
Qed.

Lemma handle_all fuel pending s :
  0 <= pending < 2 ^ 32 -> (32 < fuel)%nat ->
  exists x',
    io_while fuel (fun pending => negb (pending =? 0)) handle_pending
      pending s
    = Done (x', with_calls (map handle_irq (bits pending)) s).
Proof.
  intros Hr Hfuel. pose proof (length_bits _ Hr) as Hlen.
  destruct (io_while_scan (fun x => x) _ _
              (fun b => with_calls [handle_irq b])
              (fun x => eq_refl) handle_pending_step fuel pending s Hr
              ltac:(lia)) as (x' & Hrun & _).
  exists x'. now rewrite Hrun, handle_steps.
Qed.

End ChainedHandler.

(** X1. When the status register reads a word that is not 0,
    [iointc_chained_handle_irq] handles each line set in it once, lowest
    first, between [chained_irq_enter] and [chained_irq_exit], whichever
    parent it was called for; it reports nothing spurious and touches
    neither [priv], the registers nor the mask cache. *)
Theorem chained_handler_handles_each_pending_line fuel i s :
  u32 (regs s IOINTC_REG_INTC_STATUS) <> 0 -> (32 < fuel)%nat ->
  iointc_chained_handle_irq fuel i s =
  Done (tt,
        with_calls
          (chained_enter
           :: map handle_irq (bits (u32 (regs s IOINTC_REG_INTC_STATUS)))
           ++ [chained_exit]) s)
  /\ bits (u32 (regs s IOINTC_REG_INTC_STATUS))
     = List.filter (Z.testbit (regs s IOINTC_REG_INTC_STATUS)) lines.
Proof.
  intros Hnz Hfuel.
  pose proof (u32_range (regs s IOINTC_REG_INTC_STATUS)) as Hr. split.
  - unfold iointc_chained_handle_irq.
    unfold io_bind at 1. unfold called at 1.
    unfold io_bind at 1. unfold readl at 1.
    cbn [regs mach gc_mask_cache calls].
    destruct (Z.eqb_spec (u32 (regs s IOINTC_REG_INTC_STATUS)) 0) as [E | _];
      [contradiction |].
    unfold io_bind at 1. unfold io_ret at 1.
    match goal with
    | |- io_bind (io_while _ _ _ ?w) _ ?s1 = _ =>
        destruct (handle_all fuel w s1 Hr Hfuel) as [x' Hrun]
    end.
    unfold io_bind at 1. rewrite Hrun.
    unfold called, with_calls. cbn. rewrite <- !app_assoc. reflexivity.
  - rewrite bits_filter by exact Hr. apply filter_ext_in.
    intros n Hn. apply in_lines in Hn. rewrite testbit_u32.
    destruct (Z.ltb_spec n 32); [reflexivity | lia].
Qed.

Lemma chained_handler_handles_each_pending_line_witness :
  iointc_chained_handle_irq 33 2 (cold (fun _ => 1040)) =
  Done (tt,
        with_calls
          (chained_enter
           :: map handle_irq
                (bits (u32 (regs (cold (fun _ => 1040))
                              IOINTC_REG_INTC_STATUS)))
           ++ [chained_exit]) (cold (fun _ => 1040)))
  /\ bits (u32 (regs (cold (fun _ => 1040)) IOINTC_REG_INTC_STATUS))
     = List.filter
         (Z.testbit (regs (cold (fun _ => 1040)) IOINTC_REG_INTC_STATUS))
         lines.
Proof.
  apply (chained_handler_handles_each_pending_line 33 2
           (cold (fun _ => 1040))).
  - vm_compute. discriminate.
  - lia.
Defined.

(** The run of [iointc_chained_handle_irq] on a status of 0, with the test
    of the LPC line as the code writes it. *)
Lemma chained_zero_status fuel i s :
  u32 (regs s IOINTC_REG_INTC_STATUS) = 0 ->
  0 <= i < Z.of_nat (length (handler (priv (mach s)))) ->
  (0 < fuel)%nat ->
  iointc_chained_handle_irq fuel i s =
  Done (tt,
        with_calls
          [chained_enter;
           if have_lpc_irq_bug (priv (mach s))
              && negb (Z.land
                         (Z.land
                            (nth (Z.to_nat i) (handler (priv (mach s))) 0)
                            (u32 (Z.lnot (gc_mask_cache s))))
                         (BIT BUGGY_LPC_IRQ) =? 0)
           then handle_irq BUGGY_LPC_IRQ else spurious;
           chained_exit] s).
Proof.
  intros Hz Hi Hfuel. destruct fuel as [ | fuel]; [lia |].
  unfold iointc_chained_handle_irq.
  unfold io_bind at 1. unfold called at 1.
  unfold io_bind at 1. unfold readl at 1.
  cbn [regs mach gc_mask_cache calls]. rewrite Hz. cbn [Z.eqb].
  unfold io_bind at 1. unfold io_bind at 1. unfold lift at 1.
  unfold get_priv at 1. cbn [mach regs gc_mask_cache calls].
  destruct (have_lpc_irq_bug (priv (mach s))); cbn [andb].
  - unfold io_bind at 1. unfold io_bind at 1.
    match goal with
    | |- context [lift (get_parent_int_map i) ?s1] =>
        rewrite (lift_Done (get_parent_int_map i) s1 _ _
                   (get_parent_int_map_ok i (mach s1) Hi))
    end.
    unfold io_bind at 1. unfold get_mask_cache at 1.
    cbn [mach regs gc_mask_cache calls with_mach]. unfold io_ret at 1.
    destruct (Z.land
                (Z.land (nth (Z.to_nat i) (handler (priv (mach s))) 0)
                   (u32 (Z.lnot (gc_mask_cache s))))
                (BIT BUGGY_LPC_IRQ) =? 0);
      unfold io_bind, called, io_ret, with_calls, with_mach; cbn;
      rewrite <- !app_assoc; reflexivity.
  - unfold io_bind, called, io_ret, with_calls, with_mach; cbn.
    rewrite <- !app_assoc. reflexivity.
Qed.

(** The test of the LPC line, bit by bit. *)
Lemma lpc_enabled parent_int_map mask_cache :
  negb (Z.land (Z.land parent_int_map (u32 (Z.lnot mask_cache)))
          (BIT BUGGY_LPC_IRQ) =? 0)
  = Z.testbit parent_int_map BUGGY_LPC_IRQ
    && negb (Z.testbit mask_cache BUGGY_LPC_IRQ).
Proof.
  pose proof (land_BIT (Z.land parent_int_map (u32 (Z.lnot mask_cache)))
                BUGGY_LPC_IRQ ltac:(unfold BUGGY_LPC_IRQ; lia)) as Hland.
  unfold available in Hland.
  rewrite Z.land_spec, testbit_u32, Z.lnot_spec in Hland
    by (unfold BUGGY_LPC_IRQ; lia).
  change (BUGGY_LPC_IRQ <? 32) with true in Hland. cbn [andb] in Hland.
  now rewrite Hland, negb_involutive.
Qed.

(** X2. When the status register reads 0, [iointc_chained_handle_irq] makes one
    call between [chained_irq_enter] and [chained_irq_exit]: it handles the
    LPC line 10 if the controller has the LPC bug, line 10 is in the map of
    the parent it was called for and bit 10 of the mask cache is clear, and
    reports a spurious interrupt otherwise. *)
Theorem chained_handler_blames_lpc_or_spurious fuel i s :
  u32 (regs s IOINTC_REG_INTC_STATUS) = 0 ->
  0 <= i < Z.of_nat (length (handler (priv (mach s)))) ->
  (0 < fuel)%nat ->
  iointc_chained_handle_irq fuel i s =
  Done (tt,
        with_calls
          [chained_enter;
           if have_lpc_irq_bug (priv (mach s))
              && Z.testbit (nth (Z.to_nat i) (handler (priv (mach s))) 0)
                   BUGGY_LPC_IRQ
              && negb (Z.testbit (gc_mask_cache s) BUGGY_LPC_IRQ)
           then handle_irq BUGGY_LPC_IRQ else spurious;
           chained_exit] s).
Proof.
  intros Hz Hi Hfuel.
  rewrite chained_zero_status by assumption.
  rewrite lpc_enabled, andb_assoc. reflexivity.
Qed.

Lemma chained_handler_blames_lpc_or_spurious_witness :
  iointc_chained_handle_irq 1 0 (cold (fun _ => 0)) =
  Done (tt,
        with_calls
          [chained_enter;
           if have_lpc_irq_bug (priv (mach (cold (fun _ => 0))))
              && Z.testbit
                   (nth (Z.to_nat 0)
                      (handler (priv (mach (cold (fun _ => 0))))) 0)
                   BUGGY_LPC_IRQ
              && negb (Z.testbit (gc_mask_cache (cold (fun _ => 0)))
                         BUGGY_LPC_IRQ)
           then handle_irq BUGGY_LPC_IRQ else spurious;
           chained_exit] (cold (fun _ => 0))).
Proof.
  apply (chained_handler_blames_lpc_or_spurious 1 0 (cold (fun _ => 0)));
    [reflexivity | vm_compute; split; [discriminate | reflexivity] | lia].
Defined.

(** ** [iointc_set_type] *)

Section SetType.

Lemma set_type_run mask type s :
  In type trigger_types ->
  iointc_set_type mask type s = Done (0, typed mask type s).
Proof.
  intros Hin. unfold trigger_types in Hin. cbn [In] in Hin.
  destruct Hin as [<- | [<- | [<- | [<- | []]]]];
    unfold iointc_set_type, typed, io_bind, called, iointc_set_bit, readl,
      writel, io_ret, set_bits, stored;
    cbn; rewrite <- !app_assoc; reflexivity.
Qed.

Lemma testbit_set_bits mask set v n :
  0 <= n < 32 ->
  Z.testbit (set_bits mask set v) n =
  if Z.testbit mask n then set else Z.testbit v n.
Proof.
  intros Hn. unfold set_bits. destruct set; bits_rewrite;
    destruct (Z.ltb_spec n 32); try lia;
    destruct (Z.testbit mask n), (Z.testbit v n); reflexivity.
Qed.

Lemma set_bits_range mask set v : 0 <= set_bits mask set v < 2 ^ 32.
Proof. apply u32_range. Qed.

Lemma words_eq a b :
  0 <= a < 2 ^ 32 -> 0 <= b < 2 ^ 32 ->
  (forall n, 0 <= n < 32 -> Z.testbit a n = Z.testbit b n) -> a = b.
Proof.
  intros Ha Hb H. apply Z.bits_inj'. intros n Hn.
  destruct (Z.ltb_spec n 32); [apply H; lia |].
  now rewrite !testbit_high by lia.
Qed.

Lemma regs_typed_edge mask type s :
  regs (typed mask type s) IOINTC_REG_INTC_EDGE
  = set_bits mask (edge_triggered type) (regs s IOINTC_REG_INTC_EDGE).
Proof. reflexivity. Qed.

Lemma regs_typed_pol mask type s :
  regs (typed mask type s) IOINTC_REG_INTC_POL
  = set_bits mask (active_high type) (regs s IOINTC_REG_INTC_POL).
Proof. reflexivity. Qed.

Lemma regs_typed_other mask type s a :
  a <> IOINTC_REG_INTC_EDGE -> a <> IOINTC_REG_INTC_POL ->
  regs (typed mask type s) a = regs s a.
Proof.
  intros He Hp. unfold typed. cbn [regs]. unfold stored.
  destruct (Z.eqb_spec a IOINTC_REG_INTC_POL); [contradiction |].
  destruct (Z.eqb_spec a IOINTC_REG_INTC_EDGE); [contradiction |].
  reflexivity.
Qed.

End SetType.

(** X4. With one of the four trigger types it knows, [iointc_set_type] returns
    0 with the lock released and the type recorded; in the edge and in the
    polarity register the bits of [mask] say whether the type is edge
    triggered and whether it is active high or rising, the other bits are
    as before, and no other register changes. *)
Theorem set_type_programs_the_lines_of_the_mask mask type s :
  In type trigger_types ->
  iointc_set_type mask type s = Done (0, typed mask type s)
  /\ (forall n, 0 <= n < 32 ->
        Z.testbit (regs (typed mask type s) IOINTC_REG_INTC_EDGE) n =
        if Z.testbit mask n then edge_triggered type
        else Z.testbit (regs s IOINTC_REG_INTC_EDGE) n)
  /\ (forall n, 0 <= n < 32 ->
        Z.testbit (regs (typed mask type s) IOINTC_REG_INTC_POL) n =
        if Z.testbit mask n then active_high type
        else Z.testbit (regs s IOINTC_REG_INTC_POL) n)
  /\ (forall a, a <> IOINTC_REG_INTC_EDGE -> a <> IOINTC_REG_INTC_POL ->
        regs (typed mask type s) a = regs s a).
Proof.
  intros Hin. split; [now apply set_type_run |].
  split; [| split].
  - intros n Hn. rewrite regs_typed_edge. now apply testbit_set_bits.
  - intros n Hn. rewrite regs_typed_pol. now apply testbit_set_bits.
  - intros a He Hp. now apply regs_typed_other.
Qed.

Lemma set_type_programs_the_lines_of_the_mask_witness :
  iointc_set_type 1024 IRQ_TYPE_EDGE_FALLING (cold (fun _ => 0))
  = Done (0, typed 1024 IRQ_TYPE_EDGE_FALLING (cold (fun _ => 0)))
  /\ (forall n, 0 <= n < 32 ->
        Z.testbit (regs (typed 1024 IRQ_TYPE_EDGE_FALLING (cold (fun _ => 0)))
                     IOINTC_REG_INTC_EDGE) n =
        if Z.testbit 1024 n then edge_triggered IRQ_TYPE_EDGE_FALLING
        else Z.testbit (regs (cold (fun _ => 0)) IOINTC_REG_INTC_EDGE) n)
  /\ (forall n, 0 <= n < 32 ->
        Z.testbit (regs (typed 1024 IRQ_TYPE_EDGE_FALLING (cold (fun _ => 0)))
                     IOINTC_REG_INTC_POL) n =
        if Z.testbit 1024 n then active_high IRQ_TYPE_EDGE_FALLING
        else Z.testbit (regs (cold (fun _ => 0)) IOINTC_REG_INTC_POL) n)
  /\ (forall a, a <> IOINTC_REG_INTC_EDGE -> a <> IOINTC_REG_INTC_POL ->
        regs (typed 1024 IRQ_TYPE_EDGE_FALLING (cold (fun _ => 0))) a
        = regs (cold (fun _ => 0)) a).
Proof.
  apply (set_type_programs_the_lines_of_the_mask 1024 IRQ_TYPE_EDGE_FALLING
           (cold (fun _ => 0))).
  cbn. tauto.
Defined.

(** X5. With any other trigger type [iointc_set_type] returns [-EINVAL] from
    inside the locked region: it has taken the lock of the generic chip
    and does not release it; it writes no register and records no type. *)
Theorem set_type_unknown_type_keeps_the_lock mask type s :
  ~ In type trigger_types ->
  iointc_set_type mask type s = Done (- EINVAL, with_calls [gc_lock] s).
Proof.
  intros Hout. unfold trigger_types in Hout. cbn [In] in Hout.
  unfold iointc_set_type. unfold io_bind at 1. unfold called at 1.
  destruct (Z.eqb_spec type IRQ_TYPE_LEVEL_HIGH); [intuition congruence |].
  destruct (Z.eqb_spec type IRQ_TYPE_LEVEL_LOW); [intuition congruence |].
  destruct (Z.eqb_spec type IRQ_TYPE_EDGE_RISING); [intuition congruence |].
  destruct (Z.eqb_spec type IRQ_TYPE_EDGE_FALLING); [intuition congruence |].
  reflexivity.
Qed.

Lemma set_type_unknown_type_keeps_the_lock_witness :
  iointc_set_type 1024 3 (cold (fun _ => 0))
  = Done (- EINVAL, with_calls [gc_lock] (cold (fun _ => 0))).
Proof.
  apply (set_type_unknown_type_keeps_the_lock 1024 3 (cold (fun _ => 0))).
  cbn. intros [H | [H | [H | [H | []]]]]; discriminate H.
Defined.

(** X6. Setting the types of two interrupts whose masks share no line gives
    the same registers in either order. *)
Theorem set_type_of_disjoint_masks_commutes mask1 type1 mask2 type2 s :
  In type1 trigger_types -> In type2 trigger_types ->
  Z.land mask1 mask2 = 0 ->
  exists s12 s21,
    (iointc_set_type mask1 type1;;; iointc_set_type mask2 type2) s
    = Done (0, s12)
    /\ (iointc_set_type mask2 type2;;; iointc_set_type mask1 type1) s
       = Done (0, s21)
    /\ forall a, regs s12 a = regs s21 a.
Proof.
  intros H1 H2 Hdis.
  exists (typed mask2 type2 (typed mask1 type1 s)),
    (typed mask1 type1 (typed mask2 type2 s)).
  split; [| split].
  - unfold io_bind. now rewrite (set_type_run _ _ _ H1), (set_type_run _ _ _ H2).
  - unfold io_bind. now rewrite (set_type_run _ _ _ H2), (set_type_run _ _ _ H1).
  - assert (Hbit : forall n, Z.testbit mask1 n && Z.testbit mask2 n = false).
    { intros n. rewrite <- Z.land_spec, Hdis. apply Z.testbit_0_l. }
    intros a.
    destruct (Z.eq_dec a IOINTC_REG_INTC_EDGE) as [-> | He];
      [| destruct (Z.eq_dec a IOINTC_REG_INTC_POL) as [-> | Hp]].
    + rewrite !regs_typed_edge.
      apply words_eq; try apply set_bits_range.
      intros n Hn. rewrite !testbit_set_bits by assumption.
      specialize (Hbit n).
      destruct (Z.testbit mask1 n), (Z.testbit mask2 n);
        (discriminate || reflexivity).
    + rewrite !regs_typed_pol.
      apply words_eq; try apply set_bits_range.
      intros n Hn. rewrite !testbit_set_bits by assumption.
      specialize (Hbit n).
      destruct (Z.testbit mask1 n), (Z.testbit mask2 n);
        (discriminate || reflexivity).
    + now rewrite !regs_typed_other.
Qed.

Lemma set_type_of_disjoint_masks_commutes_witness :
  exists s12 s21,
    (iointc_set_type 1024 IRQ_TYPE_EDGE_FALLING;;;
     iointc_set_type 4 IRQ_TYPE_LEVEL_HIGH) (cold (fun _ => 0))
    = Done (0, s12)
    /\ (iointc_set_type 4 IRQ_TYPE_LEVEL_HIGH;;;
        iointc_set_type 1024 IRQ_TYPE_EDGE_FALLING) (cold (fun _ => 0))
       = Done (0, s21)
    /\ forall a, regs s12 a = regs s21 a.
Proof.
  apply (set_type_of_disjoint_masks_commutes 1024 IRQ_TYPE_EDGE_FALLING
           4 IRQ_TYPE_LEVEL_HIGH (cold (fun _ => 0)));
    [cbn; tauto | cbn; tauto | reflexivity].
Defined.

(** X7. Setting the type of an interrupt twice leaves the registers as the
    second setting alone leaves them. *)
Theorem set_type_last_setting_wins mask type1 type2 s :
  In type1 trigger_types -> In type2 trigger_types ->
  exists s12 s2,
    (iointc_set_type mask type1;;; iointc_set_type mask type2) s
    = Done (0, s12)
    /\ iointc_set_type mask type2 s = Done (0, s2)
    /\ forall a, regs s12 a = regs s2 a.
Proof.
  intros H1 H2.
  exists (typed mask type2 (typed mask type1 s)), (typed mask type2 s).
  split; [| split].
  - unfold io_bind. now rewrite (set_type_run _ _ _ H1), (set_type_run _ _ _ H2).
  - now apply set_type_run.
  - intros a.
    destruct (Z.eq_dec a IOINTC_REG_INTC_EDGE) as [-> | He];
      [| destruct (Z.eq_dec a IOINTC_REG_INTC_POL) as [-> | Hp]].
    + rewrite !regs_typed_edge.
      apply words_eq; try apply set_bits_range.
      intros n Hn. rewrite !testbit_set_bits by assumption.
      destruct (Z.testbit mask n); reflexivity.
    + rewrite !regs_typed_pol.
      apply words_eq; try apply set_bits_range.
      intros n Hn. rewrite !testbit_set_bits by assumption.
      destruct (Z.testbit mask n); reflexivity.
    + now rewrite !regs_typed_other.
Qed.

Lemma set_type_last_setting_wins_witness :
  exists s12 s2,
    (iointc_set_type 1024 IRQ_TYPE_EDGE_FALLING;;;
     iointc_set_type 1024 IRQ_TYPE_LEVEL_HIGH) (cold (fun _ => 0))
    = Done (0, s12)
    /\ iointc_set_type 1024 IRQ_TYPE_LEVEL_HIGH (cold (fun _ => 0))
       = Done (0, s2)
    /\ forall a, regs s12 a = regs s2 a.
Proof.
  apply (set_type_last_setting_wins 1024 IRQ_TYPE_EDGE_FALLING
           IRQ_TYPE_LEVEL_HIGH (cold (fun _ => 0))); cbn; tauto.
Defined.

(** ** [write_map_cache] and [iointc_resume] *)

Section Resume.

Lemma stored_same a v r : stored a v r a = v.
Proof. unfold stored. now rewrite Z.eqb_refl. Qed.

Lemma stored_other a b v r : a <> b -> stored b v r a = r a.
Proof.
  intros H. unfold stored. destruct (Z.eqb_spec a b); [contradiction |].
  reflexivity.
Qed.

Lemma write_map_cache_ok irq s :
  0 <= irq < Z.of_nat (length (map_cache (priv (mach s)))) ->
  write_map_cache irq s =
  Done (tt,
        {| mach := mach s;
           regs := stored irq
                     (u8 (nth (Z.to_nat irq) (map_cache (priv (mach s))) 0))
                     (regs s);
           gc_mask_cache := gc_mask_cache s;
           calls := calls s ++
                    [bus_writeb
                       (u8 (nth (Z.to_nat irq) (map_cache (priv (mach s))) 0))
                       irq] |}).
Proof.
  intros Hi. unfold write_map_cache, io_bind, lift, get_map_cache, bind,
    get_priv.
  rewrite array_get_ok by assumption. unfold writeb, IOINTC_REG_INTx_MAP.
  cbn [mach regs gc_mask_cache calls]. now rewrite Z.mul_1_r.
Qed.

Lemma write_maps n : forall lo s,
  0 <= lo ->
  lo + Z.of_nat n <= Z.of_nat (length (map_cache (priv (mach s)))) ->
  exists s',
    io_for n lo (fun i _ => write_map_cache i) tt s = Done (tt, s')
    /\ mach s' = mach s
    /\ gc_mask_cache s' = gc_mask_cache s
    /\ calls s' =
       calls s ++
       map (fun i => bus_writeb
                       (u8 (nth (Z.to_nat i) (map_cache (priv (mach s))) 0)) i)
         (upfrom lo n)
    /\ forall a,
         regs s' a =
         if (lo <=? a) && (a <? lo + Z.of_nat n)
         then u8 (nth (Z.to_nat a) (map_cache (priv (mach s))) 0)
         else regs s a.
Proof.
  induction n as [ | n IH]; intros lo s Hlo Hhi.
  - exists s. cbn [io_for upfrom map]. rewrite app_nil_r.
    repeat split. intros a.
    destruct (Z.leb_spec lo a), (Z.ltb_spec a (lo + Z.of_nat 0));
      cbn; lia || reflexivity.
  - cbn [io_for]. unfold io_bind at 1.
    rewrite write_map_cache_ok by lia.
    match goal with
    | |- context [io_for n (lo + 1) _ tt ?s1] =>
        destruct (IH (lo + 1) s1 ltac:(lia) ltac:(cbn [mach]; lia))
          as (s' & Hrun & Hm & Hg & Hc & Hr)
    end.
    exists s'. cbn [mach regs gc_mask_cache calls] in *.
    split; [exact Hrun |]. split; [exact Hm |]. split; [exact Hg |].
    split.
    + rewrite Hc, <- app_assoc. reflexivity.
    + intros a. rewrite Hr. unfold stored.
      destruct (Z.leb_spec (lo + 1) a), (Z.ltb_spec a (lo + 1 + Z.of_nat n)),
        (Z.leb_spec lo a), (Z.ltb_spec a (lo + Z.of_nat (S n))),
        (Z.eqb_spec a lo); cbn; try lia; try reflexivity.
      subst a. reflexivity.
Qed.

End Resume.

(** The run of [iointc_resume]: what each register holds after it, and
    the calls it makes. *)
Lemma resume_run s :
  length (map_cache (priv (mach s))) = 32%nat ->
  exists s',
    iointc_resume s = Done (tt, s')
    /\ mach s' = mach s
    /\ gc_mask_cache s' = gc_mask_cache s
    /\ (forall a,
          regs s' a =
          if a =? IOINTC_REG_INTC_ENABLE then u32 (Z.lnot (gc_mask_cache s))
          else if a =? IOINTC_REG_INTC_DISABLE then u32 (gc_mask_cache s)
          else if (0 <=? a) && (a <? 32)
          then u8 (nth (Z.to_nat a) (map_cache (priv (mach s))) 0)
          else regs s a)
    /\ calls s' =
       calls s ++
       gc_lock
       :: map (fun i => bus_writeb
                          (u8 (nth (Z.to_nat i) (map_cache (priv (mach s))) 0))
                          i) lines
       ++ [bus_writel (u32 (gc_mask_cache s)) IOINTC_REG_INTC_DISABLE;
           bus_writel (u32 (Z.lnot (gc_mask_cache s))) IOINTC_REG_INTC_ENABLE;
           gc_unlock].
Proof.
  intros Hlen. unfold iointc_resume.
  unfold io_bind at 1. unfold called at 1. cbv beta iota.
  unfold io_bind at 1.
  match goal with
  | |- context [io_for _ 0 _ tt ?s1] =>
      destruct (write_maps (Z.to_nat IOINTC_CHIP_IRQ) 0 s1 ltac:(lia))
        as (s1' & Hrun & Hm & Hg & Hc & Hr)
  end.
  { cbn [mach]. rewrite Hlen.
    change (Z.of_nat (Z.to_nat IOINTC_CHIP_IRQ)) with 32. lia. }
  rewrite Hrun.
  cbn [mach regs gc_mask_cache calls] in Hm, Hg, Hc, Hr.
  unfold io_bind, get_mask_cache, writel, called.
  eexists. split; [reflexivity |].
  cbn [mach regs gc_mask_cache calls]. rewrite Hg.
  assert (Hu : u32 (u32 (Z.lnot (gc_mask_cache s)))
               = u32 (Z.lnot (gc_mask_cache s)))
    by (apply u32_small, u32_range).
  split; [exact Hm |]. split; [reflexivity |]. split.
  - intros a. unfold stored. rewrite Hu, Hr.
    change (Z.of_nat (Z.to_nat IOINTC_CHIP_IRQ)) with 32.
    reflexivity.
  - rewrite Hc, Hu. unfold lines. rewrite <- !app_assoc. reflexivity.
Qed.

(** X8. [iointc_resume] writes each of the 32 entries of the map cache to its
    map register, then the mask cache to the disable register and its
    complement to the enable register, so that each line is in exactly one
    of the two words; it changes neither [priv] nor the mask cache nor any
    other register, and releases the lock it takes. *)
Theorem resume_writes_back_the_caches s :
  length (map_cache (priv (mach s))) = 32%nat ->
  exists s',
    iointc_resume s = Done (tt, s')
    /\ mach s' = mach s
    /\ gc_mask_cache s' = gc_mask_cache s
    /\ (forall line, 0 <= line < 32 ->
          regs s' (IOINTC_REG_INTx_MAP line)
          = u8 (nth (Z.to_nat line) (map_cache (priv (mach s))) 0))
    /\ regs s' IOINTC_REG_INTC_DISABLE = u32 (gc_mask_cache s)
    /\ regs s' IOINTC_REG_INTC_ENABLE = u32 (Z.lnot (gc_mask_cache s))
    /\ (forall n, 0 <= n < 32 ->
          Z.testbit (regs s' IOINTC_REG_INTC_ENABLE) n
          = negb (Z.testbit (regs s' IOINTC_REG_INTC_DISABLE) n))
    /\ (forall a, ~ 0 <= a < 32 -> a <> IOINTC_REG_INTC_DISABLE ->
          a <> IOINTC_REG_INTC_ENABLE -> regs s' a = regs s a)
    /\ calls s' =
       calls s ++
       gc_lock
       :: map (fun i => bus_writeb
                          (u8 (nth (Z.to_nat i) (map_cache (priv (mach s))) 0))
                          i) lines
       ++ [bus_writel (u32 (gc_mask_cache s)) IOINTC_REG_INTC_DISABLE;
           bus_writel (u32 (Z.lnot (gc_mask_cache s))) IOINTC_REG_INTC_ENABLE;
           gc_unlock].
Proof.
  intros Hlen.
  destruct (resume_run s Hlen) as (s' & Hrun & Hm & Hg & Hr & Hc).
  exists s'. split; [exact Hrun |]. split; [exact Hm |].
  split; [exact Hg |].
  split; [| split; [| split; [| split; [| split]]]].
  - intros line Hl. unfold IOINTC_REG_INTx_MAP. rewrite Z.mul_1_r, Hr.
    destruct (Z.eqb_spec line IOINTC_REG_INTC_ENABLE) as [E | _];
      [vm_compute in E; lia |].
    destruct (Z.eqb_spec line IOINTC_REG_INTC_DISABLE) as [E | _];
      [vm_compute in E; lia |].
    destruct (Z.leb_spec 0 line), (Z.ltb_spec line 32); try lia.
    reflexivity.
  - rewrite Hr. reflexivity.
  - rewrite Hr. reflexivity.
  - intros n Hn. rewrite !Hr.
    change (IOINTC_REG_INTC_ENABLE =? IOINTC_REG_INTC_ENABLE) with true.
    change (IOINTC_REG_INTC_DISABLE =? IOINTC_REG_INTC_ENABLE) with false.
    change (IOINTC_REG_INTC_DISABLE =? IOINTC_REG_INTC_DISABLE) with true.
    cbv iota. bits_rewrite.
    destruct (Z.ltb_spec n 32); [reflexivity | lia].
  - intros a Ha Hd He. rewrite Hr.
    destruct (Z.eqb_spec a IOINTC_REG_INTC_ENABLE); [contradiction |].
    destruct (Z.eqb_spec a IOINTC_REG_INTC_DISABLE); [contradiction |].
    destruct (Z.leb_spec 0 a), (Z.ltb_spec a 32); try lia; reflexivity.
  - exact Hc.
Qed.

Lemma resume_writes_back_the_caches_witness :
  exists s',
    iointc_resume (cold (fun _ => 0)) = Done (tt, s')
    /\ mach s' = mach (cold (fun _ => 0))
    /\ gc_mask_cache s' = gc_mask_cache (cold (fun _ => 0))
    /\ (forall line, 0 <= line < 32 ->
          regs s' (IOINTC_REG_INTx_MAP line)
          = u8 (nth (Z.to_nat line)
                  (map_cache (priv (mach (cold (fun _ => 0))))) 0))
    /\ regs s' IOINTC_REG_INTC_DISABLE
       = u32 (gc_mask_cache (cold (fun _ => 0)))
    /\ regs s' IOINTC_REG_INTC_ENABLE
       = u32 (Z.lnot (gc_mask_cache (cold (fun _ => 0))))
    /\ (forall n, 0 <= n < 32 ->
          Z.testbit (regs s' IOINTC_REG_INTC_ENABLE) n
          = negb (Z.testbit (regs s' IOINTC_REG_INTC_DISABLE) n))
    /\ (forall a, ~ 0 <= a < 32 -> a <> IOINTC_REG_INTC_DISABLE ->
          a <> IOINTC_REG_INTC_ENABLE ->
          regs s' a = regs (cold (fun _ => 0)) a)
    /\ calls s' =
       calls (cold (fun _ => 0)) ++
       gc_lock
       :: map (fun i => bus_writeb
                          (u8 (nth (Z.to_nat i)
                                 (map_cache (priv (mach (cold (fun _ => 0)))))
                                 0))
                          i) lines
       ++ [bus_writel (u32 (gc_mask_cache (cold (fun _ => 0))))
             IOINTC_REG_INTC_DISABLE;
           bus_writel (u32 (Z.lnot (gc_mask_cache (cold (fun _ => 0)))))
             IOINTC_REG_INTC_ENABLE;
           gc_unlock].
Proof.
  apply (resume_writes_back_the_caches (cold (fun _ => 0))). reflexivity.
Defined.

(** ** [map_cache_set_core] *)

Section SetCore.

Lemma nth_insert_eq (l : list Z) j v :
  (j < length l)%nat -> nth j (<[j := v]> l) 0 = v.
Proof. intros H. now rewrite nth_lookup, list_lookup_insert_eq. Qed.

Lemma nth_insert_ne (l : list Z) i j v :
  i <> j -> nth i (<[j := v]> l) 0 = nth i l 0.
Proof. intros H. now rewrite !nth_lookup, list_lookup_insert_ne. Qed.

Lemma map_cache_set_core_run irq core m :
  0 <= irq < Z.of_nat (length (map_cache (priv m))) ->
  map_cache_set_core irq core m =
  Done (tt,
        with_map_cache
          (<[Z.to_nat irq :=
               with_core core (nth (Z.to_nat irq) (map_cache (priv m)) 0)]>
             (map_cache (priv m))) m).
Proof.
  intros Hi. unfold map_cache_set_core, get_map_cache.
  unfold bind at 1. unfold bind at 1. unfold get_priv at 1.
  rewrite array_get_ok by assumption.
  unfold bind at 1. rewrite set_map_cache_ok by assumption.
  unfold bind at 1. unfold bind at 1. unfold get_priv at 1.
  rewrite array_get_ok by (cbn; rewrite length_insert; assumption).
  rewrite set_map_cache_ok by (cbn; rewrite length_insert; assumption).
  cbn [with_map_cache priv map_cache handler possible_parent_mask
       have_lpc_irq_bug dmesg].
  rewrite list_insert_insert_eq, nth_insert_eq by lia. reflexivity.
Qed.

Lemma testbit_GENMASK_3_0 n : 0 <= n -> Z.testbit (GENMASK 3 0) n = (n <? 4).
Proof.
  intros Hn. change (GENMASK 3 0) with (Z.ones 4).
  rewrite Z.testbit_ones by lia.
  destruct (Z.leb_spec 0 n); [reflexivity | lia].
Qed.

Lemma testbit_with_core core c n :
  0 <= core < 64 -> 0 <= n ->
  Z.testbit (with_core core c) n =
  (n <? 8) && ((n =? core) || negb (n <? 4) && Z.testbit c n).
Proof.
  intros Hc Hn. unfold with_core. bits_rewrite.
  rewrite testbit_GENMASK_3_0 by assumption.
  destruct (Z.ltb_spec n 8), (Z.ltb_spec n 64), (Z.ltb_spec n 4),
    (Z.eqb_spec n core); try lia; cbn;
    destruct (Z.testbit c n); reflexivity.
Qed.

Lemma with_core_range core c : 0 <= with_core core c < 2 ^ 8.
Proof. unfold with_core, u8. apply Z.mod_pos_bound. lia. Qed.

End SetCore.



(** X10. For a core number from 4 to 7, [map_cache_set_core] leaves no core
    selected in the low nibble of the entry and sets bit [core] of the
    entry, a bit of the parent nibble, whatever it was. *)
Theorem set_core_above_3_lands_in_the_parent_nibble irq core m :
  0 <= irq < Z.of_nat (length (map_cache (priv m))) ->
  4 <= core < 8 ->
  exists m',
    map_cache_set_core irq core m = Done (tt, m')
    /\ (forall n, 0 <= n < 4 ->
          Z.testbit (nth (Z.to_nat irq) (map_cache (priv m')) 0) n = false)
    /\ Z.testbit (nth (Z.to_nat irq) (map_cache (priv m')) 0) core = true
    /\ (forall n, 4 <= n < 8 -> n <> core ->
          Z.testbit (nth (Z.to_nat irq) (map_cache (priv m')) 0) n
          = Z.testbit (nth (Z.to_nat irq) (map_cache (priv m)) 0) n).
Proof.
  intros Hi Hc. eexists. split; [now apply map_cache_set_core_run |].
  cbn [with_map_cache priv map_cache].
  rewrite nth_insert_eq by lia.
  repeat split.
  - intros n Hn. rewrite testbit_with_core by lia.
    destruct (Z.ltb_spec n 8), (Z.ltb_spec n 4), (Z.eqb_spec n core);
      try lia; reflexivity.
  - rewrite testbit_with_core by lia.
    destruct (Z.ltb_spec core 8), (Z.eqb_spec core core);
      try lia; reflexivity.
  - intros n Hn Hne. rewrite testbit_with_core by lia.
    destruct (Z.ltb_spec n 8), (Z.ltb_spec n 4), (Z.eqb_spec n core);
      try lia; reflexivity.
Qed.

Lemma set_core_above_3_lands_in_the_parent_nibble_witness :
  exists m',
    map_cache_set_core 5 4 (resolved 14 [32; 96; 0; 0]) = Done (tt, m')
    /\ (forall n, 0 <= n < 4 ->
          Z.testbit (nth (Z.to_nat 5) (map_cache (priv m')) 0) n = false)
    /\ Z.testbit (nth (Z.to_nat 5) (map_cache (priv m')) 0) 4 = true
    /\ (forall n, 4 <= n < 8 -> n <> 4 ->
          Z.testbit (nth (Z.to_nat 5) (map_cache (priv m')) 0) n
          = Z.testbit
              (nth (Z.to_nat 5)
                 (map_cache (priv (resolved 14 [32; 96; 0; 0]))) 0) n).
Proof.
  apply (set_core_above_3_lands_in_the_parent_nibble 5 4
           (resolved 14 [32; 96; 0; 0])); [| lia].
  cbn [resolved priv map_cache]. rewrite length_cached. lia.
Defined.

(** ** [iointc_of_init] on the controller *)

Section InitChip.

Variable node : platform.

Lemma io_find_parents s :
  possible_parent_mask (priv (mach s)) = 0 ->
  io_for (Z.to_nat IOINTC_NUM_PARENT) 0
    (fun i _ =>
       if 0 <=? of_irq_get_byname node i then
         p <- lift get_priv;;
         lift (put_priv {| map_cache := map_cache p; handler := handler p;
                           possible_parent_mask :=
                             u8 (Z.lor (possible_parent_mask p) (BIT i));
                           have_lpc_irq_bug := have_lpc_irq_bug p |})
       else io_ret tt)
    tt s =
  Done (tt,
        with_mach
          {| priv := {| map_cache := map_cache (priv (mach s));
                        handler := handler (priv (mach s));
                        possible_parent_mask := parents node;
                        have_lpc_irq_bug := have_lpc_irq_bug (priv (mach s)) |};
             dmesg := dmesg (mach s) |} s).
Proof.
  intros Hz. destruct s as [[[mc hs pm bug] log] r g cs]. cbn in Hz. subst pm.
  unfold parents.
  change (Z.to_nat IOINTC_NUM_PARENT) with 4%nat.
  cbn [io_for]. change (0 + 1) with 1. change (1 + 1) with 2.
  change (2 + 1) with 3.
  destruct (0 <=? of_irq_get_byname node 0), (0 <=? of_irq_get_byname node 1),
    (0 <=? of_irq_get_byname node 2), (0 <=? of_irq_get_byname node 3);
    vm_compute; reflexivity.
Qed.

Lemma install_handlers s :
  io_for (Z.to_nat IOINTC_NUM_PARENT) 0
    (fun i _ =>
       if of_irq_get_byname node i <? 0 then io_ret tt
       else called (set_chained_handler i))
    tt s =
  Done (tt,
        with_calls
          (map set_chained_handler
             (List.filter (available (parents node)) channels)) s).
Proof.
  unfold channels. cbn [List.filter].
  rewrite !available_parents by lia.
  change (Z.to_nat IOINTC_NUM_PARENT) with 4%nat.
  cbn [io_for]. change (0 + 1) with 1. change (1 + 1) with 2.
  change (2 + 1) with 3.
  rewrite !(Z.ltb_antisym 0).
  destruct s as [m r g cs].
  destruct (0 <=? of_irq_get_byname node 0), (0 <=? of_irq_get_byname node 1),
    (0 <=? of_irq_get_byname node 2), (0 <=? of_irq_get_byname node 3);
    unfold io_bind, called, io_ret, with_calls; cbn;
    rewrite <- ?app_assoc, ?app_nil_r; reflexivity.
Qed.

Lemma set_cores_and_write core n : forall lo s,
  0 <= lo -> lo + Z.of_nat n <= 32 ->
  length (map_cache (priv (mach s))) = 32%nat ->
  exists s',
    io_for n lo
      (fun i _ => lift (map_cache_set_core i core);;; write_map_cache i)
      tt s = Done (tt, s')
    /\ for_ n lo (fun i _ => map_cache_set_core i core) tt (mach s)
       = Done (tt, mach s')
    /\ length (map_cache (priv (mach s'))) = 32%nat
    /\ handler (priv (mach s')) = handler (priv (mach s))
    /\ possible_parent_mask (priv (mach s'))
       = possible_parent_mask (priv (mach s))
    /\ have_lpc_irq_bug (priv (mach s')) = have_lpc_irq_bug (priv (mach s))
    /\ dmesg (mach s') = dmesg (mach s)
    /\ gc_mask_cache s' = gc_mask_cache s
    /\ (forall a, 0 <= a ->
          nth (Z.to_nat a) (map_cache (priv (mach s'))) 0 =
          if (lo <=? a) && (a <? lo + Z.of_nat n)
          then with_core core (nth (Z.to_nat a) (map_cache (priv (mach s))) 0)
          else nth (Z.to_nat a) (map_cache (priv (mach s))) 0)
    /\ (forall a,
          regs s' a =
          if (lo <=? a) && (a <? lo + Z.of_nat n)
          then with_core core (nth (Z.to_nat a) (map_cache (priv (mach s))) 0)
          else regs s a)
    /\ calls s' =
       calls s ++
       map (fun i => bus_writeb
                       (with_core core
                          (nth (Z.to_nat i) (map_cache (priv (mach s))) 0)) i)
         (upfrom lo n).
Proof.
  induction n as [ | n IH]; intros lo s Hlo Hhi Hlen.
  - exists s. cbn [io_for for_ upfrom map]. rewrite app_nil_r.
    repeat split; try assumption; intros a; intros;
      destruct (Z.leb_spec lo a), (Z.ltb_spec a (lo + Z.of_nat 0));
      cbn; lia || reflexivity.
  - cbn [io_for for_]. unfold io_bind at 1. unfold io_bind at 1.
    assert (Hin : 0 <= lo < Z.of_nat (length (map_cache (priv (mach s)))))
      by lia.
    rewrite (lift_Done _ s _ _ (map_cache_set_core_run lo core (mach s) Hin)).
    rewrite write_map_cache_ok
      by (cbn [with_mach with_map_cache mach priv map_cache];
          rewrite length_insert; lia).
    unfold bind at 1. rewrite (map_cache_set_core_run lo core (mach s) Hin).
    cbn [with_mach with_map_cache mach priv map_cache regs gc_mask_cache
         calls].
    rewrite nth_insert_eq by lia.
    assert (Hu : u8 (with_core core
                       (nth (Z.to_nat lo) (map_cache (priv (mach s))) 0))
                 = with_core core
                     (nth (Z.to_nat lo) (map_cache (priv (mach s))) 0)).
    { unfold u8. apply Z.mod_small, with_core_range. }
    rewrite Hu.
    match goal with
    | |- context [io_for n (lo + 1) _ tt ?s1] =>
        destruct (IH (lo + 1) s1 ltac:(lia) ltac:(lia))
          as (s' & Hrun & HrunM & Hl & Hh & Hp & Hb & Hd & Hg & Hn & Hr & Hc)
    end.
    { cbn [mach priv map_cache with_map_cache]. now rewrite length_insert. }
    exists s'.
    cbn [mach priv map_cache handler possible_parent_mask have_lpc_irq_bug
         dmesg regs gc_mask_cache calls with_map_cache] in *.
    split; [exact Hrun |]. split; [exact HrunM |].
    split; [exact Hl |]. split; [exact Hh |]. split; [exact Hp |].
    split; [exact Hb |]. split; [exact Hd |]. split; [exact Hg |].
    split; [| split].
    + intros a Ha. rewrite Hn by assumption.
      destruct (Z.leb_spec (lo + 1) a), (Z.ltb_spec a (lo + 1 + Z.of_nat n)),
        (Z.leb_spec lo a), (Z.ltb_spec a (lo + Z.of_nat (S n)));
        cbn [andb];
        first [ lia
              | rewrite nth_insert_ne by lia; reflexivity
              | assert (a = lo) by lia; subst a;
                rewrite nth_insert_eq by lia; reflexivity ].
    + intros a. rewrite Hr. unfold stored.
      destruct (Z.leb_spec (lo + 1) a), (Z.ltb_spec a (lo + 1 + Z.of_nat n)),
        (Z.leb_spec lo a), (Z.ltb_spec a (lo + Z.of_nat (S n)));
        (destruct (Z.eqb_spec a lo) as [E | E]; [try subst a |]);
        cbn [andb];
        first [ lia
              | reflexivity
              | rewrite nth_insert_ne by lia; reflexivity ].
    + rewrite Hc, <- app_assoc. cbn [upfrom map app]. do 2 f_equal.
      apply map_ext_in. intros i Hi. apply in_upfrom in Hi.
      rewrite nth_insert_ne by lia. reflexivity.
Qed.

End InitChip.

Section InitRun.

Variable node : platform.

Lemma io_bind_inv {A B} (c : IO A) (k : A -> IO B) s r :
  io_bind c k s = Done r ->
  exists a s1, c s = Done (a, s1) /\ k a s1 = Done r.
Proof.
  unfold io_bind. destruct (c s) as [[a s1] | f | ]; try discriminate.
  intros H. now exists a, s1.
Qed.

Lemma with_core_INTx core c :
  0 <= core < 4 -> 0 <= c < 4 ->
  with_core core (INTx c) = Z.lor (INTx c) (BIT core).
Proof.
  intros Hcore Hc. channel_cases core; channel_cases c; reflexivity.
Qed.

Lemma init_chip_run fuel r :
  kzalloc_ok node = true -> of_iomap_ok node = true ->
  parents node <> 0 ->
  4 <= parent_int_map_sz node -> length (parent_int_map_val node) = 4%nat ->
  irq_domain_add_linear_ok node = true ->
  irq_alloc_domain_generic_chips node = 0 ->
  (32 < fuel)%nat ->
  let mask := parents node in
  let hints := parent_int_map_val node in
  let routed line := with_core (boot_cpu_id node) (INTx (owner mask hints line)) in
  exists s',
    iointc_of_init_chip fuel node (cold r) = Done (0, s')
    /\ iointc_of_init fuel node boot = Done (0, mach s')
    /\ handler (priv (mach s')) = settled mask hints
    /\ possible_parent_mask (priv (mach s')) = mask
    /\ have_lpc_irq_bug (priv (mach s')) = compatible_1_0 node
    /\ dmesg (mach s') = warnings mask hints
    /\ length (map_cache (priv (mach s'))) = 32%nat
    /\ (forall line, 0 <= line < 32 ->
          nth (Z.to_nat line) (map_cache (priv (mach s'))) 0 = routed line)
    /\ gc_mask_cache s' = 4294967295
    /\ (forall a,
          regs s' a =
          if (0 <=? a) && (a <? 32) then routed a
          else if a =? IOINTC_REG_INTC_EDGE then 0
          else if a =? IOINTC_REG_INTC_DISABLE then 4294967295
          else r a)
    /\ calls s' =
       [bus_writel 4294967295 IOINTC_REG_INTC_DISABLE;
        bus_writel 0 IOINTC_REG_INTC_EDGE]
       ++ map (fun line => bus_writeb (routed line) line) lines
       ++ map set_chained_handler (List.filter (available mask) channels).
Proof.
  intros Hk Hio Hnz Hsz Hlen Hdom Hchips Hfuel mask hints routed.
  pose proof (parents_range node) as Hr.
  assert (Hm : 0 < mask < 16) by (unfold mask; lia).
  unfold iointc_of_init_chip, iointc_of_init. rewrite Hk, Hio. cbn [negb].
  unfold io_bind at 1. unfold lift at 1. unfold get_priv at 1.
  unfold io_bind at 1. unfold lift at 1. unfold put_priv at 1.
  unfold io_bind at 1. rewrite io_find_parents by reflexivity.
  unfold io_bind at 1. unfold lift at 1. unfold get_priv at 1.
  unfold bind at 1. unfold get_priv at 1.
  unfold bind at 1. unfold put_priv at 1.
  unfold bind at 1. rewrite find_parents by reflexivity.
  unfold bind at 1. unfold get_priv at 1.
  cbn [priv possible_parent_mask map_cache handler have_lpc_irq_bug dmesg
       boot cold mach regs gc_mask_cache calls with_mach].
  destruct (Z.eqb_spec (parents node) 0) as [Hz | _]; [contradiction |].
  destruct (Z.ltb_spec (parent_int_map_sz node) 4) as [Hlt | _]; [lia |].
  rewrite Hdom, Hchips. cbn [negb Z.eqb].
  unfold io_bind at 1. unfold writel at 1.
  unfold io_bind at 1. unfold writel at 1.
  cbn [mach regs gc_mask_cache calls].
  unfold io_bind at 1.
  match goal with
  | |- context [lift (validate_parent_mask fuel ?h) ?s1] =>
      rewrite (lift_Done (validate_parent_mask fuel h) s1 tt _
                 (validate_closed fuel h (mach s1)
                    ltac:(cbn; lia) Hlen eq_refl eq_refl Hfuel))
  end.
  unfold bind at 1. rewrite validate_closed;
    [| cbn; lia | assumption | reflexivity | reflexivity | assumption].
  cbn [priv possible_parent_mask mach].
  fold mask hints.
  unfold io_bind at 1. unfold bind at 1.
  match goal with
  | |- context [io_for _ 0 _ tt ?s1] =>
      destruct (set_cores_and_write (boot_cpu_id node)
                  (Z.to_nat IOINTC_CHIP_IRQ) 0 s1 ltac:(lia)
                  ltac:(change (Z.of_nat (Z.to_nat IOINTC_CHIP_IRQ)) with 32;
                        lia))
        as (s' & Hrun & HrunM & Hl & Hh & Hp & Hb & Hd & Hg & Hn & Hrg & Hc)
  end.
  { cbn [with_mach mach with_map_cache priv map_cache]. apply length_cached. }
  cbn [with_mach mach with_map_cache with_handler logged priv map_cache handler
       possible_parent_mask have_lpc_irq_bug dmesg regs gc_mask_cache calls
       kzalloc_priv app] in Hrun, HrunM, Hl, Hh, Hp, Hb, Hd, Hg, Hn, Hrg, Hc.
  cbn [with_mach mach with_map_cache with_handler logged priv map_cache handler
       possible_parent_mask have_lpc_irq_bug dmesg regs gc_mask_cache calls
       kzalloc_priv app].
  rewrite Hrun, HrunM.
  unfold io_bind at 1. unfold set_mask_cache at 1.
  unfold io_bind at 1. rewrite install_handlers.
  unfold io_ret, ret. eexists. split; [reflexivity |].
  cbn [with_calls mach regs gc_mask_cache calls].
  change (Z.of_nat (Z.to_nat IOINTC_CHIP_IRQ)) with 32 in Hn, Hrg.
  assert (Hrouted : forall a, 0 <= a < 32 ->
            with_core (boot_cpu_id node)
              (nth (Z.to_nat a) (cached (settled mask hints)) 0) = routed a).
  { intros a Ha. unfold routed. now rewrite nth_cached_settled. }
  split; [reflexivity |]. split; [exact Hh |]. split; [exact Hp |].
  split; [rewrite Hb; now destruct (compatible_1_0 node) |].
  split; [exact Hd |]. split; [exact Hl |].
  split; [| split; [reflexivity | split]].
  - intros line Hline. rewrite Hn by lia.
    destruct (Z.leb_spec 0 line), (Z.ltb_spec line (0 + 32)); try lia.
    now apply Hrouted.
  - intros a. rewrite Hrg.
    change (0 + 32) with 32.
    destruct ((0 <=? a) && (a <? 32)) eqn:E.
    + apply Hrouted. lia.
    + unfold stored. reflexivity.
  - rewrite Hc. cbn [app]. do 2 f_equal. unfold lines. f_equal.
    apply map_ext_in. intros i Hi. apply in_lines in Hi.
    now rewrite Hrouted.
Qed.

End InitRun.

(** X11. After a successful [iointc_of_init] on a core below 4, the map register
    of each line holds the bit of the core and the parent bit of one
    channel, the owner of the line; the map cache holds the same byte, and
    the line is in the handler map of that channel and of no other. *)
Theorem init_routes_each_line_to_its_owner fuel node r :
  kzalloc_ok node = true -> of_iomap_ok node = true ->
  parents node <> 0 ->
  4 <= parent_int_map_sz node -> length (parent_int_map_val node) = 4%nat ->
  irq_domain_add_linear_ok node = true ->
  irq_alloc_domain_generic_chips node = 0 ->
  0 <= boot_cpu_id node < 4 ->
  (32 < fuel)%nat ->
  exists s',
    iointc_of_init_chip fuel node (cold r) = Done (0, s')
    /\ forall line, 0 <= line < 32 ->
         regs s' (IOINTC_REG_INTx_MAP line)
         = Z.lor (INTx (owner (parents node) (parent_int_map_val node) line))
             (BIT (boot_cpu_id node))
         /\ nth (Z.to_nat line) (map_cache (priv (mach s'))) 0
            = regs s' (IOINTC_REG_INTx_MAP line)
         /\ forall c, 0 <= c < 4 ->
              Z.testbit (nth (Z.to_nat c) (handler (priv (mach s'))) 0) line
              = (c =? owner (parents node) (parent_int_map_val node) line).
Proof.
  intros Hk Hio Hnz Hsz Hlen Hdom Hchips Hcore Hfuel.
  pose proof (parents_range node) as Hr.
  destruct (init_chip_run node fuel r Hk Hio Hnz Hsz Hlen Hdom Hchips Hfuel)
    as (s' & Hrun & _ & Hh & _ & _ & _ & _ & Hn & _ & Hrg & _).
  exists s'. split; [exact Hrun |]. intros line Hline.
  assert (Ho : 0 <= owner (parents node) (parent_int_map_val node) line < 4)
    by (apply owner_range; lia).
  unfold IOINTC_REG_INTx_MAP. rewrite Z.mul_1_r, Hrg, Hn by assumption.
  destruct (Z.leb_spec 0 line), (Z.ltb_spec line 32); try lia. cbn [andb].
  split; [now apply with_core_INTx |]. split; [reflexivity |].
  intros c Hc. rewrite Hh. apply testbit_settled; lia.
Qed.

Lemma init_routes_each_line_to_its_owner_witness :
  exists s',
    iointc_of_init_chip 33 three_parents (cold (fun _ => 0)) = Done (0, s')
    /\ forall line, 0 <= line < 32 ->
         regs s' (IOINTC_REG_INTx_MAP line)
         = Z.lor (INTx (owner (parents three_parents)
                          (parent_int_map_val three_parents) line))
             (BIT (boot_cpu_id three_parents))
         /\ nth (Z.to_nat line) (map_cache (priv (mach s'))) 0
            = regs s' (IOINTC_REG_INTx_MAP line)
         /\ forall c, 0 <= c < 4 ->
              Z.testbit (nth (Z.to_nat c) (handler (priv (mach s'))) 0) line
              = (c =? owner (parents three_parents)
                        (parent_int_map_val three_parents) line).
Proof.
  apply (init_routes_each_line_to_its_owner 33 three_parents (fun _ => 0));
    solve [reflexivity | discriminate | cbn; lia].
Defined.

(** X12. A successful [iointc_of_init] installs the chained handler of a channel
    exactly when the device tree names an interrupt for it, and the channel
    that a line is routed to always has its chained handler installed. *)
Theorem init_installs_a_handler_for_each_parent_in_use fuel node r :
  kzalloc_ok node = true -> of_iomap_ok node = true ->
  parents node <> 0 ->
  4 <= parent_int_map_sz node -> length (parent_int_map_val node) = 4%nat ->
  irq_domain_add_linear_ok node = true ->
  irq_alloc_domain_generic_chips node = 0 ->
  (32 < fuel)%nat ->
  exists s',
    iointc_of_init_chip fuel node (cold r) = Done (0, s')
    /\ (forall c, In (set_chained_handler c) (calls s') <->
                  0 <= c < 4 /\ 0 <= of_irq_get_byname node c)
    /\ (forall line, 0 <= line < 32 ->
          In (set_chained_handler
                (owner (parents node) (parent_int_map_val node) line))
            (calls s')).
Proof.
  intros Hk Hio Hnz Hsz Hlen Hdom Hchips Hfuel.
  pose proof (parents_range node) as Hr.
  destruct (init_chip_run node fuel r Hk Hio Hnz Hsz Hlen Hdom Hchips Hfuel)
    as (s' & Hrun & _ & _ & _ & _ & _ & _ & _ & _ & _ & Hc).
  exists s'. split; [exact Hrun |].
  assert (Hin : forall c, In (set_chained_handler c) (calls s') <->
                          0 <= c < 4 /\ available (parents node) c = true).
  { intros c. rewrite Hc, !in_app_iff, !in_map_iff. split.
    - intros [[E | [E | []]] | [(x & E & _) | (x & E & Hx)]];
        try discriminate.
      injection E as ->. apply filter_In in Hx. destruct Hx as [Hx Ha].
      split; [| exact Ha].
      unfold channels in Hx. cbn in Hx. lia.
    - intros [Hc4 Ha]. right. right. exists c. split; [reflexivity |].
      apply filter_In. split; [| exact Ha].
      unfold channels. cbn. lia. }
  split.
  - intros c. rewrite Hin. split.
    + intros [Hc4 Ha]. rewrite available_parents in Ha by assumption.
      split; [assumption | lia].
    + intros [Hc4 Ha]. split; [assumption |].
      rewrite available_parents by assumption. lia.
  - intros line Hline. apply Hin. split.
    + apply owner_range. lia.
    + apply owner_available. lia.
Qed.

Lemma init_installs_a_handler_for_each_parent_in_use_witness :
  exists s',
    iointc_of_init_chip 33 three_parents (cold (fun _ => 0)) = Done (0, s')
    /\ (forall c, In (set_chained_handler c) (calls s') <->
                  0 <= c < 4 /\ 0 <= of_irq_get_byname three_parents c)
    /\ (forall line, 0 <= line < 32 ->
          In (set_chained_handler
                (owner (parents three_parents)
                   (parent_int_map_val three_parents) line))
            (calls s')).
Proof.
  apply (init_installs_a_handler_for_each_parent_in_use 33 three_parents
           (fun _ => 0));
    solve [reflexivity | discriminate | cbn; lia].
Defined.

(** X13. A successful [iointc_of_init] first disables all lines, then sets them
    level triggered, then writes the 32 map registers once each in the
    order of the lines, and installs the chained handlers last; it leaves
    the disable register and the mask cache with all lines masked, the edge
    register 0 and every register outside these untouched. *)
Theorem init_masks_all_lines_before_it_routes_them fuel node r :
  kzalloc_ok node = true -> of_iomap_ok node = true ->
  parents node <> 0 ->
  4 <= parent_int_map_sz node -> length (parent_int_map_val node) = 4%nat ->
  irq_domain_add_linear_ok node = true ->
  irq_alloc_domain_generic_chips node = 0 ->
  (32 < fuel)%nat ->
  exists s',
    iointc_of_init_chip fuel node (cold r) = Done (0, s')
    /\ calls s' =
       [bus_writel 4294967295 IOINTC_REG_INTC_DISABLE;
        bus_writel 0 IOINTC_REG_INTC_EDGE]
       ++ map (fun line =>
                 bus_writeb (regs s' (IOINTC_REG_INTx_MAP line))
                   (IOINTC_REG_INTx_MAP line)) lines
       ++ map set_chained_handler
            (List.filter (available (parents node)) channels)
    /\ regs s' IOINTC_REG_INTC_DISABLE = 4294967295
    /\ regs s' IOINTC_REG_INTC_EDGE = 0
    /\ gc_mask_cache s' = 4294967295
    /\ (forall a, ~ 0 <= a < 32 -> a <> IOINTC_REG_INTC_DISABLE ->
          a <> IOINTC_REG_INTC_EDGE -> regs s' a = r a).
Proof.
  intros Hk Hio Hnz Hsz Hlen Hdom Hchips Hfuel.
  destruct (init_chip_run node fuel r Hk Hio Hnz Hsz Hlen Hdom Hchips Hfuel)
    as (s' & Hrun & _ & _ & _ & _ & _ & _ & _ & Hg & Hrg & Hc).
  exists s'. split; [exact Hrun |].
  split; [| split; [| split; [| split]]].
  - rewrite Hc. do 2 f_equal.
    apply map_ext_in. intros line Hline. apply in_lines in Hline.
    unfold IOINTC_REG_INTx_MAP. rewrite Z.mul_1_r, Hrg.
    destruct (Z.leb_spec 0 line), (Z.ltb_spec line 32); try lia.
    reflexivity.
  - rewrite Hrg. reflexivity.
  - rewrite Hrg. reflexivity.
  - exact Hg.
  - intros a Ha Hd He. rewrite Hrg.
    destruct (Z.leb_spec 0 a), (Z.ltb_spec a 32); try lia; cbn [andb];
      destruct (Z.eqb_spec a IOINTC_REG_INTC_EDGE); try contradiction;
      destruct (Z.eqb_spec a IOINTC_REG_INTC_DISABLE); try contradiction;
      reflexivity.
Qed.

Lemma init_masks_all_lines_before_it_routes_them_witness :
  exists s',
    iointc_of_init_chip 33 three_parents (cold (fun _ => 0)) = Done (0, s')
    /\ calls s' =
       [bus_writel 4294967295 IOINTC_REG_INTC_DISABLE;
        bus_writel 0 IOINTC_REG_INTC_EDGE]
       ++ map (fun line =>
                 bus_writeb (regs s' (IOINTC_REG_INTx_MAP line))
                   (IOINTC_REG_INTx_MAP line)) lines
       ++ map set_chained_handler
            (List.filter (available (parents three_parents)) channels)
    /\ regs s' IOINTC_REG_INTC_DISABLE = 4294967295
    /\ regs s' IOINTC_REG_INTC_EDGE = 0
    /\ gc_mask_cache s' = 4294967295
    /\ (forall a, ~ 0 <= a < 32 -> a <> IOINTC_REG_INTC_DISABLE ->
          a <> IOINTC_REG_INTC_EDGE -> regs s' a = (fun _ => 0) a).
Proof.
  apply (init_masks_all_lines_before_it_routes_them 33 three_parents
           (fun _ => 0));
    solve [reflexivity | discriminate | cbn; lia].
Defined.

(** X14. When [iointc_of_init] returns an error it has written no register and
    installed no chained handler, [validate_parent_mask] has not run (the
    handler maps and the map cache are still zero), the error is [-ENOMEM]
    or [-ENODEV], and at most one message was printed, an error. *)
Theorem init_failure_leaves_the_controller_untouched fuel node r ret s' :
  iointc_of_init_chip fuel node (cold r) = Done (ret, s') ->
  ret <> 0 ->
  calls s' = []
  /\ (forall a, regs s' a = r a)
  /\ gc_mask_cache s' = 0
  /\ handler (priv (mach s')) = [0; 0; 0; 0]
  /\ map_cache (priv (mach s')) = replicate 32 0
  /\ (ret = - ENOMEM \/ ret = - ENODEV)
  /\ (length (dmesg (mach s')) <= 1)%nat
  /\ Forall (fun e => level e = KERN_ERR) (dmesg (mach s')).
Proof.
  unfold iointc_of_init_chip. intros Hrun Hret.
  destruct (kzalloc_ok node); cbn [negb] in Hrun;
    [| injection Hrun as <- <-; cbn; repeat split; auto].
  destruct (of_iomap_ok node); cbn [negb] in Hrun;
    [| injection Hrun as <- <-; cbn; repeat split; auto].
  unfold io_bind at 1 in Hrun. unfold lift at 1 in Hrun.
  unfold get_priv at 1 in Hrun.
  unfold io_bind at 1 in Hrun. unfold lift at 1 in Hrun.
  unfold put_priv at 1 in Hrun.
  unfold io_bind at 1 in Hrun. rewrite io_find_parents in Hrun by reflexivity.
  unfold io_bind at 1 in Hrun. unfold lift at 1 in Hrun.
  unfold get_priv at 1 in Hrun.
  cbn [priv possible_parent_mask map_cache handler have_lpc_irq_bug dmesg
       boot cold mach regs gc_mask_cache calls with_mach] in Hrun.
  destruct (parents node =? 0);
    [injection Hrun as <- <-; cbn; repeat split; auto |].
  destruct (parent_int_map_sz node <? 4);
    [injection Hrun as <- <-; cbn; repeat split; auto |].
  destruct (irq_domain_add_linear_ok node); cbn [negb] in Hrun;
    [| injection Hrun as <- <-; cbn; repeat split; auto].
  destruct (irq_alloc_domain_generic_chips node =? 0); cbn [negb] in Hrun;
    [| injection Hrun as <- <-; cbn; repeat split; auto].
  exfalso.
  do 6 (apply io_bind_inv in Hrun; destruct Hrun as (? & ? & _ & Hrun)).
  injection Hrun as <- _. now apply Hret.
Qed.

Lemma init_failure_leaves_the_controller_untouched_witness :
  exists ret s',
    iointc_of_init_chip 33 no_parent (cold (fun _ => 0)) = Done (ret, s')
    /\ ret <> 0
    /\ calls s' = []
    /\ (forall a, regs s' a = (fun _ => 0) a)
    /\ gc_mask_cache s' = 0
    /\ handler (priv (mach s')) = [0; 0; 0; 0]
    /\ map_cache (priv (mach s')) = replicate 32 0
    /\ (ret = - ENOMEM \/ ret = - ENODEV)
    /\ (length (dmesg (mach s')) <= 1)%nat
    /\ Forall (fun e => level e = KERN_ERR) (dmesg (mach s')).
Proof.
  eexists _, _. split; [vm_compute; reflexivity |].
  split; [discriminate |].
  apply (init_failure_leaves_the_controller_untouched 33 no_parent
           (fun _ => 0)); [vm_compute; reflexivity | discriminate].
Defined.

(** X15. [iointc_resume] right after a successful [iointc_of_init] writes to each
    map register the byte that the initialisation gave it and keeps every
    line disabled: of all registers it changes the enable register alone,
    to 0, and it leaves [priv] as it was. *)
Theorem resume_after_init_restores_the_routing fuel node r :
  kzalloc_ok node = true -> of_iomap_ok node = true ->
  parents node <> 0 ->
  4 <= parent_int_map_sz node -> length (parent_int_map_val node) = 4%nat ->
  irq_domain_add_linear_ok node = true ->
  irq_alloc_domain_generic_chips node = 0 ->
  (32 < fuel)%nat ->
  exists s' s'',
    iointc_of_init_chip fuel node (cold r) = Done (0, s')
    /\ iointc_resume s' = Done (tt, s'')
    /\ mach s'' = mach s'
    /\ (forall a, a <> IOINTC_REG_INTC_ENABLE -> regs s'' a = regs s' a)
    /\ regs s'' IOINTC_REG_INTC_ENABLE = 0
    /\ regs s'' IOINTC_REG_INTC_DISABLE = 4294967295.
Proof.
  intros Hk Hio Hnz Hsz Hlen Hdom Hchips Hfuel.
  destruct (init_chip_run node fuel r Hk Hio Hnz Hsz Hlen Hdom Hchips Hfuel)
    as (s' & Hrun & _ & _ & _ & _ & _ & Hl & Hn & Hg & Hrg & _).
  destruct (resume_run s' Hl) as (s'' & Hres & Hm & _ & Hr & _).
  exists s', s''. split; [exact Hrun |]. split; [exact Hres |].
  split; [exact Hm |].
  rewrite Hg in Hr.
  split; [| split; rewrite Hr; reflexivity].
  intros a Ha. rewrite Hr.
  destruct (Z.eqb_spec a IOINTC_REG_INTC_ENABLE); [contradiction |].
  destruct (Z.eqb_spec a IOINTC_REG_INTC_DISABLE) as [-> | Hd];
    [rewrite Hrg; reflexivity |].
  destruct ((0 <=? a) && (a <? 32)) eqn:E; [| reflexivity].
  rewrite Hn, Hrg, E by lia.
  unfold u8. apply Z.mod_small, with_core_range.
Qed.

Lemma resume_after_init_restores_the_routing_witness :
  exists s' s'',
    iointc_of_init_chip 33 three_parents (cold (fun _ => 0)) = Done (0, s')
    /\ iointc_resume s' = Done (tt, s'')
    /\ mach s'' = mach s'
    /\ (forall a, a <> IOINTC_REG_INTC_ENABLE -> regs s'' a = regs s' a)
    /\ regs s'' IOINTC_REG_INTC_ENABLE = 0
    /\ regs s'' IOINTC_REG_INTC_DISABLE = 4294967295.
Proof.
  apply (resume_after_init_restores_the_routing 33 three_parents
           (fun _ => 0));
    solve [reflexivity | discriminate | cbn; lia].
Defined.

(** X3. On a controller with the LPC bug whose handler maps come from
    [validate_parent_mask], a status of 0 makes the chained handler of one
    parent only, the one that line 10 is routed to, handle the LPC line,
    and only while line 10 is not masked in the mask cache; the handler of
    every other parent reports a spurious interrupt. *)
Theorem lpc_is_blamed_by_the_parent_it_is_routed_to fuel i s mask hints :
  0 < mask < 16 ->
  handler (priv (mach s)) = settled mask hints ->
  have_lpc_irq_bug (priv (mach s)) = true ->
  u32 (regs s IOINTC_REG_INTC_STATUS) = 0 ->
  0 <= i < 4 ->
  (0 < fuel)%nat ->
  iointc_chained_handle_irq fuel i s =
  Done (tt,
        with_calls
          [chained_enter;
           if (i =? owner mask hints BUGGY_LPC_IRQ)
              && negb (Z.testbit (gc_mask_cache s) BUGGY_LPC_IRQ)
           then handle_irq BUGGY_LPC_IRQ else spurious;
           chained_exit] s).
Proof.
  intros Hm Hh Hbug Hz Hi Hfuel.
  pose proof (settled_words mask hints Hm) as Hw.
  rewrite chained_zero_status; try assumption.
  - rewrite lpc_enabled, Hbug, Hh, testbit_settled
      by (assumption || unfold BUGGY_LPC_IRQ; lia).
    reflexivity.
  - rewrite Hh, (four_words_length _ Hw). lia.
Qed.

Lemma lpc_is_blamed_by_the_parent_it_is_routed_to_witness :
  iointc_chained_handle_irq 1 1
    {| mach := {| priv := {| map_cache := cached (settled 11 [32; 1120; 0; 0]);
                             handler := settled 11 [32; 1120; 0; 0];
                             possible_parent_mask := 11;
                             have_lpc_irq_bug := true |};
                  dmesg := [] |};
       regs := fun _ => 0; gc_mask_cache := 0; calls := [] |} =
  Done (tt,
        with_calls
          [chained_enter;
           if (1 =? owner 11 [32; 1120; 0; 0] BUGGY_LPC_IRQ)
              && negb (Z.testbit 0 BUGGY_LPC_IRQ)
           then handle_irq BUGGY_LPC_IRQ else spurious;
           chained_exit]
          {| mach := {| priv := {| map_cache :=
                                     cached (settled 11 [32; 1120; 0; 0]);
                                   handler := settled 11 [32; 1120; 0; 0];
                                   possible_parent_mask := 11;
                                   have_lpc_irq_bug := true |};
                        dmesg := [] |};
             regs := fun _ => 0; gc_mask_cache := 0; calls := [] |}).
Proof.
  apply (lpc_is_blamed_by_the_parent_it_is_routed_to 1 1
           {| mach := {| priv := {| map_cache :=
                                      cached (settled 11 [32; 1120; 0; 0]);
                                    handler := settled 11 [32; 1120; 0; 0];
                                    possible_parent_mask := 11;
                                    have_lpc_irq_bug := true |};
                         dmesg := [] |};
              regs := fun _ => 0; gc_mask_cache := 0; calls := [] |}
           11 [32; 1120; 0; 0]);
    solve [reflexivity | lia].
Defined.
